(** * Mod-list converter: version resolution, dependency completion,
      bounded-concurrency runner, list export and share codes.

    A shallow embedding of [src/app/page.tsx] (the list manager) and of the
    share-code routes ([src/app/api/share-code/route.ts] and the two
    SQLite-backed variants of that route), with the properties of the
    specification stated over it. *)

From Stdlib Require Import Ascii String.
From Stdlib Require OrderedTypeEx.
From stdpp Require Import gmap strings list fin_maps.

Open Scope string_scope.
Open Scope list_scope.

(** ** Promises

    An awaited promise either fulfils with a value or rejects; a rejection
    is what an [await] re-throws. *)

Inductive Settled (A : Type) : Type :=
| Fulfilled (a : A)
| Rejects.
Arguments Fulfilled {A} a.
Arguments Rejects {A}.

Definition settled_bind {A B} (m : Settled A) (k : A -> Settled B) : Settled B :=
  match m with
  | Fulfilled a => k a
  | Rejects => Rejects
  end.

(** [Promise.all] over a list of already settled promises, taken in order. *)
Fixpoint settled_all {A} (l : list (Settled A)) : Settled (list A) :=
  match l with
  | [] => Fulfilled []
  | m :: l' =>
      settled_bind m (fun a => settled_bind (settled_all l') (fun r => Fulfilled (a :: r)))
  end.

(** ** The bounded concurrency runner ([runPool])

    [runPool] builds [results = new Array(list.length)], a shared [queue] of
    [{value, index}] pairs and [limit] async runners, each executing
<<
      while (queue.length) {
        const next = queue.shift();
        if (!next) return;
        const resolved = await worker(next.value);
        results[next.index] = resolved;
      }
>>
    The runners interleave at the [await]: which runner continues next is the
    scheduler's choice.  The model keeps the shared queue and results array,
    one control state per runner, and a log of the worker calls made. *)

Module Pool.
Section Pool.
Context {T : Type}.

(** [worker v]: what the promise returned by the call settles to. *)
Variable worker : T -> Settled T.

Inductive Runner : Type :=
| AtLoop                   (* about to test [queue.length] *)
| Awaiting (next : T * nat) (* suspended in [await worker(next.value)] *)
| Returned                 (* the loop ended, the runner's promise fulfilled *)
| Threw.                   (* the awaited promise rejected *)

Record State : Type := mkState {
  queue : list (T * nat);
  results : list (option T);      (* [None] is a hole of [new Array(n)] *)
  runners : list Runner;
  calls : list nat                (* indices handed to [worker], in call order *)
}.

(** [list.map((value, index) => ({ value, index }))] *)
Definition indexed (items : list T) : list (T * nat) :=
  imap (fun i v => (v, i)) items.

Definition init (items : list T) (limit : nat) : State :=
  {| queue := indexed items;
     results := replicate (length items) None;
     runners := replicate limit AtLoop;
     calls := [] |}.

(** One move of runner [k], from its current control point to the next
    [await] or to its end.  [None]: runner [k] does not exist or has
    already ended. *)
Definition step_runner (k : nat) (s : State) : option State :=
  match runners s !! k with
  | Some AtLoop =>
      match queue s with
      | [] =>
          Some {| queue := []; results := results s;
                  runners := <[k := Returned]> (runners s); calls := calls s |}
      | next :: rest =>
          Some {| queue := rest; results := results s;
                  runners := <[k := Awaiting next]> (runners s);
                  calls := calls s ++ [next.2] |}
      end
  | Some (Awaiting next) =>
      match worker next.1 with
      | Fulfilled resolved =>
          Some {| queue := queue s;
                  results := <[next.2 := Some resolved]> (results s);
                  runners := <[k := AtLoop]> (runners s); calls := calls s |}
      | Rejects =>
          Some {| queue := queue s; results := results s;
                  runners := <[k := Threw]> (runners s); calls := calls s |}
      end
  | Some Returned | Some Threw | None => None
  end.

Definition step (s s' : State) : Prop := exists k, step_runner k s = Some s'.

Inductive steps (s : State) : State -> Prop :=
| steps_refl : steps s s
| steps_more s' s'' : steps s s' -> step s' s'' -> steps s s''.

(** Runs a schedule (the runner chosen at each turn); a choice that
    cannot move is skipped. *)
Fixpoint exec (sched : list nat) (s : State) : State :=
  match sched with
  | [] => s
  | k :: sched' =>
      match step_runner k s with
      | Some s' => exec sched' s'
      | None => exec sched' s
      end
  end.

Definition ended (r : Runner) : bool :=
  match r with
  | Returned | Threw => true
  | AtLoop | Awaiting _ => false
  end.

Definition threw (r : Runner) : bool :=
  match r with
  | Threw => true
  | _ => false
  end.

(** No runner can move any more. *)
Definition quiescent (s : State) : bool := forallb ended (runners s).

(** [await Promise.all(runners); return results;] once every runner has
    ended: a rejected runner rejects the whole call. *)
Definition outcome (s : State) : Settled (list (option T)) :=
  if existsb threw (runners s) then Rejects else Fulfilled (results s).

Definition weight (r : Runner) : nat :=
  match r with
  | AtLoop => 2
  | Awaiting _ => 3
  | Returned | Threw => 0
  end.

(** Bound on the number of moves still possible. *)
Definition fuel (s : State) : nat :=
  3 * length (queue s) + sum_list (weight <$> runners s).

(** The value of a settled promise, if it has one. *)
Definition fulfilled (m : Settled T) : option T :=
  match m with
  | Fulfilled r => Some r
  | Rejects => None
  end.

End Pool.
End Pool.


(** ** Strings

    Strings are byte strings (the UTF-8 text of the source literals).
    [toLowerCase] and [toUpperCase] map the ASCII letters and leave every
    other byte as it is.  That is what the JavaScript methods do on text
    made of ASCII characters and of characters without case (the page's
    Chinese texts); a letter outside ASCII that has a case is mapped by
    JavaScript and is left as it is here.  The labels of the loader table
    and the codes the routes issue are ASCII. *)

Definition lower_ascii (c : ascii) : ascii :=
  let n := nat_of_ascii c in
  if Nat.leb 65 n && Nat.leb n 90 then ascii_of_nat (n + 32) else c.

Definition upper_ascii (c : ascii) : ascii :=
  let n := nat_of_ascii c in
  if Nat.leb 97 n && Nat.leb n 122 then ascii_of_nat (n - 32) else c.

Fixpoint map_string (f : ascii -> ascii) (s : string) : string :=
  match s with
  | EmptyString => EmptyString
  | String c s' => String (f c) (map_string f s')
  end.

Definition toLowerCase : string -> string := map_string lower_ascii.
Definition toUpperCase : string -> string := map_string upper_ascii.

(** A string is truthy when it is not empty. *)
Definition truthy (s : string) : bool :=
  match s with
  | EmptyString => false
  | String _ _ => true
  end.

(** ** The list manager ([src/app/page.tsx]) *)

Module Cart.

Inductive StatusTone : Type := success | accent | warning | danger.

Record DependencyItem : Type := mkDependencyItem {
  dep_id : string;
  dep_title : string;
  dep_iconUrl : option string
}.

(** [CartItem]; a field declared with [?] is an [option], [None] standing
    for [undefined]. *)
Record CartItem : Type := mkCartItem {
  id : string;
  title : string;
  source : string;
  currentVersion : string;
  targetVersion : string;
  status : string;
  statusTone : StatusTone;
  paused : bool;
  lastSupportedVersion : option string;
  downloaded : option bool;
  filename : option string;
  iconUrl : option string;
  dependencies : option (list DependencyItem);
  isDependency : option bool;
  isSelected : option bool;
  note : option string;
  isCustom : option bool;
  customUrl : option string
}.

(** The status texts of the source, under the names the specification
    gives them: pending, resolvable, missing, paused, custom. *)
Definition status_pending : string := "待解析".
Definition status_resolvable : string := "可更新".
Definition status_missing : string := "缺失".
Definition status_paused : string := "暫停".
Definition status_custom : string := "自訂".

Definition source_modrinth : string := "Modrinth".
Definition source_custom : string := "自訂".
Definition version_unknown : string := "未知".
Definition version_none : string := "-".

(** The suffix of the export placeholder, [`${item.title}(該版本缺失)`]
    (in English: "(version missing)"). *)
Definition version_missing_suffix : string := "(該版本缺失)".

(** *** Registry records *)

Record ProjectInfo : Type := mkProjectInfo {
  pr_title : option string;
  pr_game_versions : option (list string);
  pr_icon_url : option string
}.

Record VersionFile : Type := mkVersionFile {
  url : string;
  primary : option bool;
  file_filename : option string
}.

Record VersionDependency : Type := mkVersionDependency {
  project_id : option string;
  dependency_type : option string
}.

Record VersionInfo : Type := mkVersionInfo {
  version_id : string;
  game_versions : option (list string);
  date_published : option string;
  files : option (list VersionFile);
  version_dependencies : option (list VersionDependency)
}.

(** What [await fetch(...)] followed by [response.ok] and
    [await response.json()] gives: the call itself may reject
    ([Rejects]), the response may be not OK, or it carries the parsed
    body. *)
Inductive Response (A : Type) : Type :=
| Ok (body : A)
| NotOk.
Arguments Ok {A} body.
Arguments NotOk {A}.

(** The relay [/api/modrinth], as seen by the page during one pass:
    [type=project] and [type=versions] with or without the
    [(gameVersion, loader)] filter. *)
Record Registry : Type := mkRegistry {
  fetch_project : string -> Settled (Response ProjectInfo);
  fetch_versions : string -> option (string * string) -> Settled (Response (list VersionInfo))
}.

(** The application state the handlers close over. *)
Record AppState : Type := mkAppState {
  cartItems : list CartItem;
  selectedMods : gset string;
  st_targetVersion : string;
  st_loader : string
}.

(** *** Helpers of the page *)

(** [label.toLowerCase()] (the special case for "neoforge" returns the same
    string). *)
Definition toLoaderId (label : string) : string :=
  let lower := toLowerCase label in
  if String.eqb lower "neoforge" then "neoforge" else lower.

(** [Array.from(new Set(list))]: the first occurrence of each string, in
    order. *)
Fixpoint dedupe_from (seen : gset string) (l : list string) : list string :=
  match l with
  | [] => []
  | x :: l' =>
      if bool_decide (x ∈ seen) then dedupe_from seen l'
      else x :: dedupe_from ({[x]} ∪ seen) l'
  end.

Definition dedupe (l : list string) : list string := dedupe_from ∅ l.

(** The head of [versions] sorted by [date_published] (the empty string
    when absent), latest first, under [localeCompare]: the sort is stable,
    so its head is the first element whose date no other element exceeds.
    [localeCompare] is the caller's collation. *)
Section LatestSupported.
Variable localeCompare : string -> string -> Z.

Definition published (v : VersionInfo) : string := default EmptyString (date_published v).

Fixpoint latest_from (best : VersionInfo) (l : list VersionInfo) : VersionInfo :=
  match l with
  | [] => best
  | v :: l' =>
      if (0 <? localeCompare (published v) (published best))%Z
      then latest_from v l'
      else latest_from best l'
  end.

Definition getLatestSupportedVersion (versions : list VersionInfo) : option string :=
  match versions with
  | [] => None
  | v :: l =>
      let latest := latest_from v l in
      game_versions latest ≫= head
  end.
End LatestSupported.

(** The result of [fetchProjectInfoById]: every failure gives [{}]. *)
Record FetchedInfo : Type := mkFetchedInfo {
  info_title : option string;
  info_iconUrl : option string;
  info_currentVersion : option string
}.

Definition no_info : FetchedInfo := mkFetchedInfo None None None.

Definition fetchProjectInfoById (reg : Registry) (pid : string) : FetchedInfo :=
  match fetch_project reg pid with
  | Fulfilled (Ok data) =>
      {| info_title := pr_title data;
         info_iconUrl := pr_icon_url data;
         info_currentVersion := pr_game_versions data ≫= head |}
  | Fulfilled NotOk => no_info
  | Rejects => no_info
  end.

(** [dep.dependency_type === "required" && dep.project_id] *)
Definition is_required (dep : VersionDependency) : bool :=
  match dependency_type dep, project_id dep with
  | Some ty, Some pid => String.eqb ty "required" && truthy pid
  | _, _ => false
  end.

Definition dependency_title (reg : Registry) (pid : string) : DependencyItem :=
  match fetch_project reg pid with
  | Fulfilled (Ok data) =>
      {| dep_id := pid; dep_title := default pid (pr_title data);
         dep_iconUrl := pr_icon_url data |}
  | Fulfilled NotOk => {| dep_id := pid; dep_title := pid; dep_iconUrl := None |}
  | Rejects => {| dep_id := pid; dep_title := pid; dep_iconUrl := None |}
  end.

Definition resolveDependencyTitles (reg : Registry)
    (deps : option (list VersionDependency)) : list DependencyItem :=
  match deps with
  | None => []
  | Some deps =>
      let requiredIds :=
        dedupe (omap (fun dep => if is_required dep then project_id dep else None) deps) in
      dependency_title reg <$> requiredIds
  end.

(** *** [resolveItem]

    [target] and [loader] are the page's [targetVersion] and [loader]
    state.  The two version queries are awaited outside any [try]: a
    rejected [fetch] rejects [resolveItem]. *)

Definition is_custom (item : CartItem) : bool :=
  default false (isCustom item) || String.eqb (source item) source_custom.

Definition custom_item (item : CartItem) : CartItem :=
  {| id := id item; title := title item; source := source item;
     currentVersion := version_none; targetVersion := version_none;
     status := status_custom; statusTone := accent; paused := paused item;
     lastSupportedVersion := lastSupportedVersion item;
     downloaded := downloaded item; filename := None; iconUrl := iconUrl item;
     dependencies := dependencies item; isDependency := isDependency item;
     isSelected := isSelected item; note := note item;
     isCustom := isCustom item; customUrl := customUrl item |}.

Definition base_item (projectInfo : FetchedInfo) (item : CartItem) : CartItem :=
  {| id := id item;
     title := default (title item) (info_title projectInfo);
     source := source item;
     currentVersion :=
       if String.eqb (currentVersion item) version_unknown
       then default (currentVersion item) (info_currentVersion projectInfo)
       else currentVersion item;
     targetVersion := targetVersion item;
     status := status item; statusTone := statusTone item; paused := paused item;
     lastSupportedVersion := lastSupportedVersion item;
     downloaded := downloaded item; filename := filename item;
     iconUrl := match info_iconUrl projectInfo with
                | Some u => Some u
                | None => iconUrl item
                end;
     dependencies := dependencies item; isDependency := isDependency item;
     isSelected := isSelected item; note := note item;
     isCustom := isCustom item; customUrl := customUrl item |}.

Definition resolvable_item (baseItem : CartItem) (target : string)
    (fname : option string) (deps : list DependencyItem) : CartItem :=
  {| id := id baseItem; title := title baseItem; source := source baseItem;
     currentVersion := currentVersion baseItem;
     targetVersion := target;
     status := status_resolvable; statusTone := success; paused := paused baseItem;
     lastSupportedVersion := None;
     downloaded := downloaded baseItem; filename := fname;
     iconUrl := iconUrl baseItem;
     dependencies := Some deps; isDependency := isDependency baseItem;
     isSelected := isSelected baseItem; note := note baseItem;
     isCustom := isCustom baseItem; customUrl := customUrl baseItem |}.

Definition missing_item (baseItem : CartItem) (lastSupported : option string) : CartItem :=
  {| id := id baseItem; title := title baseItem; source := source baseItem;
     currentVersion := currentVersion baseItem;
     targetVersion := version_none;
     status := status_missing; statusTone := warning; paused := paused baseItem;
     lastSupportedVersion := lastSupported;
     downloaded := downloaded baseItem; filename := None;
     iconUrl := iconUrl baseItem;
     dependencies := dependencies baseItem; isDependency := isDependency baseItem;
     isSelected := isSelected baseItem; note := note baseItem;
     isCustom := isCustom baseItem; customUrl := customUrl baseItem |}.

(** [versions[0].files?.[0]?.filename] *)
Definition first_filename (first : VersionInfo) : option string :=
  match files first with
  | Some (f :: _) => file_filename f
  | Some [] | None => None
  end.

Section Resolve.
Variable localeCompare : string -> string -> Z.
Variable reg : Registry.
Variables target loader : string.

(** The part of [resolveItem] after the filtered query found nothing
    usable: the unfiltered query.  The last [return] spreads [baseItem] and
    does not mention [lastSupportedVersion]. *)
Definition resolve_fallback (baseItem : CartItem) : Settled CartItem :=
  settled_bind (fetch_versions reg (id baseItem) None) (fun fallbackResponse =>
    match fallbackResponse with
    | Ok versions =>
        Fulfilled (missing_item baseItem (getLatestSupportedVersion localeCompare versions))
    | NotOk =>
        Fulfilled (missing_item baseItem (lastSupportedVersion baseItem))
    end).

Definition resolveItem (item : CartItem) : Settled CartItem :=
  if paused item then Fulfilled item
  else if is_custom item then Fulfilled (custom_item item)
  else
    let projectInfo := fetchProjectInfoById reg (id item) in
    let baseItem := base_item projectInfo item in
    let loaderId := toLoaderId loader in
    settled_bind (fetch_versions reg (id item) (Some (target, loaderId))) (fun response =>
      match response with
      | Ok (first :: _) =>
          let fname := first_filename first in
          let deps := resolveDependencyTitles reg (version_dependencies first) in
          Fulfilled (resolvable_item baseItem target fname deps)
      | Ok [] | NotOk => resolve_fallback baseItem
      end).

(** The file [handleDownload] fetches for the same query:
    [files?.find((entry) => entry.primary) ?? files?.[0]]. *)
Definition download_file (first : VersionInfo) : option VersionFile :=
  match files first with
  | None => None
  | Some fs =>
      match List.find (fun entry => default false (primary entry)) fs with
      | Some f => Some f
      | None => head fs
      end
  end.

(** The value of [await runPool(list, limit, worker)] for a positive
    [limit]: the workers' results in input order, or a rejection when a
    worker call rejects ([Pool] has the runners; [runPool_agrees] relates
    the two). *)
Definition runPool {T} (l : list T) (limit : nat) (worker : T -> Settled T) : Settled (list T) :=
  settled_all (worker <$> l).
End Resolve.

(** *** [handleResolve]: one resolution pass with dependency expansion *)

(** The entry pushed for a dependency that is not in the list yet. *)
Definition new_dependency (target : string) (dep : DependencyItem) : CartItem :=
  {| id := dep_id dep; title := dep_title dep; source := source_modrinth;
     currentVersion := version_unknown; targetVersion := target;
     status := status_pending; statusTone := accent; paused := false;
     lastSupportedVersion := None;
     downloaded := Some false; filename := None; iconUrl := dep_iconUrl dep;
     dependencies := Some []; isDependency := Some true;
     isSelected := None; note := Some EmptyString;
     isCustom := Some false; customUrl := Some EmptyString |}.

(** [dependencyItems], [dependencyIds] and [dependencySelectionMap], the
    three accumulators of the [forEach] loops. *)
Record Expansion : Type := mkExpansion {
  dependencyItems : list CartItem;
  dependencyIds : gset string;
  dependencySelectionMap : gmap string bool
}.

Definition no_expansion : Expansion := mkExpansion [] ∅ ∅.

(** The body of [item.dependencies?.forEach((dep) => ...)]. *)
Definition visit_dependency (existingIds selected : gset string) (target : string)
    (item : CartItem) (acc : Expansion) (dep : DependencyItem) : Expansion :=
  if bool_decide (dep_id dep ∈ existingIds) || bool_decide (dep_id dep ∈ dependencyIds acc)
  then acc
  else
    let isCurrentSelected := bool_decide (id item ∈ selected) in
    let selection :=
      match dependencySelectionMap acc !! dep_id dep with
      | Some b => <[dep_id dep := b || isCurrentSelected]> (dependencySelectionMap acc)
      | None => <[dep_id dep := isCurrentSelected]> (dependencySelectionMap acc)
      end in
    {| dependencyItems := dependencyItems acc ++ [new_dependency target dep];
       dependencyIds := {[dep_id dep]} ∪ dependencyIds acc;
       dependencySelectionMap := selection |}.

Definition visit_item (existingIds selected : gset string) (target : string)
    (acc : Expansion) (item : CartItem) : Expansion :=
  foldl (visit_dependency existingIds selected target item) acc
        (default [] (dependencies item)).

(** [resolved.forEach((item) => ...)] *)
Definition collect_dependencies (existingIds selected : gset string) (target : string)
    (resolved : list CartItem) : Expansion :=
  foldl (visit_item existingIds selected target) no_expansion resolved.

(** [{ ...item, downloaded: false }] *)
Definition reset_downloaded (item : CartItem) : CartItem :=
  {| id := id item; title := title item; source := source item;
     currentVersion := currentVersion item; targetVersion := targetVersion item;
     status := status item; statusTone := statusTone item; paused := paused item;
     lastSupportedVersion := lastSupportedVersion item;
     downloaded := Some false; filename := filename item; iconUrl := iconUrl item;
     dependencies := dependencies item; isDependency := isDependency item;
     isSelected := isSelected item; note := note item;
     isCustom := isCustom item; customUrl := customUrl item |}.

(** The ids the [dependencySelectionMap.forEach] adds to the selection. *)
Definition selected_dependencies (m : gmap string bool) : gset string :=
  dom (filter (fun kv => kv.2 = true) m).

Definition ids (items : list CartItem) : list string := id <$> items.

Definition with_items (st : AppState) (items : list CartItem) : AppState :=
  {| cartItems := items; selectedMods := selectedMods st;
     st_targetVersion := st_targetVersion st; st_loader := st_loader st |}.

Definition with_selection (st : AppState) (sel : gset string) : AppState :=
  {| cartItems := cartItems st; selectedMods := sel;
     st_targetVersion := st_targetVersion st; st_loader := st_loader st |}.

(** How a call of [handleResolve] ends: the early return on an empty
    list, the [catch] (nothing is committed), or the state it commits. *)
Inductive Pass : Type :=
| NothingToResolve
| PassFailed
| Committed (st' : AppState).

(** What a call of [handleResolve] hands to the setters of the list and of
    the selection: nothing (the early return, the [catch]), the list, or
    the list and the selection. *)
Inductive Setters : Type :=
| NoSetter
| SetCartItems (resetItems : list CartItem)
| SetCartItemsAndSelectedMods (resetItems : list CartItem) (updatedSelectedMods : gset string).

Section Handlers.
Variable localeCompare : string -> string -> Z.
Variable reg : Registry.

Definition handleResolve (st : AppState) : Pass :=
  match cartItems st with
  | [] => NothingToResolve
  | _ :: _ =>
      let worker := resolveItem localeCompare reg (st_targetVersion st) (st_loader st) in
      match runPool (cartItems st) 10 worker with
      | Rejects => PassFailed
      | Fulfilled resolved =>
          let existingIds : gset string := list_to_set (ids (cartItems st)) in
          let expansion :=
            collect_dependencies existingIds (selectedMods st) (st_targetVersion st) resolved in
          match dependencyItems expansion with
          | _ :: _ =>
              match runPool (dependencyItems expansion) 10 worker with
              | Rejects => PassFailed
              | Fulfilled resolvedDeps =>
                  let resetItems := reset_downloaded <$> (resolved ++ resolvedDeps) in
                  let updatedSelectedMods :=
                    selectedMods st ∪ selected_dependencies (dependencySelectionMap expansion) in
                  Committed (with_selection (with_items st resetItems) updatedSelectedMods)
              end
          | [] =>
              let resetItems := reset_downloaded <$> resolved in
              Committed (with_items st resetItems)
          end
      end
  end.

(** The state after the call, when no other handler ran during it. *)
Definition after_resolve (st : AppState) : AppState :=
  match handleResolve st with
  | Committed st' => st'
  | NothingToResolve | PassFailed => st
  end.

(** The same call by the setters it ends with.  [handleResolve] reads
    [cartItems], [selectedMods], [targetVersion] and [loader] as they were
    when it was called, [earlier], and hands plain values to the setters:
    [setCartItems(resetItems)] in both branches,
    [setSelectedMods(updatedSelectedMods)] only when dependencies were
    added. *)
Definition resolve_setters (earlier : AppState) : Setters :=
  match cartItems earlier with
  | [] => NoSetter
  | _ :: _ =>
      let worker :=
        resolveItem localeCompare reg (st_targetVersion earlier) (st_loader earlier) in
      match runPool (cartItems earlier) 10 worker with
      | Rejects => NoSetter
      | Fulfilled resolved =>
          let existingIds : gset string := list_to_set (ids (cartItems earlier)) in
          let expansion :=
            collect_dependencies existingIds (selectedMods earlier)
              (st_targetVersion earlier) resolved in
          match dependencyItems expansion with
          | _ :: _ =>
              match runPool (dependencyItems expansion) 10 worker with
              | Rejects => NoSetter
              | Fulfilled resolvedDeps =>
                  SetCartItemsAndSelectedMods
                    (reset_downloaded <$> (resolved ++ resolvedDeps))
                    (selectedMods earlier
                       ∪ selected_dependencies (dependencySelectionMap expansion))
              end
          | [] => SetCartItems (reset_downloaded <$> resolved)
          end
      end
  end.
End Handlers.

(** The setters, on the state the page has when they are called. *)
Definition apply_setters (u : Setters) (st : AppState) : AppState :=
  match u with
  | NoSetter => st
  | SetCartItems resetItems => with_items st resetItems
  | SetCartItemsAndSelectedMods resetItems updatedSelectedMods =>
      with_selection (with_items st resetItems) updatedSelectedMods
  end.

(** *** The other handlers that change the list or the selection *)

Definition pending_item (pid ttl cur target : string) (icon : option string) : CartItem :=
  {| id := pid; title := ttl; source := source_modrinth;
     currentVersion := cur; targetVersion := target;
     status := status_pending; statusTone := accent; paused := false;
     lastSupportedVersion := None;
     downloaded := Some false; filename := None; iconUrl := icon;
     dependencies := Some []; isDependency := Some false;
     isSelected := None; note := Some EmptyString;
     isCustom := Some false; customUrl := Some EmptyString |}.

Definition in_list (pid : string) (items : list CartItem) : bool :=
  existsb (fun item => String.eqb (id item) pid) items.

(** [slug.charAt(0).toUpperCase() + slug.slice(1)], for a slug that starts
    with an ASCII character. *)
Definition capitalize (slug : string) : string :=
  match slug with
  | EmptyString => EmptyString
  | String c rest => String (upper_ascii c) rest
  end.

Definition truthy_or (d : string) (o : option string) : string :=
  match o with
  | Some s => if truthy s then s else d
  | None => d
  end.

(** [handleAddItem], from the slug [parseModrinthSlug] extracted, called
    on [earlier]: the test [cartItems.some(...)] and [targetVersion] are
    read there; [setCartItems((items) => [..., ...items])] acts on the
    state [st] the page has when the project page has answered. *)
Definition handleAddItem_settles (reg : Registry) (slug : string) (earlier st : AppState)
    : AppState :=
  if negb (truthy slug) then st
  else if in_list slug (cartItems earlier) then st
  else
    let projectInfo := fetchProjectInfoById reg slug in
    let ttl := truthy_or (capitalize slug) (info_title projectInfo) in
    let cur := truthy_or version_unknown (info_currentVersion projectInfo) in
    with_items st
      (pending_item slug ttl cur (st_targetVersion earlier) (info_iconUrl projectInfo)
       :: cartItems st).

(** The call when no other handler ran during it. *)
Definition handleAddItem (reg : Registry) (slug : string) (st : AppState) : AppState :=
  handleAddItem_settles reg slug st st.

(** [handleAddCustomItem]; [localId] is what [generateLocalId()] returned. *)
Definition handleAddCustomItem (localId : string) (st : AppState) : AppState :=
  with_items st
    ({| id := localId; title := "自訂模組"; source := source_custom;
        currentVersion := version_none; targetVersion := st_targetVersion st;
        status := status_custom; statusTone := accent; paused := false;
        lastSupportedVersion := None;
        downloaded := Some false; filename := None; iconUrl := None;
        dependencies := Some []; isDependency := Some false;
        isSelected := None; note := Some EmptyString;
        isCustom := Some true; customUrl := Some EmptyString |}
     :: cartItems st).

Record SearchHit : Type := mkSearchHit {
  hit_project_id : string;
  hit_title : string;
  slug : string;
  hit_icon_url : option string
}.

Definition handleSelectSearchResult (result : SearchHit) (st : AppState) : AppState :=
  if in_list (slug result) (cartItems st) then st
  else
    with_items st
      (pending_item (slug result) (hit_title result) version_unknown
         (st_targetVersion st) (hit_icon_url result)
       :: cartItems st).

Definition handleToggleSelection (pid : string) (st : AppState) : AppState :=
  with_selection st
    (if bool_decide (pid ∈ selectedMods st)
     then selectedMods st ∖ {[pid]}
     else {[pid]} ∪ selectedMods st).

Definition handleRemove (pid : string) (st : AppState) : AppState :=
  with_items st (List.filter (fun item => negb (String.eqb (id item) pid)) (cartItems st)).

Definition update_item (pid : string) (f : CartItem -> CartItem) (st : AppState) : AppState :=
  with_items st
    ((fun item => if String.eqb (id item) pid then f item else item) <$> cartItems st).

Definition toggle_pause (item : CartItem) : CartItem :=
  {| id := id item; title := title item; source := source item;
     currentVersion := currentVersion item; targetVersion := targetVersion item;
     status := if paused item then status_pending else status_paused;
     statusTone := accent; paused := negb (paused item);
     lastSupportedVersion := lastSupportedVersion item;
     downloaded := downloaded item; filename := filename item; iconUrl := iconUrl item;
     dependencies := dependencies item; isDependency := isDependency item;
     isSelected := isSelected item; note := note item;
     isCustom := isCustom item; customUrl := customUrl item |}.

Definition set_note (value : string) (item : CartItem) : CartItem :=
  {| id := id item; title := title item; source := source item;
     currentVersion := currentVersion item; targetVersion := targetVersion item;
     status := status item; statusTone := statusTone item; paused := paused item;
     lastSupportedVersion := lastSupportedVersion item;
     downloaded := downloaded item; filename := filename item; iconUrl := iconUrl item;
     dependencies := dependencies item; isDependency := isDependency item;
     isSelected := isSelected item; note := Some value;
     isCustom := isCustom item; customUrl := customUrl item |}.

Definition set_title (value : string) (item : CartItem) : CartItem :=
  {| id := id item; title := value; source := source item;
     currentVersion := currentVersion item; targetVersion := targetVersion item;
     status := status item; statusTone := statusTone item; paused := paused item;
     lastSupportedVersion := lastSupportedVersion item;
     downloaded := downloaded item; filename := filename item; iconUrl := iconUrl item;
     dependencies := dependencies item; isDependency := isDependency item;
     isSelected := isSelected item; note := note item;
     isCustom := isCustom item; customUrl := customUrl item |}.

Definition set_customUrl (value : string) (item : CartItem) : CartItem :=
  {| id := id item; title := title item; source := source item;
     currentVersion := currentVersion item; targetVersion := targetVersion item;
     status := status item; statusTone := statusTone item; paused := paused item;
     lastSupportedVersion := lastSupportedVersion item;
     downloaded := downloaded item; filename := filename item; iconUrl := iconUrl item;
     dependencies := dependencies item; isDependency := isDependency item;
     isSelected := isSelected item; note := note item;
     isCustom := isCustom item; customUrl := Some value |}.

Definition set_downloaded (item : CartItem) : CartItem :=
  {| id := id item; title := title item; source := source item;
     currentVersion := currentVersion item; targetVersion := targetVersion item;
     status := status item; statusTone := statusTone item; paused := paused item;
     lastSupportedVersion := lastSupportedVersion item;
     downloaded := Some true; filename := filename item; iconUrl := iconUrl item;
     dependencies := dependencies item; isDependency := isDependency item;
     isSelected := isSelected item; note := note item;
     isCustom := isCustom item; customUrl := customUrl item |}.

Definition handleTogglePause (pid : string) : AppState -> AppState :=
  update_item pid toggle_pause.
Definition handleNoteChange (pid value : string) : AppState -> AppState :=
  update_item pid (set_note value).
Definition handleCustomTitleChange (pid value : string) : AppState -> AppState :=
  update_item pid (set_title value).
Definition handleCustomUrlChange (pid value : string) : AppState -> AppState :=
  update_item pid (set_customUrl value).

(** The list update at the end of a successful [handleDownload]. *)
Definition mark_downloaded (pid : string) : AppState -> AppState :=
  update_item pid set_downloaded.

(** The names every object literal inherits from [Object.prototype]. *)
Definition inherited_names : list string :=
  ["constructor"; "__defineGetter__"; "__defineSetter__"; "hasOwnProperty";
   "__lookupGetter__"; "__lookupSetter__"; "isPrototypeOf"; "propertyIsEnumerable";
   "toString"; "valueOf"; "__proto__"; "toLocaleString"].

(** [loaderLabelMap[id] ?? id], when that is a string.  [loaderLabelMap] is
    an object literal with six keys of its own.  For a name it inherits,
    the lookup finds the inherited member (a function, or the prototype
    itself for [__proto__]) and [??] keeps it: there is no label, [None]. *)
Definition loader_label (loaderId : string) : option string :=
  if String.eqb loaderId "fabric" then Some "Fabric"
  else if String.eqb loaderId "forge" then Some "Forge"
  else if String.eqb loaderId "neoforge" then Some "NeoForge"
  else if String.eqb loaderId "quilt" then Some "Quilt"
  else if String.eqb loaderId "rift" then Some "Rift"
  else if String.eqb loaderId "asm" then Some "Asm"
  else if existsb (String.eqb loaderId) inherited_names then None
  else Some loaderId.

(** The body of a share-code lookup. *)
Record SharedList : Type := mkSharedList {
  shared_targetVersion : option string;
  shared_loader : option string;
  shared_items : option (list CartItem)
}.

Definition normalize_shared (item : CartItem) : CartItem :=
  {| id := id item; title := title item; source := source item;
     currentVersion := currentVersion item; targetVersion := targetVersion item;
     status := status item; statusTone := statusTone item; paused := paused item;
     lastSupportedVersion := lastSupportedVersion item;
     downloaded := downloaded item; filename := filename item; iconUrl := iconUrl item;
     dependencies := Some (default [] (dependencies item));
     isDependency := Some (default false (isDependency item));
     isSelected := Some (default false (isSelected item));
     note := Some (default EmptyString (note item));
     isCustom := Some (default false (isCustom item));
     customUrl := Some (default EmptyString (customUrl item)) |}.

(** The state [handleLoadByCode] sets once the lookup has answered; it
    reads nothing of the state it closed over, [st] is the state the
    setters act on.  [None]: the reply names a loader id without a label
    ([loader_label]); [setLoader] is then handed a member of
    [Object.prototype], and the loader state of the page is no longer the
    string [AppState] takes it to be. *)
Definition handleLoadByCode (response : Settled (Response SharedList)) (st : AppState)
    : option AppState :=
  match response with
  | Fulfilled (Ok data) =>
      match shared_items data with
      | Some ((_ :: _) as items) =>
          let normalized := normalize_shared <$> items in
          let selectedIds :=
            ids (List.filter (fun item => default false (isSelected item)) normalized) in
          let label :=
            match shared_loader data with
            | Some l => if truthy l then loader_label l else Some (st_loader st)
            | None => Some (st_loader st)
            end in
          match label with
          | Some label =>
              Some {| cartItems := normalized;
                      selectedMods := list_to_set selectedIds;
                      st_targetVersion :=
                        truthy_or (st_targetVersion st) (shared_targetVersion data);
                      st_loader := label |}
          | None => None
          end
      | Some [] | None => Some st
      end
  | Fulfilled NotOk | Rejects => Some st
  end.

Definition normalize_imported (item : CartItem) : CartItem :=
  {| id := id item; title := title item; source := source item;
     currentVersion := currentVersion item; targetVersion := targetVersion item;
     status := status item; statusTone := statusTone item; paused := paused item;
     lastSupportedVersion := lastSupportedVersion item;
     downloaded := Some (default false (downloaded item));
     filename := filename item; iconUrl := iconUrl item;
     dependencies := Some (default [] (dependencies item));
     isDependency := Some (default false (isDependency item));
     isSelected := None;
     note := Some (default EmptyString (note item));
     isCustom := Some (default false (isCustom item));
     customUrl := Some (default EmptyString (customUrl item)) |}.

(** [handleImportFile], on a file whose entries have the fields [CartItem]
    requires; [None] when the file does not parse. *)
Definition handleImportFile (parsed : option (list CartItem)) (st : AppState) : AppState :=
  match parsed with
  | Some items => with_items st (normalize_imported <$> items)
  | None => st
  end.

(** *** [handleDownloadSelected]: the exported list *)

(** [item.filename ?? `${item.title}(該版本缺失)`] *)
Definition export_name (item : CartItem) : string :=
  match filename item with
  | Some f => f
  | None => String.append (title item) version_missing_suffix
  end.

(** The array written to the downloaded JSON file; [None] when nothing is
    selected or the user declines the confirmation. *)
Definition handleDownloadSelected (confirmed : bool) (st : AppState) : option (list string) :=
  let selected :=
    List.filter (fun item => bool_decide (id item ∈ selectedMods st)) (cartItems st) in
  match selected with
  | [] => None
  | _ :: _ => if confirmed then Some (export_name <$> selected) else None
  end.

(** *** The handlers as steps on the list state

    [perform a st]: the state after handler [a], called on [st], when no
    other handler runs between the call and the setters.  That is every
    run of a handler that does not [await]; for [handleAddItem] and
    [handleResolve], which set the state after their requests have
    settled, it is the run without interleaving ([Page] below has the
    others).  [handleLoadByCode], [handleImportFile] and [handleDownload]
    await as well, but set the state from the reply alone, or by an
    updater function: for them [st] is the state at the setters.  A load
    whose loader id has no label is no step here. *)

Inductive Action : Type :=
| AddItem (reg : Registry) (slug : string)
| AddCustomItem (localId : string)
| SelectSearchResult (result : SearchHit)
| ToggleSelection (pid : string)
| Remove (pid : string)
| TogglePause (pid : string)
| NoteChange (pid value : string)
| CustomTitleChange (pid value : string)
| CustomUrlChange (pid value : string)
| MarkDownloaded (pid : string)
| Resolve (localeCompare : string -> string -> Z) (reg : Registry)
| LoadByCode (response : Settled (Response SharedList))
| ImportFile (parsed : option (list CartItem)).

Definition perform (a : Action) (st : AppState) : AppState :=
  match a with
  | AddItem reg slug => handleAddItem reg slug st
  | AddCustomItem localId => handleAddCustomItem localId st
  | SelectSearchResult result => handleSelectSearchResult result st
  | ToggleSelection pid => handleToggleSelection pid st
  | Remove pid => handleRemove pid st
  | TogglePause pid => handleTogglePause pid st
  | NoteChange pid value => handleNoteChange pid value st
  | CustomTitleChange pid value => handleCustomTitleChange pid value st
  | CustomUrlChange pid value => handleCustomUrlChange pid value st
  | MarkDownloaded pid => mark_downloaded pid st
  | Resolve localeCompare reg => after_resolve localeCompare reg st
  | LoadByCode response => default st (handleLoadByCode response st)
  | ImportFile parsed => handleImportFile parsed st
  end.

(** The page starts with an empty list and an empty selection. *)
Definition initial (target loader : string) : AppState :=
  {| cartItems := []; selectedMods := ∅;
     st_targetVersion := target; st_loader := loader |}.

(** What the page lets the user do in a state: the selection checkbox and
    the remove button exist only for entries in the list.  A load is a
    step of the model when the loader state stays a label. *)
Definition offered (a : Action) (st : AppState) : Prop :=
  match a with
  | ToggleSelection pid => pid ∈ ids (cartItems st)
  | Remove pid => pid ∈ ids (cartItems st)
  | LoadByCode response => is_Some (handleLoadByCode response st)
  | _ => True
  end.

(** Actions that cannot take a selected entry out of the list: everything
    but removing a selected entry and importing a file that lacks one. *)
Definition keeps_selected (a : Action) (st : AppState) : Prop :=
  match a with
  | Remove pid => pid ∉ selectedMods st
  | ImportFile (Some items) => forall x, x ∈ selectedMods st -> x ∈ ids items
  | _ => True
  end.

(** The selection set holds ids of present entries only. *)
Definition selection_present (st : AppState) : Prop :=
  forall x, x ∈ selectedMods st -> x ∈ ids (cartItems st).

(** *** The page with the handlers that wait

    While [handleAddItem] or [handleResolve] waits for its requests the
    page stays in use: only the button that started the pass is disabled
    ([disabled={isResolving}]); entries can be added, ticked, removed and
    edited meanwhile.  The waiting call keeps the state it closed over and
    sets the state when its requests have settled. *)

Inductive Waiting : Type :=
| AddingItem (reg : Registry) (slug : string) (earlier : AppState)
| Resolving (localeCompare : string -> string -> Z) (reg : Registry) (earlier : AppState).

Record Page : Type := mkPage {
  shown : AppState;          (* the state a handler called now closes over *)
  waiting : list Waiting     (* the calls whose requests have not settled *)
}.

(** The page as it is opened on the state [st]. *)
Definition opened (st : AppState) : Page := {| shown := st; waiting := [] |}.

Definition is_pass (h : Waiting) : bool :=
  match h with
  | Resolving _ _ _ => true
  | AddingItem _ _ _ => false
  end.

(** [isResolving]: set before the pass awaits, cleared in its [finally]. *)
Definition isResolving (p : Page) : bool := existsb is_pass (waiting p).

(** The setters of a waiting call, on the state the page has by then. *)
Definition settle (h : Waiting) (st : AppState) : AppState :=
  match h with
  | AddingItem reg slug earlier => handleAddItem_settles reg slug earlier st
  | Resolving localeCompare reg earlier =>
      apply_setters (resolve_setters localeCompare reg earlier) st
  end.

Definition waits (a : Action) : bool :=
  match a with
  | AddItem _ _ | Resolve _ _ => true
  | _ => false
  end.

Inductive Event : Type :=
| Handles (a : Action)                  (* a handler that does not wait *)
| ChoosesTargetVersion (value : string) (* [setTargetVersion(event.target.value)] *)
| ChoosesLoader (label : string)        (* [setLoader(item)] *)
| CallsAddItem (reg : Registry) (slug : string)
| CallsResolve (localeCompare : string -> string -> Z) (reg : Registry)
| Settles (i : nat).                    (* the requests of waiting call [i] have settled *)

Definition enabled (e : Event) (p : Page) : Prop :=
  match e with
  | Handles a => waits a = false /\ offered a (shown p)
  | CallsResolve _ _ => isResolving p = false
  | Settles i => is_Some (waiting p !! i)
  | ChoosesTargetVersion _ | ChoosesLoader _ | CallsAddItem _ _ => True
  end.

Definition after (e : Event) (p : Page) : Page :=
  match e with
  | Handles a => {| shown := perform a (shown p); waiting := waiting p |}
  | ChoosesTargetVersion value =>
      {| shown := {| cartItems := cartItems (shown p); selectedMods := selectedMods (shown p);
                     st_targetVersion := value; st_loader := st_loader (shown p) |};
         waiting := waiting p |}
  | ChoosesLoader label =>
      {| shown := {| cartItems := cartItems (shown p); selectedMods := selectedMods (shown p);
                     st_targetVersion := st_targetVersion (shown p); st_loader := label |};
         waiting := waiting p |}
  | CallsAddItem reg slug =>
      (* the two early returns come before the first [await] *)
      if negb (truthy slug) || in_list slug (cartItems (shown p)) then p
      else {| shown := shown p; waiting := waiting p ++ [AddingItem reg slug (shown p)] |}
  | CallsResolve localeCompare reg =>
      match cartItems (shown p) with
      | [] => p     (* the early return, before [setIsResolving(true)] *)
      | _ :: _ =>
          {| shown := shown p;
             waiting := waiting p ++ [Resolving localeCompare reg (shown p)] |}
      end
  | Settles i =>
      match waiting p !! i with
      | Some h => {| shown := settle h (shown p); waiting := delete i (waiting p) |}
      | None => p
      end
  end.

(** The pages a page can get to. *)
Inductive runs (p0 : Page) : Page -> Prop :=
| runs_start : runs p0 p0
| runs_step p e : runs p0 p -> enabled e p -> runs p0 (after e p).

(** Events that cannot take a selected entry out of the list.  A pass
    that added no dependency sets the list it was called on, resolved, and
    leaves the selection: it keeps the selected entries when none of them
    was added after the call. *)
Definition keeps (e : Event) (p : Page) : Prop :=
  match e with
  | Handles a => keeps_selected a (shown p)
  | Settles i =>
      match waiting p !! i with
      | Some (Resolving localeCompare reg earlier) =>
          match resolve_setters localeCompare reg earlier with
          | SetCartItems _ =>
              forall x, x ∈ selectedMods (shown p) -> x ∈ ids (cartItems earlier)
          | _ => True
          end
      | _ => True
      end
  | _ => True
  end.

Inductive runs_keeping (p0 : Page) : Page -> Prop :=
| keeping_start : runs_keeping p0 p0
| keeping_step p e :
    runs_keeping p0 p -> enabled e p -> keeps e p -> runs_keeping p0 (after e p).

End Cart.

(** ** Share codes

    Three versions of the [POST] handler of [/api/share-code] are in the
    sources: the one of [src/app/api/share-code/route.ts], which keeps the
    records in a JSON file ([FileRoute]), and two that go through
    [src/lib/db.ts] ([SqliteRoute], which overwrites the record of a
    resubmitted code, and [ReissueRoute], which issues another code
    instead). *)

Module Share.
Import Cart.

Record Body : Type := mkBody {
  code : option string;
  body_targetVersion : string;
  body_loader : string;
  items : list CartItem
}.

Record StoredPayload : Type := mkStoredPayload {
  stored_targetVersion : string;
  stored_loader : string;
  stored_items : list CartItem;
  contentHash : string;
  savedAt : string
}.

(** The object [computeHash] serialises. *)
Record Projection : Type := mkProjection {
  p_id : string;
  p_title : string;
  p_isDependency : option bool;
  p_isSelected : option bool;
  p_note : string;
  p_isCustom : bool;
  p_customUrl : string
}.

Record Normalized : Type := mkNormalized {
  n_targetVersion : string;
  n_loader : string;
  n_items : list Projection
}.

Definition project (item : CartItem) : Projection :=
  {| p_id := id item; p_title := title item;
     p_isDependency := isDependency item; p_isSelected := isSelected item;
     p_note := default EmptyString (note item);
     p_isCustom := default false (isCustom item);
     p_customUrl := default EmptyString (customUrl item) |}.

Inductive Reply : Type :=
| Issued (code : string) (updated : bool)   (* 200 [{ code, updated }] *)
| MissingPayload                            (* 400 *)
| FailedToGenerate                          (* 500 "Failed to generate unique code" *)
| FailedToSave.                             (* 500 "Failed to save" *)

Definition alphabet : string := "ABCDEFGHIJKLMNOPQRSTUVWXYZ0123456789".

(** [for (const byte of bytes) code += alphabet[byte % alphabet.length]] *)
Fixpoint generateCode (bytes : list nat) : string :=
  match bytes with
  | [] => EmptyString
  | byte :: rest =>
      match String.get (byte mod String.length alphabet) alphabet with
      | Some c => String c (generateCode rest)
      | None => generateCode rest
      end
  end.

(** The random source: [rand n i] is byte [i] of the [n]-th block drawn. *)
Definition randomBytes (rand : nat -> nat -> nat) (n size : nat) : list nat :=
  (fun i => rand n i mod 256) <$> seq 0 size.

Definition draw (rand : nat -> nat -> nat) (n : nat) : string :=
  generateCode (randomBytes rand n 8).

Section Routes.
(** [JSON.stringify] and the SHA-256 hex digest of the platform. *)
Variable stringify : Normalized -> string.
Variable sha256_hex : string -> string.

Definition computeHash (payload : Body) : string :=
  sha256_hex (stringify
    {| n_targetVersion := body_targetVersion payload;
       n_loader := body_loader payload;
       n_items := project <$> items payload |}).

Definition payload_of (body : Body) (hash now : string) : StoredPayload :=
  {| stored_targetVersion := body_targetVersion body;
     stored_loader := body_loader body;
     stored_items := items body;
     contentHash := hash;
     savedAt := now |}.

(** [!body.targetVersion || !body.loader] (a body of this type has its
    [items]). *)
Definition missing_payload (body : Body) : bool :=
  negb (truthy (body_targetVersion body)) || negb (truthy (body_loader body)).

(** [body.code?.toUpperCase()], when it is a non-empty string. *)
Definition requestedCode (body : Body) : option string :=
  match code body with
  | Some c => if truthy (toUpperCase c) then Some (toUpperCase c) else None
  | None => None
  end.
End Routes.

(** *** The JSON-file route ([route.ts])

    The store is the object parsed from the file, as the list of its own
    properties in enumeration order: array-index keys in ascending order,
    then the other keys in insertion order. *)
Module FileRoute.

Definition Store : Type := list (string * StoredPayload).

Fixpoint store_get (store : Store) (k : string) : option StoredPayload :=
  match store with
  | [] => None
  | (k', v) :: rest => if String.eqb k' k then Some v else store_get rest k
  end.

Definition digit (c : ascii) : option N :=
  let n := N_of_ascii c in
  if (48 <=? n)%N && (n <=? 57)%N then Some (n - 48)%N else None.

Fixpoint digits (acc : N) (s : string) : option N :=
  match s with
  | EmptyString => Some acc
  | String c s' =>
      match digit c with
      | Some d => digits (10 * acc + d)%N s'
      | None => None
      end
  end.

(** A canonical numeric string below [2^32 - 1]. *)
Definition array_index (k : string) : option N :=
  match k with
  | EmptyString => None
  | String c rest =>
      if Ascii.eqb c "0" && truthy rest then None
      else if Nat.ltb 10 (String.length k) then None
      else
        match digits 0 k with
        | Some n => if (n <? 4294967295)%N then Some n else None
        | None => None
        end
  end.

(** Where a new array-index key goes: before the first key that is not an
    array index or is a larger one. *)
Fixpoint insert_index (n : N) (k : string) (v : StoredPayload) (store : Store) : Store :=
  match store with
  | [] => [(k, v)]
  | (k', v') :: rest =>
      match array_index k' with
      | Some n' =>
          if (n' <? n)%N then (k', v') :: insert_index n k v rest
          else (k, v) :: store
      | None => (k, v) :: store
      end
  end.

Fixpoint replace (k : string) (v : StoredPayload) (store : Store) : Store :=
  match store with
  | [] => []
  | (k', v') :: rest =>
      if String.eqb k' k then (k, v) :: rest else (k', v') :: replace k v rest
  end.

(** [store[k] = v] *)
Definition store_set (k : string) (v : StoredPayload) (store : Store) : Store :=
  match store_get store k with
  | Some _ => replace k v store
  | None =>
      match array_index k with
      | Some n => insert_index n k v store
      | None => store ++ [(k, v)]
      end
  end.

(** [for (const [code, payload] of Object.entries(store))
       if (payload.contentHash === contentHash) return code] *)
Fixpoint find_by_hash (store : Store) (hash : string) : option string :=
  match store with
  | [] => None
  | (k, payload) :: rest =>
      if String.eqb (contentHash payload) hash then Some k else find_by_hash rest hash
  end.

(** [let code = generateCode(); while (store[code]) code = generateCode();]
    with [code] the current candidate and [n] the number of blocks drawn.
    There is no bound in the source: [None] is the loop still running when
    [fuel] iterations are spent. *)
Fixpoint fresh_code (fuel : nat) (store : Store) (rand : nat -> nat -> nat)
    (n : nat) (code : string) : option string :=
  match store_get store code with
  | None => Some code
  | Some _ =>
      match fuel with
      | 0 => None
      | S fuel' => fresh_code fuel' store rand (S n) (draw rand n)
      end
  end.

Section Post.
Variable stringify : Normalized -> string.
Variable sha256_hex : string -> string.

(** [POST]: the reply and the store as it is on file afterwards; [None]
    when the handler has not returned within [fuel] iterations of its
    [while] loop. *)
Definition POST (fuel : nat) (rand : nat -> nat -> nat) (now : string)
    (body : Body) (store : Store) : option (Reply * Store) :=
  if missing_payload body then Some (MissingPayload, store)
  else
    let hash := computeHash stringify sha256_hex body in
    let existing :=
      match requestedCode body with
      | Some c => match store_get store c with
                  | Some p => Some (c, p)
                  | None => None
                  end
      | None => None
      end in
    match existing with
    | Some (c, p) =>
        if String.eqb (contentHash p) hash then Some (Issued c false, store)
        else Some (Issued c true, store_set c (payload_of body hash now) store)
    | None =>
        match find_by_hash store hash with
        | Some c => Some (Issued c false, store)
        | None =>
            match fresh_code fuel store rand 1 (draw rand 0) with
            | Some c => Some (Issued c false, store_set c (payload_of body hash now) store)
            | None => None
            end
        end
    end.
End Post.
End FileRoute.

(** *** The table of [src/lib/db.ts]

    [share_codes] as the list of its rows in rowid order, [id] being the
    primary key.  [INSERT OR REPLACE] deletes the row with the same [id]
    and adds the new row at the end; [SELECT ... LIMIT 1] answers with the
    first row that matches (none of the properties proved of the routes
    depends on which matching row comes first).  [now] stands for the
    clock readings of one request. *)
Module Db.

Record Row : Type := mkRow {
  row_id : string;
  row_payload : StoredPayload;
  createdAt : string
}.

Definition Table : Type := list Row.

Definition getShareCode (db : Table) (code : string) : option StoredPayload :=
  row_payload <$> List.find (fun r => String.eqb (row_id r) (toUpperCase code)) db.

Definition saveShareCode (now : string) (code : string) (payload : StoredPayload)
    (db : Table) : Table :=
  List.filter (fun r => negb (String.eqb (row_id r) (toUpperCase code))) db
  ++ [{| row_id := toUpperCase code; row_payload := payload; createdAt := now |}].

(** [row?.id || null] *)
Definition findShareCodeByHash (db : Table) (hash : string) : option string :=
  match List.find (fun r => String.eqb (contentHash (row_payload r)) hash) db with
  | Some r => if truthy (row_id r) then Some (row_id r) else None
  | None => None
  end.

(** [while (getShareCode(code) && attempts < 100)
       { code = generateCode(); attempts++; }]
    with [budget = 100 - attempts]; returns the last [code] and
    [attempts]. *)
Fixpoint regenerate (budget : nat) (db : Table) (rand : nat -> nat -> nat)
    (code : string) (attempts : nat) : string * nat :=
  match budget with
  | 0 => (code, attempts)
  | S budget' =>
      match getShareCode db code with
      | Some _ => regenerate budget' db rand (draw rand (S attempts)) (S attempts)
      | None => (code, attempts)
      end
  end.

End Db.

(** *** The route that overwrites a resubmitted code *)
Module SqliteRoute.
Import Db.
Section Post.
Variable stringify : Normalized -> string.
Variable sha256_hex : string -> string.

Definition issue_fresh (rand : nat -> nat -> nat) (now : string) (body : Body)
    (hash : string) (updated : bool) (db : Table) : Reply * Table :=
  let '(code, attempts) := regenerate 100 db rand (draw rand 0) 0 in
  if Nat.leb 100 attempts then (FailedToGenerate, db)
  else (Issued code updated, saveShareCode now code (payload_of body hash now) db).

Definition POST (rand : nat -> nat -> nat) (now : string)
    (body : Body) (db : Table) : Reply * Table :=
  if missing_payload body then (MissingPayload, db)
  else
    let hash := computeHash stringify sha256_hex body in
    let existing :=
      match requestedCode body with
      | Some c => match getShareCode db c with
                  | Some p => Some (c, p)
                  | None => None
                  end
      | None => None
      end in
    match existing with
    | Some (c, p) =>
        if String.eqb (contentHash p) hash then (Issued c false, db)
        else (Issued c true, saveShareCode now c (payload_of body hash now) db)
    | None =>
        match findShareCodeByHash db hash with
        | Some c => (Issued c false, db)
        | None => issue_fresh rand now body hash false db
        end
    end.
End Post.
End SqliteRoute.

(** *** The route that issues another code when the content changed *)
Module ReissueRoute.
Import Db.
Section Post.
Variable stringify : Normalized -> string.
Variable sha256_hex : string -> string.

Definition POST (rand : nat -> nat -> nat) (now : string)
    (body : Body) (db : Table) : Reply * Table :=
  if missing_payload body then (MissingPayload, db)
  else
    let hash := computeHash stringify sha256_hex body in
    let unchanged :=
      match requestedCode body with
      | Some c => match getShareCode db c with
                  | Some p => if String.eqb (contentHash p) hash then Some c else None
                  | None => None
                  end
      | None => None
      end in
    match unchanged with
    | Some c => (Issued c false, db)
    | None =>
        match findShareCodeByHash db hash with
        | Some c => (Issued c false, db)
        | None =>
            SqliteRoute.issue_fresh rand now body hash
              (match requestedCode body with Some _ => true | None => false end) db
        end
    end.
End Post.
End ReissueRoute.

End Share.

(** ** Invariants used in the proofs *)

Module PoolInv.
Import Pool.
Section Inv.
Context {T : Type}.
Variable worker : T -> Settled T.
Variable items : list T.

(** What holds of every state of a run over [items], [k] being the number
    of items claimed so far. *)
Record inv_at (k : nat) (s : State) : Prop := mkInv {
  inv_le : k <= length items;
  inv_queue : queue s = drop k (indexed items);
  inv_calls : calls s = seq 0 k;
  inv_len : length (results s) = length items;
  inv_await : forall j v i,
    runners s !! j = Some (Awaiting (v, i)) -> i < k /\ items !! i = Some v;
  inv_done : forall i v,
    i < k -> items !! i = Some v ->
    (exists j, runners s !! j = Some (Awaiting (v, i))) \/
    match worker v with
    | Fulfilled r => results s !! i = Some (Some r)
    | Rejects => exists j, runners s !! j = Some Threw
    end;
  inv_returned : forall j, runners s !! j = Some Returned -> queue s = [];
  inv_threw : forall j,
    runners s !! j = Some Threw -> exists v, v ∈ items /\ worker v = Rejects
}.

Definition invariant (s : State) : Prop := exists k, inv_at k s.
End Inv.
End PoolInv.


(** ** Concrete lists and registries *)

Module Scenario.
Import Cart.

(** A collation for the examples. *)
Definition byte_order (a b : string) : Z :=
  match String.compare a b with
  | Lt => (-1)%Z
  | Eq => 0%Z
  | Gt => 1%Z
  end.

Definition required (pid : string) : VersionDependency :=
  {| project_id := Some pid; dependency_type := Some "required" |}.

Definition build (vid : string) (gv : string) (fs : list VersionFile)
    (deps : list VersionDependency) : VersionInfo :=
  {| version_id := vid; game_versions := Some [gv]; date_published := Some "2024-01-01";
     files := Some fs; version_dependencies := Some deps |}.

(** A registry that knows no project page and answers the filtered and
    the unfiltered version query from two tables. *)
Definition registry_of (filtered unfiltered : string -> Response (list VersionInfo)) : Registry :=
  {| fetch_project := fun _ => Fulfilled NotOk;
     fetch_versions := fun pid q =>
       match q with
       | Some _ => Fulfilled (filtered pid)
       | None => Fulfilled (unfiltered pid)
       end |}.

(** A build whose primary file is listed second. *)
Definition sodium_build : VersionInfo :=
  build "v1" "1.20.1"
    [ {| url := "https://cdn/sodium-sources.jar"; primary := Some false;
         file_filename := Some "sodium-sources.jar" |};
      {| url := "https://cdn/sodium.jar"; primary := Some true;
         file_filename := Some "sodium.jar" |} ] [].

Definition sodium_registry : Registry :=
  registry_of (fun _ => Ok [sodium_build]) (fun _ => NotOk).

Definition sodium : CartItem := pending_item "sodium" "Sodium" version_unknown "1.20.1" None.

(** An entry that was missing in an earlier pass. *)
Definition oldmod : CartItem :=
  missing_item (pending_item "oldmod" "OldMod" version_unknown "1.21.1" None) (Some "1.16.5").

Definition unreachable_registry : Registry :=
  registry_of (fun _ => NotOk) (fun _ => NotOk).
Definition no_match_registry : Registry :=
  registry_of (fun _ => Ok []) (fun _ => NotOk).

(** The relay cannot be reached: every [fetch] rejects. *)
Definition offline_registry : Registry :=
  {| fetch_project := fun _ => Rejects; fetch_versions := fun _ _ => Rejects |}.

(** The filtered query finds nothing and the [fetch] of the unfiltered
    query rejects. *)
Definition fallback_offline_registry : Registry :=
  {| fetch_project := fun _ => Fulfilled NotOk;
     fetch_versions := fun _ q =>
       match q with
       | Some _ => Fulfilled (Ok [])
       | None => Rejects
       end |}.

(** Two parents that require the same library. *)
Definition parents_registry : Registry :=
  registry_of
    (fun pid =>
       if String.eqb pid "fabric-api"
       then Ok [build "v3" "1.20.1"
                  [{| url := "u"; primary := Some true; file_filename := Some "fabric-api.jar" |}] []]
       else Ok [build "v2" "1.20.1"
                  [{| url := "u"; primary := Some true;
                      file_filename := Some (String.append pid ".jar") |}]
                  [required "fabric-api"]])
    (fun _ => NotOk).

Definition lithium : CartItem := pending_item "lithium" "Lithium" version_unknown "1.20.1" None.

(** [lithium] is listed first and not selected; [sodium] is selected. *)
Definition two_parents : AppState :=
  {| cartItems := [lithium; sodium]; selectedMods := {["sodium"]};
     st_targetVersion := "1.20.1"; st_loader := "Fabric" |}.

Definition sodium_hit : SearchHit :=
  {| hit_project_id := "AANobbMI"; hit_title := "Sodium"; slug := "sodium";
     hit_icon_url := None |}.

(** The list after picking a search result, ticking its checkbox and
    removing it. *)
Definition picked : AppState :=
  perform (SelectSearchResult sodium_hit) (initial "1.21.1" "Fabric").
Definition ticked : AppState := perform (ToggleSelection "sodium") picked.
Definition removed : AppState := perform (Remove "sodium") ticked.

(** The list after ticking [sodium] and importing a file that holds
    [lithium] only. *)
Definition imported : AppState := perform (ImportFile (Some [lithium])) ticked.

(** A pass is started on the list [sodium]; while it waits, a custom entry
    is added and ticked; then the pass sets its list. *)
Definition pass_started : Page :=
  after (CallsResolve byte_order sodium_registry) (opened picked).
Definition added_meanwhile : Page :=
  after (Handles (ToggleSelection "custom-1"))
    (after (Handles (AddCustomItem "custom-1")) pass_started).
Definition pass_settled : Page := after (Settles 0) added_meanwhile.

(** A paused entry that was downloaded before. *)
Definition paused_downloaded : AppState :=
  {| cartItems := [set_downloaded (toggle_pause sodium)]; selectedMods := ∅;
     st_targetVersion := "1.20.1"; st_loader := "Fabric" |}.

(** Scenario C of the specification: two selected entries, one resolved
    with a filename, one missing. *)
Definition export_scenario : AppState :=
  {| cartItems :=
       [resolvable_item sodium "1.20.1" (Some "sodium-0.5.jar") []; oldmod;
        lithium];
     selectedMods := {["sodium"; "oldmod"]};
     st_targetVersion := "1.20.1"; st_loader := "Fabric" |}.

End Scenario.

(** ** The export, entry by entry

    One string per selected entry, in list order: the filename when there
    is one, else the title followed by [suffix]. *)
Fixpoint placeholder_list (suffix : string) (sel : gset string) (entries : list Cart.CartItem)
    : list string :=
  match entries with
  | [] => []
  | e :: rest =>
      if bool_decide (Cart.id e ∈ sel)
      then match Cart.filename e with
           | Some f => f
           | None => String.append (Cart.title e) suffix
           end :: placeholder_list suffix sel rest
      else placeholder_list suffix sel rest
  end.

(** The export in the words of the specification: the placeholder is the
    title followed by "(version missing)". *)
Definition exported_list_spec : gset string -> list Cart.CartItem -> list string :=
  placeholder_list "(version missing)".

(** The export with the placeholder the page writes. *)
Definition exported_list_page : gset string -> list Cart.CartItem -> list string :=
  placeholder_list "(該版本缺失)".

(** ** The dependencies declared in a resolved batch, parent by parent *)
Definition declared (resolved : list Cart.CartItem) : list (Cart.CartItem * Cart.DependencyItem) :=
  resolved ≫= fun item => (fun dep => (item, dep)) <$> default [] (Cart.dependencies item).

Module Expanding.
Import Cart.
Section Expanding.
Variables existingIds selected : gset string.
Variable target : string.

(** One turn of the inner loop, on a declaration. *)
Definition visit (acc : Expansion) (p : CartItem * DependencyItem) : Expansion :=
  visit_dependency existingIds selected target p.1 acc p.2.


(** What the loops have built after the declarations [ps]. *)
Record expanded (ps : list (CartItem * DependencyItem)) (acc : Expansion) : Prop := mkExpanded {
  exp_ids : forall x, x ∈ dependencyIds acc <-> x ∈ ids (dependencyItems acc);
  exp_map : forall x, is_Some (dependencySelectionMap acc !! x) <-> x ∈ dependencyIds acc;
  exp_nodup : NoDup (ids (dependencyItems acc));
  exp_new : forall x, x ∈ dependencyIds acc <->
              (x ∉ existingIds) /\ exists p, p ∈ ps /\ dep_id p.2 = x;
  exp_fresh : forall e, e ∈ dependencyItems acc ->
              isDependency e = Some true /\ status e = status_pending
}.

End Expanding.
End Expanding.

(** ** Concrete share-code requests and stores *)

Module Sample.
Import Cart Share.

(** Stand-ins for [JSON.stringify] and the SHA-256 digest in the examples:
    a readable serialisation and the identity.  Like the real pair they
    give different hashes to the contents compared below. *)
Definition sample_stringify (n : Normalized) : string :=
  String.concat "|"
    (n_targetVersion n :: n_loader n ::
     ((fun p => String.append (p_id p) (String.append ":" (p_title p))) <$> n_items n)).

Definition sample_digest (s : string) : string := s.

Definition sample_hash : Body -> string := computeHash sample_stringify sample_digest.

(** A random source that always draws the same block: every generated
    code is "AAAAAAAA". *)
Definition stuck_source (n i : nat) : nat := 0.

Definition first_list : Body :=
  {| code := None; body_targetVersion := "1.20.1"; body_loader := "fabric";
     items := [Scenario.sodium] |}.

(** A list with one more entry, submitted without a code. *)
Definition second_list : Body :=
  {| code := None; body_targetVersion := "1.20.1"; body_loader := "fabric";
     items := [Scenario.sodium; Scenario.lithium] |}.

(** The same content, resubmitted under the code "ABCD1234". *)
Definition edited_list : Body :=
  {| code := Some "ABCD1234"; body_targetVersion := "1.20.1"; body_loader := "fabric";
     items := [Scenario.sodium; Scenario.lithium] |}.

Definition first_payload : StoredPayload :=
  payload_of first_list (sample_hash first_list) "2024-01-01T00:00:00.000Z".

(** A table and a file store holding the first list under "ABCD1234". *)
Definition shared_table : Db.Table :=
  [ {| Db.row_id := "ABCD1234"; Db.row_payload := first_payload;
       Db.createdAt := "2024-01-01T00:00:00.000Z" |} ].

Definition shared_store : FileRoute.Store := [("ABCD1234", first_payload)].

(** A table and a file store in which the code "AAAAAAAA" is taken. *)
Definition taken_table : Db.Table :=
  [ {| Db.row_id := "AAAAAAAA"; Db.row_payload := first_payload;
       Db.createdAt := "2024-01-01T00:00:00.000Z" |} ].

Definition taken_store : FileRoute.Store := [("AAAAAAAA", first_payload)].

Definition later : string := "2024-02-02T00:00:00.000Z".

End Sample.

(** ** Tables written by the routes

    Every row the routes save has a non-empty [id]. *)
Definition ids_nonempty (db : Share.Db.Table) : Prop :=
  Forall (fun r => truthy (Share.Db.row_id r) = true) db.

(** The symbols of a string. *)
Fixpoint symbols (s : string) : list ascii :=
  match s with
  | EmptyString => []
  | String c s' => c :: symbols s'
  end.


(** ** More of the page: counters, the single download, sharing

    The rest of [src/app/page.tsx] that works on the list: the counters
    shown above it, [handleDownload], and the client side of the share
    codes ([computeContentHash], [handleGenerateCode],
    [executeGenerateCode] and the share state [handleLoadByCode] sets). *)

Module Views.
Import Cart.

Record Stats : Type := mkStats {
  stat_success : nat;
  stat_warning : nat;
  stat_danger : nat
}.

(** The body of [cartItems.forEach((item) => ...)] in [stats]. *)
Definition count_tone (result : Stats) (item : CartItem) : Stats :=
  if paused item then result
  else
    match statusTone item with
    | success =>
        {| stat_success := S (stat_success result); stat_warning := stat_warning result;
           stat_danger := stat_danger result |}
    | warning =>
        {| stat_success := stat_success result; stat_warning := S (stat_warning result);
           stat_danger := stat_danger result |}
    | danger =>
        {| stat_success := stat_success result; stat_warning := stat_warning result;
           stat_danger := S (stat_danger result) |}
    | accent => result
    end.

Definition stats (items : list CartItem) : Stats :=
  foldl count_tone (mkStats 0 0 0) items.

Definition resolvedCount (items : list CartItem) : nat :=
  length (List.filter
    (fun item => negb (paused item) && negb (String.eqb (status item) status_pending)
                 && negb (String.eqb (status item) status_paused)) items).

Definition visibleItems (showActiveOnly : bool) (items : list CartItem) : list CartItem :=
  if showActiveOnly then List.filter (fun item => negb (paused item)) items else items.

Definition activeCount (items : list CartItem) : nat :=
  length (List.filter (fun item => negb (paused item)) items).

End Views.

Module Download.
Import Cart.

(** How a call of [handleDownload] ends; each refusal is one of the
    notices of the source. *)
Inductive Outcome : Type :=
| RefusedPaused          (* not resolvable, not downloaded, paused *)
| RefusedMissing         (* status "缺失" *)
| RefusedStatus          (* any other status *)
| RefusedPausedEntry     (* resolvable or downloaded before, but paused *)
| Declined               (* [window.confirm] answered no *)
| Threw                  (* the [catch] *)
| ApiFailed              (* [!response.ok] *)
| NoVersions             (* [!versions.length] *)
| NoLink                 (* [!file?.url] *)
| Started (file : VersionFile).

(** [handleDownload(item)]: the outcome and the list state afterwards. *)
Definition handleDownload (reg : Registry) (confirmed : bool) (item : CartItem)
    (st : AppState) : Outcome * AppState :=
  if negb (String.eqb (status item) status_resolvable) && negb (default false (downloaded item))
  then
    (if paused item then RefusedPaused
     else if String.eqb (status item) status_missing then RefusedMissing
     else RefusedStatus, st)
  else if paused item then (RefusedPausedEntry, st)
  else if negb confirmed then (Declined, st)
  else
    match fetch_versions reg (id item) (Some (st_targetVersion st, toLoaderId (st_loader st))) with
    | Rejects => (Threw, st)
    | Fulfilled NotOk => (ApiFailed, st)
    | Fulfilled (Ok []) => (NoVersions, st)
    | Fulfilled (Ok (first :: _)) =>
        match download_file first with
        | Some file =>
            if truthy (url file) then (Started file, mark_downloaded (id item) st)
            else (NoLink, st)
        | None => (NoLink, st)
        end
    end.

End Download.

Module ShareClient.
Import Cart Share.

(** [currentShareCode] and [currentShareCodeHash]; [None] is [null]. *)
Record ShareState : Type := mkShareState {
  currentShareCode : option string;
  currentShareCodeHash : option string
}.

(** The entry [executeGenerateCode] sends: the fields it lists, with the
    selection read from [selectedMods] ([downloaded] is not sent). *)
Definition shared_item (selectedMods : gset string) (item : CartItem) : CartItem :=
  {| id := id item; title := title item; source := source item;
     currentVersion := currentVersion item; targetVersion := targetVersion item;
     status := status item; statusTone := statusTone item; paused := paused item;
     lastSupportedVersion := lastSupportedVersion item;
     downloaded := None; filename := filename item; iconUrl := iconUrl item;
     dependencies := dependencies item; isDependency := isDependency item;
     isSelected := Some (bool_decide (id item ∈ selectedMods));
     note := Some (default EmptyString (note item));
     isCustom := Some (default false (isCustom item));
     customUrl := Some (default EmptyString (customUrl item)) |}.

(** The request body of [executeGenerateCode]. *)
Definition share_body (st : AppState) (sh : ShareState) : Body :=
  {| code := currentShareCode sh;
     body_targetVersion := st_targetVersion st;
     body_loader := toLoaderId (st_loader st);
     items := shared_item (selectedMods st) <$> cartItems st |}.

(** The body of a successful lookup, as [handleLoadByCode] reads it. *)
Definition shared_list (payload : StoredPayload) : SharedList :=
  {| shared_targetVersion := Some (stored_targetVersion payload);
     shared_loader := Some (stored_loader payload);
     shared_items := Some (stored_items payload) |}.

(** How a call of [executeGenerateCode] ends. *)
Inductive Shared : Type :=
| NoChange                                    (* "無異動": no request is sent *)
| Published (code : string) (updated : bool)
| NotPublished.

Section Client.
(** The page serialises with the same [JSON.stringify], with the keys in
    the same order as the routes, and hashes with SHA-256 to lower-case
    hex as they do. *)
Variable stringify : Normalized -> string.
Variable sha256_hex : string -> string.

Definition computeContentHash (targetVersion loader : string) (items : list CartItem)
    (selectedMods : gset string) : string :=
  sha256_hex (stringify
    {| n_targetVersion := targetVersion;
       n_loader := loader;
       n_items :=
         (fun item =>
            {| p_id := id item; p_title := title item;
               p_isDependency := isDependency item;
               p_isSelected := Some (bool_decide (id item ∈ selectedMods));
               p_note := default EmptyString (note item);
               p_isCustom := default false (isCustom item);
               p_customUrl := default EmptyString (customUrl item) |}) <$> items |}).

(** [post] is the share-code route as the page sees it: the reply to a
    body, or a rejected [fetch]. *)
Definition executeGenerateCode (post : Body -> Settled Reply) (st : AppState)
    (sh : ShareState) : Shared * ShareState :=
  let loaderId := toLoaderId (st_loader st) in
  let currentHash :=
    computeContentHash (st_targetVersion st) loaderId (cartItems st) (selectedMods st) in
  if match currentShareCode sh with Some c => truthy c | None => false end
     && bool_decide (currentShareCodeHash sh = Some currentHash)
  then (NoChange, sh)
  else
    match post (share_body st sh) with
    | Fulfilled (Issued c updated) =>
        if truthy c
        then (Published c updated,
              {| currentShareCode := Some c; currentShareCodeHash := Some currentHash |})
        else (NotPublished, sh)
    | Fulfilled MissingPayload | Fulfilled FailedToGenerate | Fulfilled FailedToSave
    | Rejects => (NotPublished, sh)
    end.

(** [handleGenerateCode]: nothing happens on an empty list or when the
    user declines. *)
Definition handleGenerateCode (confirmed : bool) (post : Body -> Settled Reply)
    (st : AppState) (sh : ShareState) : option (Shared * ShareState) :=
  match cartItems st with
  | [] => None
  | _ :: _ => if confirmed then Some (executeGenerateCode post st sh) else None
  end.

(** The share state [handleLoadByCode(code)] sets, beside the list state
    of [Cart.handleLoadByCode]. *)
Definition load_share_state (code : string) (response : Settled (Response SharedList))
    (st : AppState) (sh : ShareState) : ShareState :=
  match response with
  | Fulfilled (Ok data) =>
      match shared_items data with
      | Some ((_ :: _) as items) =>
          let normalized := normalize_shared <$> items in
          let selectedIds :=
            ids (List.filter (fun item => default false (isSelected item)) normalized) in
          let loaderId :=
            match shared_loader data with
            | Some l => if truthy l then l else toLoaderId (st_loader st)
            | None => toLoaderId (st_loader st)
            end in
          {| currentShareCode := Some (toUpperCase code);
             currentShareCodeHash :=
               Some (computeContentHash
                       (truthy_or (st_targetVersion st) (shared_targetVersion data))
                       loaderId normalized (list_to_set selectedIds)) |}
      | Some [] | None => sh
      end
  | Fulfilled NotOk | Rejects => sh
  end.

End Client.
End ShareClient.

(** ** Share codes: lookup and clean-up *)

Module Lookup.
Import Share.

(** The reply of [GET /api/share-code]. *)
Inductive Answer : Type :=
| Found (payload : StoredPayload)   (* 200 *)
| MissingCode                       (* 400 "Missing code" *)
| NotFound.                         (* 404 "Not found" *)

(** [searchParams.get("code")?.toUpperCase()], when it is not empty. *)
Definition code_param (code : option string) : option string :=
  match code with
  | Some c => if truthy (toUpperCase c) then Some (toUpperCase c) else None
  | None => None
  end.

(** [GET] of [route.ts]. *)
Definition file_GET (code : option string) (store : FileRoute.Store) : Answer :=
  match code_param code with
  | None => MissingCode
  | Some c =>
      match FileRoute.store_get store c with
      | Some payload => Found payload
      | None => NotFound
      end
  end.

(** [GET] of the two routes over [src/lib/db.ts]. *)
Definition table_GET (code : option string) (db : Db.Table) : Answer :=
  match code_param code with
  | None => MissingCode
  | Some c =>
      match Db.getShareCode db c with
      | Some payload => Found payload
      | None => NotFound
      end
  end.

(** [deleteOldShareCodes]: [DELETE FROM share_codes WHERE createdAt < ?],
    the texts compared byte by byte; [cutoff] is the ISO text of the
    cut-off date.  Returns [result.changes] and the table. *)
Definition deleteOldShareCodes (cutoff : string) (db : Db.Table) : nat * Db.Table :=
  (length (List.filter (fun r => String.ltb (Db.createdAt r) cutoff) db),
   List.filter (fun r => negb (String.ltb (Db.createdAt r) cutoff)) db).

(** A code as the routes write it: fixed by [toUpperCase] and not
    empty. *)
Definition written (c : string) : Prop := toUpperCase c = c /\ truthy c = true.

(** A table as SQLite keeps it and the routes fill it: [id] is the
    primary key, and every [id] was written by [saveShareCode]. *)
Record well_formed (db : Db.Table) : Prop := mkWellFormed {
  wf_unique : NoDup (Db.row_id <$> db);
  wf_codes : Forall (fun r => written (Db.row_id r)) db
}.

(** The JSON object of [route.ts], likewise: an object has each key once,
    and the route writes under codes. *)
Record store_well_formed (store : FileRoute.Store) : Prop := mkStoreWellFormed {
  sw_unique : NoDup store.*1;
  sw_codes : Forall (fun kp => written kp.1) store
}.

End Lookup.

(** ** The registry relay ([/api/modrinth])

    The route keeps an in-memory cache of the registry's answers.  [Data]
    is a parsed JSON value and [data_truthy] its truthiness
    ([if (cachedData)]); the registry is a function of the address
    requested.  The two readings of the clock in one request are [now]
    (the lookup) and [later] (the store). *)

Module Relay.

Definition CACHE_TTL : Z := 5 * 60 * 1000.
Definition LONG_TTL : Z := 60 * 60 * 1000.

(** [value || "all"] *)
Definition or_all (value : string) : string := if truthy value then value else "all".

Definition generateCacheKey (type query projectId gameVersion loader : string) : string :=
  if String.eqb type "game_versions" then type
  else if String.eqb type "loaders" then type
  else if String.eqb type "search" then String.append "search:" query
  else if String.eqb type "project" then String.append "project:" projectId
  else if String.eqb type "versions" then
    String.append "versions:"
      (String.append projectId
         (String.append ":" (String.append (or_all gameVersion)
            (String.append ":" (or_all loader)))))
  else EmptyString.

(** The query parameters; [None] is the [null] of [searchParams.get]. *)
Record Request : Type := mkRequest {
  rq_type : option string;
  rq_projectId : option string;
  rq_gameVersion : option string;
  rq_loader : option string;
  rq_q : option string
}.

(** The registry address a request is relayed to, by its parts. *)
Inductive Url : Type :=
| TagGameVersion                       (* /tag/game_version *)
| TagLoader                            (* /tag/loader *)
| Search (query : string) (limit : nat) (* /search?query=..&limit=..&index=relevance *)
| Project (projectId : string)         (* /project/{id} *)
| Versions (projectId : string) (game_versions loaders : option string).

(** [if (value) params.set(...)] *)
Definition param (value : option string) : option string :=
  match value with
  | Some v => if truthy v then Some v else None
  | None => None
  end.

Definition buildVersionsUrl (projectId : string) (gameVersion loader : option string) : Url :=
  Versions projectId (param gameVersion) (param loader).

Definition buildSearchUrl (query : string) : Url := Search query 20.

(** The address, or the error of the 400 reply. *)
Definition relayed (rq : Request) : Url + string :=
  match rq_type rq with
  | Some type =>
      if String.eqb type "game_versions" then inl TagGameVersion
      else if String.eqb type "loaders" then inl TagLoader
      else if String.eqb type "search" then
        match param (rq_q rq) with
        | Some q => inl (buildSearchUrl q)
        | None => inr "Invalid type."
        end
      else if String.eqb type "project" then
        match param (rq_projectId rq) with
        | Some projectId => inl (Project projectId)
        | None => inr "Missing projectId"
        end
      else if String.eqb type "versions" then
        match param (rq_projectId rq) with
        | Some projectId => inl (buildVersionsUrl projectId (rq_gameVersion rq) (rq_loader rq))
        | None => inr "Missing projectId"
        end
      else inr "Invalid type."
  | None => inr "Invalid type."
  end.

(** [type === "game_versions" || type === "loaders"] *)
Definition isLongCacheable (rq : Request) : bool :=
  match rq_type rq with
  | Some type => String.eqb type "game_versions" || String.eqb type "loaders"
  | None => false
  end.

Definition cacheKey (rq : Request) : string :=
  generateCacheKey (default EmptyString (rq_type rq)) (default EmptyString (rq_q rq))
    (default EmptyString (rq_projectId rq)) (default EmptyString (rq_gameVersion rq))
    (default EmptyString (rq_loader rq)).

Section Relay.
Variable Data : Type.
Variable data_truthy : Data -> bool.

Record Entry : Type := mkEntry {
  data : Data;
  timestamp : Z
}.

Definition Cache : Type := gmap string Entry.

(** The registry's answer: status and parsed body. *)
Record Upstream : Type := mkUpstream {
  up_status : nat;
  up_body : Data
}.

(** [upstream.ok] *)
Definition ok (upstream : Upstream) : bool :=
  Nat.leb 200 (up_status upstream) && Nat.leb (up_status upstream) 299.

Inductive Reply : Type :=
| Json (status : nat) (body : Data) (hit : bool)  (* [X-Cache]: HIT or MISS *)
| Failure (status : nat) (error : string).

Definition getCachedData (key : string) (now : Z) (cache : Cache) : option Data * Cache :=
  match cache !! key with
  | Some cached =>
      if (now - timestamp cached <? CACHE_TTL)%Z then (Some (data cached), cache)
      else (None, delete key cache)
  | None => (None, cache)
  end.

Definition getCachedDataLong (key : string) (now : Z) (cache : Cache) : option Data * Cache :=
  match cache !! key with
  | Some cached =>
      if (now - timestamp cached <? LONG_TTL)%Z then (Some (data cached), cache)
      else (None, delete key cache)
  | None => (None, cache)
  end.

Definition setCachedData (key : string) (value : Data) (now : Z) (cache : Cache) : Cache :=
  <[key := {| data := value; timestamp := now |}]> cache.

(** [GET]; a rejected [fetch] or an unparsable body is [Rejects]. *)
Definition GET (upstream : Url -> Settled Upstream) (now later : Z) (rq : Request)
    (cache : Cache) : Reply * Cache :=
  let key := cacheKey rq in
  let '(cachedData, cache1) :=
    if isLongCacheable rq then getCachedDataLong key now cache
    else getCachedData key now cache in
  let relay :=
    match relayed rq with
    | inr error => (Failure 400 error, cache1)
    | inl url =>
        match upstream url with
        | Fulfilled answer =>
            (Json (up_status answer) (up_body answer) false,
             if ok answer then setCachedData key (up_body answer) later cache1 else cache1)
        | Rejects => (Failure 502 "Upstream request failed.", cache1)
        end
    end in
  match cachedData with
  | Some value => if data_truthy value then (Json 200 value true, cache1) else relay
  | None => relay
  end.

(** How long an answer to [rq] is served from the cache. *)
Definition ttl (rq : Request) : Z := if isLongCacheable rq then LONG_TTL else CACHE_TTL.

End Relay.
End Relay.

(** ** More concrete data *)

Module More.
Import Cart Share.

(** A list state with one selected entry, and the record the routes keep
    for it. *)
Definition shared_state : AppState :=
  {| cartItems := [Scenario.sodium; Scenario.lithium]; selectedMods := {["sodium"]};
     st_targetVersion := "1.20.1"; st_loader := "Fabric" |}.

Definition not_shared : ShareClient.ShareState :=
  {| ShareClient.currentShareCode := None; ShareClient.currentShareCodeHash := None |}.

(** A random source whose first block gives "AAAAAAAA" and whose later
    blocks give "BBBBBBBB". *)
Definition second_source (n i : nat) : nat := if Nat.eqb n 0 then 0 else 1.

(** A registry whose filtered version query is rejected. *)
Definition broken_registry : Registry :=
  {| fetch_project := fun _ => Fulfilled NotOk;
     fetch_versions := fun _ q =>
       match q with
       | Some _ => Rejects
       | None => Fulfilled NotOk
       end |}.

(** A relayed request for the builds of a project, JSON values stood for
    by numbers (truthy when not 0), and a registry that answers 200 or
    cannot be reached. *)
Definition versions_request : Relay.Request :=
  {| Relay.rq_type := Some "versions"; Relay.rq_projectId := Some "sodium";
     Relay.rq_gameVersion := Some "1.20.1"; Relay.rq_loader := Some "fabric";
     Relay.rq_q := None |}.

Definition nonzero (n : nat) : bool := negb (Nat.eqb n 0).

Definition registry_up (url : Relay.Url) : Settled (Relay.Upstream nat) :=
  Fulfilled {| Relay.up_status := 200; Relay.up_body := 7 |}.

Definition registry_down (url : Relay.Url) : Settled (Relay.Upstream nat) := Rejects.

End More.

(** * Properties

    ** The bounded concurrency runner *)

Section PoolFacts.
Import Pool PoolInv.
Context {T : Type}.
Variable worker : T -> Settled T.
Implicit Types s : @State T.

Lemma indexed_lookup (items : list T) (i : nat) :
  indexed items !! i = (fun v => (v, i)) <$> items !! i.
Proof. unfold indexed. apply list_lookup_imap. Qed.

Lemma indexed_length (items : list T) : length (indexed items) = length items.
Proof. unfold indexed. apply length_imap. Qed.

Lemma queue_head (items : list T) k next rest :
  drop k (indexed items) = next :: rest ->
  k < length items /\ items !! k = Some next.1 /\ next.2 = k /\
  rest = drop (S k) (indexed items).
Proof.
  intros Hq.
  assert (Hk : indexed items !! k = Some next).
  { pose proof (lookup_drop (indexed items) k 0) as H.
    rewrite Hq, Nat.add_0_r in H. simpl in H. by symmetry. }
  rewrite (drop_S _ _ _ Hk) in Hq. injection Hq as <-.
  rewrite indexed_lookup in Hk.
  destruct (items !! k) as [v|] eqn:Hv; simpl in Hk; [|discriminate].
  injection Hk as <-. simpl.
  repeat split; try done. by eapply lookup_lt_Some.
Qed.

Lemma seq_snoc (k : nat) : seq 0 k ++ [k] = seq 0 (S k).
Proof. by rewrite seq_S. Qed.

Lemma init_invariant (items : list T) (limit : nat) :
  inv_at worker items 0 (init items limit).
Proof.
  constructor; simpl.
  - lia.
  - by rewrite drop_0.
  - done.
  - by rewrite length_replicate.
  - intros j v i H. apply lookup_replicate in H as [? _]. discriminate.
  - intros i v Hi. lia.
  - intros j H. apply lookup_replicate in H as [? _]. discriminate.
  - intros j H. apply lookup_replicate in H as [? _]. discriminate.
Qed.

(** A runner other than the one that moved is where it was. *)
Lemma other_runner (rs : list (@Runner T)) k r j r' :
  <[k := r]> rs !! j = Some r' -> (j = k /\ r' = r) \/ (j <> k /\ rs !! j = Some r').
Proof.
  intros H. apply list_lookup_insert_Some in H as [(-> & -> & _)|[? ?]]; auto.
Qed.

Lemma kept_runner (rs : list (@Runner T)) k r j r0 r' :
  rs !! k = Some r0 -> rs !! j = Some r' -> r' <> r0 -> <[k := r]> rs !! j = Some r'.
Proof.
  intros Hk Hj Hne. rewrite list_lookup_insert_ne; [done|].
  intros ->. congruence.
Qed.

Lemma moved_runner (rs : list (@Runner T)) k r r0 :
  rs !! k = Some r0 -> <[k := r]> rs !! k = Some r.
Proof. intros H. apply list_lookup_insert_eq. by eapply lookup_lt_Some. Qed.

Lemma step_invariant (items : list T) k s j s' :
  inv_at worker items k s -> step_runner worker j s = Some s' ->
  exists k', inv_at worker items k' s'.
Proof.
  intros [Hle Hq Hc Hlen Haw Hdone Hret Hthr] Hstep.
  unfold step_runner in Hstep.
  destruct (runners s !! j) as [[|[v i]| |]|] eqn:Hj; try discriminate.
  - (* at the loop head *)
    destruct (queue s) as [|next rest] eqn:Hqs.
    + injection Hstep as <-. exists k. constructor; simpl.
      * done.
      * done.
      * done.
      * done.
      * intros j' v i H. apply other_runner in H as [[_ ?]|[_ H]]; [discriminate|eauto].
      * intros i v Hi Hv. destruct (Hdone i v Hi Hv) as [[j' Hj']|H].
        -- left. exists j'. eapply kept_runner; eauto; congruence.
        -- right. destruct (worker v); [done|].
           destruct H as [j' Hj']. exists j'. eapply kept_runner; eauto; congruence.
      * done.
      * intros j' H. apply other_runner in H as [[_ ?]|[_ H]]; [discriminate|eauto].
    + injection Hstep as <-.
      symmetry in Hq. apply queue_head in Hq as (Hlt & Hv & Hi & ->).
      destruct next as [v i]; simpl in *; subst i.
      exists (S k). constructor; simpl.
      * lia.
      * done.
      * rewrite Hc. exact (seq_snoc k).
      * done.
      * intros j' v' i' H. apply other_runner in H as [[_ H]|[_ H]].
        -- injection H as -> ->. split; [lia|done].
        -- destruct (Haw _ _ _ H). split; [lia|done].
      * intros i' v' Hi' Hv'.
        destruct (decide (i' = k)) as [->|Hne].
        -- left. exists j. rewrite Hv in Hv'. injection Hv' as ->.
           by eapply moved_runner.
        -- destruct (Hdone i' v' ltac:(lia) Hv') as [[j' Hj']|H].
           ++ left. exists j'. eapply kept_runner; eauto; congruence.
           ++ right. destruct (worker v'); [done|].
              destruct H as [j' Hj']. exists j'. eapply kept_runner; eauto; congruence.
      * intros j' H. apply other_runner in H as [[_ ?]|[_ H]]; [discriminate|].
        by apply Hret in H.
      * intros j' H. apply other_runner in H as [[_ ?]|[_ H]]; [discriminate|eauto].
  - (* resuming after the await *)
    destruct (Haw _ _ _ Hj) as [Hik Hiv]. simpl in Hstep.
    destruct (worker v) as [r|] eqn:Hw; injection Hstep as <-.
    + exists k. constructor; simpl.
      * done.
      * done.
      * done.
      * by rewrite length_insert.
      * intros j' v' i' H. apply other_runner in H as [[_ ?]|[_ H]]; [discriminate|eauto].
      * intros i' v' Hi' Hv'.
        destruct (decide (i' = i)) as [->|Hne].
        -- right. rewrite Hiv in Hv'. injection Hv' as <-. rewrite Hw.
           apply list_lookup_insert_eq. lia.
        -- destruct (Hdone i' v' Hi' Hv') as [[j' Hj']|H].
           ++ left. exists j'. eapply kept_runner; eauto; congruence.
           ++ right. destruct (worker v').
              ** by rewrite list_lookup_insert_ne.
              ** destruct H as [j' Hj']. exists j'. eapply kept_runner; eauto; congruence.
      * intros j' H. apply other_runner in H as [[_ ?]|[_ H]]; [discriminate|eauto].
      * intros j' H. apply other_runner in H as [[_ ?]|[_ H]]; [discriminate|eauto].
    + exists k. constructor; simpl.
      * done.
      * done.
      * done.
      * done.
      * intros j' v' i' H. apply other_runner in H as [[_ ?]|[_ H]]; [discriminate|eauto].
      * intros i' v' Hi' Hv'.
        destruct (decide (i' = i)) as [->|Hne].
        -- right. rewrite Hiv in Hv'. injection Hv' as <-. rewrite Hw.
           exists j. by eapply moved_runner.
        -- destruct (Hdone i' v' Hi' Hv') as [[j' Hj']|H].
           ++ left. exists j'. eapply kept_runner; eauto; congruence.
           ++ right. destruct (worker v'); [done|].
              destruct H as [j' Hj']. exists j'. eapply kept_runner; eauto; congruence.
      * intros j' H. apply other_runner in H as [[_ ?]|[_ H]]; [discriminate|eauto].
      * intros j' H. apply other_runner in H as [[_ _]|[_ H]]; [|eauto].
        exists v. split; [|done]. apply list_elem_of_lookup. eauto.
Qed.

Lemma steps_invariant (items : list T) (limit : nat) s :
  steps worker (init items limit) s -> invariant worker items s.
Proof.
  induction 1 as [|s' s'' _ IH [j Hj]].
  - exists 0. apply init_invariant.
  - destruct IH as [k Hk]. eapply step_invariant; eauto.
Qed.

Lemma step_runners_length s j s' :
  step_runner worker j s = Some s' -> length (runners s') = length (runners s).
Proof.
  unfold step_runner. intros H.
  destruct (runners s !! j) as [[|[v i]| |]|]; try discriminate.
  - destruct (queue s); injection H as <-; simpl; apply length_insert.
  - simpl in H. destruct (worker v); injection H as <-; simpl; apply length_insert.
Qed.

Lemma steps_runners_length (items : list T) (limit : nat) s :
  steps worker (init items limit) s -> length (runners s) = limit.
Proof.
  induction 1 as [|s' s'' _ IH [j Hj]].
  - simpl. apply length_replicate.
  - rewrite <- IH. eapply step_runners_length; eauto.
Qed.

Lemma steps_trans s1 s2 s3 :
  steps worker s1 s2 -> steps worker s2 s3 -> steps worker s1 s3.
Proof.
  intros H12 H23. induction H23; [done|]. eapply steps_more; eauto.
Qed.

Lemma sum_list_insert (l : list nat) k x y :
  l !! k = Some y -> sum_list (<[k := x]> l) + y = sum_list l + x.
Proof.
  revert k. induction l as [|a l IH]; intros [|k] H; try discriminate.
  - injection H as ->. change (x + sum_list l + y = y + sum_list l + x). lia.
  - change (a + sum_list (<[k := x]> l) + y = a + sum_list l + x).
    specialize (IH k H). lia.
Qed.

Lemma weight_insert (rs : list (@Runner T)) k r r0 :
  rs !! k = Some r0 ->
  sum_list (weight <$> <[k := r]> rs) + weight r0 = sum_list (weight <$> rs) + weight r.
Proof.
  intros H. rewrite list_fmap_insert. apply sum_list_insert.
  by rewrite list_lookup_fmap, H.
Qed.

(** Every move uses up fuel: a run has no more than [fuel (init ..)] moves. *)
Lemma step_fuel s s' : step worker s s' -> fuel s' < fuel s.
Proof.
  intros [j H]. unfold step_runner in H.
  destruct (runners s !! j) as [[|[v i]| |]|] eqn:Hj; try discriminate.
  - destruct (queue s) as [|next rest] eqn:Hq; injection H as <-;
      unfold fuel; simpl; rewrite Hq; simpl.
    + pose proof (weight_insert _ _ Returned _ Hj) as Hw. simpl in Hw. lia.
    + pose proof (weight_insert _ _ (Awaiting next) _ Hj) as Hw. simpl in Hw. lia.
  - simpl in H. destruct (worker v); injection H as <-; unfold fuel; simpl.
    + pose proof (weight_insert _ _ AtLoop _ Hj) as Hw. simpl in Hw. lia.
    + pose proof (weight_insert _ _ Threw _ Hj) as Hw. simpl in Hw. lia.
Qed.

(** A state that is not quiescent has a move. *)
Lemma progress s : quiescent s = false -> exists s', step worker s s'.
Proof.
  unfold quiescent. intros H.
  assert (exists j r, runners s !! j = Some r /\ ended r = false) as (j & r & Hj & Hr).
  { induction (runners s) as [|a rs IH]; simpl in H; [discriminate|].
    destruct (ended a) eqn:Ha.
    - destruct (IH H) as (j & r & ? & ?). by exists (S j), r.
    - by exists 0, a. }
  unfold step, step_runner.
  destruct r as [|next| |]; try discriminate.
  - destruct (queue s); eexists; exists j; rewrite Hj; done.
  - destruct (worker next.1) eqn:Hw; eexists; exists j; rewrite Hj, Hw; done.
Qed.

(** A runner that has not ended can always move. *)
Lemma runner_moves s k r :
  runners s !! k = Some r -> ended r = false ->
  exists s', step_runner worker k s = Some s'.
Proof.
  intros Hk He. unfold step_runner. rewrite Hk.
  destruct r as [|next| |]; try discriminate.
  - destruct (queue s); eauto.
  - destruct (worker next.1); eauto.
Qed.

Lemma init_fuel (items : list T) (limit : nat) :
  fuel (init items limit) = 3 * length items + 2 * limit.
Proof.
  unfold fuel, init. cbn [queue runners]. rewrite indexed_length. f_equal.
  induction limit as [|n IH]; [done|].
  change (2 + sum_list (weight <$> replicate n (@AtLoop T)) = 2 * S n). lia.
Qed.

Lemma run_to_end n s :
  fuel s <= n -> exists s', steps worker s s' /\ quiescent s' = true.
Proof.
  revert s. induction n as [|n IH]; intros s Hn.
  - destruct (quiescent s) eqn:Hq; [exists s; split; [constructor|done]|].
    destruct (progress s Hq) as [s' Hs']. apply step_fuel in Hs'. lia.
  - destruct (quiescent s) eqn:Hq; [exists s; split; [constructor|done]|].
    destruct (progress s Hq) as [s' Hs'].
    destruct (IH s') as (s'' & Hs'' & Hend).
    { apply step_fuel in Hs'. lia. }
    exists s''. split; [|done].
    eapply steps_trans; [|exact Hs'']. eapply steps_more; [constructor|done].
Qed.

Lemma settled_all_rejects {A} (l : list (Settled A)) :
  Rejects ∈ l -> settled_all l = Rejects.
Proof.
  induction l as [|m l IH]; intros H; [by apply elem_of_nil in H|].
  apply elem_of_cons in H as [<-|H]; [done|].
  change (settled_all (m :: l)) with
    (settled_bind m (fun a => settled_bind (settled_all l) (fun r => Fulfilled (a :: r)))).
  destruct m; [|done]. simpl. by rewrite IH.
Qed.

Lemma settled_all_fulfilled {A B} (f : A -> Settled B) (g : A -> option B) (l : list A) :
  (forall x, x ∈ l -> exists r, f x = Fulfilled r /\ g x = Some r) ->
  exists rs, settled_all (f <$> l) = Fulfilled rs /\ Some <$> rs = g <$> l.
Proof.
  induction l as [|x l IH]; intros H; [by exists []|].
  destruct IH as (rs & Hrs & Hg). { intros y Hy. apply H. by right. }
  destruct (H x) as (r & Hr & Hgx); [by left|].
  exists (r :: rs). split.
  - change (settled_bind (f x) (fun a => settled_bind (settled_all (f <$> l))
      (fun r => Fulfilled (a :: r))) = Fulfilled (r :: rs)).
    by rewrite Hr, Hrs.
  - change (Some r :: (Some <$> rs) = g x :: (g <$> l)). by rewrite Hg, Hgx.
Qed.

Lemma settled_all_total {A B} (f : A -> B) (l : list A) :
  settled_all ((fun x => Fulfilled (f x)) <$> l) = Fulfilled (f <$> l).
Proof.
  induction l as [|x l IH]; [done|].
  change (settled_bind (settled_all ((fun x => Fulfilled (f x)) <$> l))
    (fun r => Fulfilled (f x :: r)) = Fulfilled (f x :: (f <$> l))).
  by rewrite IH.
Qed.

(** With a worker that never rejects, [Cart.runPool] is [map]. *)
Lemma runPool_total (f : T -> T) (items : list T) (limit : nat) :
  Cart.runPool items limit (fun v => Fulfilled (f v)) = Fulfilled (f <$> items).
Proof. apply settled_all_total. Qed.

Lemma quiescent_runner s j r :
  quiescent s = true -> runners s !! j = Some r -> ended r = true.
Proof.
  unfold quiescent. intros H Hj. rewrite forallb_forall in H.
  apply H. apply list_elem_of_In, list_elem_of_lookup. eauto.
Qed.

Lemma none_threw s j :
  existsb threw (runners s) = false -> runners s !! j <> Some Threw.
Proof.
  intros H Hj. assert (existsb threw (runners s) = true) as Ht; [|congruence].
  apply existsb_exists. exists Threw. split; [|done].
  apply list_elem_of_In, list_elem_of_lookup. eauto.
Qed.

Lemma some_threw s :
  existsb threw (runners s) = true -> exists j, runners s !! j = Some Threw.
Proof.
  intros H. apply existsb_exists in H as (r & Hin & Hr).
  destruct r; try discriminate.
  by apply list_elem_of_In, list_elem_of_lookup in Hin.
Qed.

(** A finished run in which no runner threw: every item was claimed, in
    order, and every slot holds its worker's value. *)
Lemma finished_run (items : list T) (limit : nat) s :
  0 < limit -> steps worker (init items limit) s ->
  quiescent s = true -> existsb threw (runners s) = false ->
  calls s = seq 0 (length items) /\
  results s = (fun v => fulfilled (worker v)) <$> items /\
  (forall v, v ∈ items -> exists r, worker v = Fulfilled r /\ fulfilled (worker v) = Some r).
Proof.
  intros Hlimit Hsteps Hq Hno.
  destruct (steps_invariant _ _ _ Hsteps) as [k Hinv].
  pose proof (steps_runners_length _ _ _ Hsteps) as Hlen.
  destruct Hinv as [Hle Hqueue Hc Hrlen Haw Hdone Hret Hthr].
  assert (k = length items) as ->.
  { destruct (runners s !! 0) as [r0|] eqn:H0.
    - pose proof (quiescent_runner _ _ _ Hq H0) as He.
      destruct r0; try discriminate.
      + apply Hret in H0. rewrite Hqueue in H0.
        pose proof (f_equal length H0) as HL.
        rewrite length_drop, indexed_length in HL. simpl in HL. lia.
      + by apply none_threw in H0.
    - apply lookup_ge_None in H0. lia. }
  assert (Hslot : forall i v, items !! i = Some v ->
            exists r, worker v = Fulfilled r /\ results s !! i = Some (Some r)).
  { intros i v Hv.
    destruct (Hdone i v) as [[j Hj]|H]; [by eapply lookup_lt_Some|done| |].
    - pose proof (quiescent_runner _ _ _ Hq Hj). discriminate.
    - destruct (worker v) as [r|]; [by exists r|].
      destruct H as [j Hj]. by apply none_threw in Hj. }
  split; [done|]. split.
  - apply list_eq. intros i. rewrite list_lookup_fmap.
    destruct (items !! i) as [v|] eqn:Hv; simpl.
    + destruct (Hslot i v Hv) as (r & Hr & Hres). by rewrite Hres, Hr.
    + apply lookup_ge_None in Hv. apply lookup_ge_None. lia.
  - intros v Hv. apply list_elem_of_lookup in Hv as [i Hi].
    destruct (Hslot i v Hi) as (r & Hr & _). exists r. by rewrite Hr.
Qed.

(** Whatever the schedule, the promise [runPool] returns settles as
    [Cart.runPool] says. *)
Lemma runPool_agrees (items : list T) (limit : nat) s :
  0 < limit -> steps worker (init items limit) s -> quiescent s = true ->
  outcome s =
    match Cart.runPool items limit worker with
    | Fulfilled rs => Fulfilled (Some <$> rs)
    | Rejects => Rejects
    end.
Proof.
  intros Hlimit Hsteps Hq. unfold outcome, Cart.runPool.
  destruct (existsb threw (runners s)) eqn:Ht.
  - apply some_threw in Ht as [j Hj].
    destruct (steps_invariant _ _ _ Hsteps) as [k Hinv].
    destruct (inv_threw _ _ _ _ Hinv j Hj) as (v & Hv & Hw).
    rewrite settled_all_rejects; [done|].
    rewrite <- Hw. by apply list_elem_of_fmap_2.
  - destruct (finished_run items limit s Hlimit Hsteps Hq Ht) as (_ & Hres & Hall).
    destruct (settled_all_fulfilled worker (fun v => fulfilled (worker v)) items Hall)
      as (rs & Hrs & Hsome).
    rewrite Hrs, Hres. by rewrite Hsome.
Qed.
End PoolFacts.

Section RunPoolOrder.
Import Pool.
Context {T : Type}.

(** C4. For every input list, positive limit and worker function, the
    call returns: in every state of the run each runner that has not ended
    can move (so a state that is not finished has a next state), every
    move uses up fuel, of which there is [3 * length items + 2 * limit] at
    the start, and a finished state is reached.  In every finished state,
    whatever the order in which the calls completed, the returned array
    has the length of the input and holds at each index the worker's value
    for the input at that index; the worker was called once for each
    index, in order. *)
Theorem runPool_preserves_order (f : T -> T) (items : list T) (limit : nat) :
  0 < limit ->
  let worker := fun v => Fulfilled (f v) in
  (forall s k r, steps worker (init items limit) s ->
     runners s !! k = Some r -> ended r = false ->
     exists s', step_runner worker k s = Some s') /\
  (forall s, steps worker (init items limit) s -> quiescent s = false ->
     exists s', step worker s s') /\
  (forall s s', steps worker (init items limit) s -> step worker s s' -> fuel s' < fuel s) /\
  fuel (init items limit) = 3 * length items + 2 * limit /\
  (exists s, steps worker (init items limit) s /\ quiescent s = true) /\
  (forall s, steps worker (init items limit) s -> quiescent s = true ->
     outcome s = Fulfilled (Some <$> (f <$> items)) /\
     length (results s) = length items /\
     calls s = seq 0 (length items)).
Proof.
  intros Hlimit worker. split; [|split; [|split; [|split; [|split]]]].
  - intros s k r _. apply runner_moves.
  - intros s _. apply progress.
  - intros s s' _. apply step_fuel.
  - apply init_fuel.
  - destruct (run_to_end worker (fuel (init items limit)) (init items limit)) as (s & ? & ?);
      [lia|]. by exists s.
  - intros s Hsteps Hq.
    assert (Hno : existsb threw (runners s) = false).
    { destruct (existsb threw (runners s)) eqn:Ht; [|done].
      apply some_threw in Ht as [j Hj].
      destruct (steps_invariant _ _ _ _ Hsteps) as [k Hinv].
      destruct (PoolInv.inv_threw _ _ _ _ Hinv j Hj) as (v & _ & Hw). discriminate. }
    destruct (finished_run worker items limit s Hlimit Hsteps Hq Hno) as (Hc & Hres & _).
    unfold outcome. rewrite Hno, Hres. split; [|split; [|done]].
    + f_equal. by rewrite <- list_fmap_compose.
    + by rewrite length_fmap.
Qed.

End RunPoolOrder.

(** Three items, two runners, the second call completing before the
    first: the results are in input order all the same. *)
Example out_of_order_completion :
  let s := Pool.exec (fun v => Fulfilled (S v)) [0; 1; 1; 1; 1; 0; 0; 1]
             (Pool.init [10; 20; 30] 2) in
  Pool.quiescent s = true /\
  Pool.outcome s = Fulfilled [Some 11; Some 21; Some 31] /\
  Pool.calls s = [0; 1; 2].
Proof. repeat split. Qed.

(** Without a runner nothing is claimed: the array comes back with its
    holes. *)
Example no_runner_no_result :
  let s := Pool.init (T := nat) [10; 20] 0 in
  Pool.quiescent s = true /\ Pool.outcome s = Fulfilled [None; None].
Proof. repeat split. Qed.

(** A rejected worker call rejects the run. *)
Example rejected_call_rejects_run :
  let worker := fun v => if Nat.eqb v 20 then Rejects else Fulfilled (S v) in
  let s := Pool.exec worker [0; 1; 0; 1; 0; 0; 0] (Pool.init [10; 20; 30] 2) in
  Pool.quiescent s = true /\ Pool.outcome s = Rejects /\
  Cart.runPool [10; 20; 30] 2 worker = Rejects.
Proof. repeat split. Qed.

Lemma runPool_preserves_order_witness :
  0 < 2 /\
  (forall s, Pool.steps (fun v => Fulfilled (S v)) (Pool.init [10; 20; 30] 2) s ->
     Pool.quiescent s = false ->
     exists s', Pool.step (fun v => Fulfilled (S v)) s s') /\
  forall s, Pool.steps (fun v => Fulfilled (S v)) (Pool.init [10; 20; 30] 2) s ->
    Pool.quiescent s = true ->
    Pool.outcome s = Fulfilled [Some 11; Some 21; Some 31].
Proof.
  destruct (runPool_preserves_order S [10; 20; 30] 2 ltac:(lia))
    as (_ & Hmoves & _ & _ & _ & Hend).
  split; [lia|]. split; [exact Hmoves|].
  intros s Hs Hq. by destruct (Hend s Hs Hq) as [-> _].
Defined.

(** ** The item resolver *)

Section ResolveFacts.
Import Cart.
Variable localeCompare : string -> string -> Z.
Variables target loader : string.

(** [resolveItem] never changes the [id] of an entry. *)
Lemma resolveItem_id reg item r :
  resolveItem localeCompare reg target loader item = Fulfilled r -> id r = id item.
Proof.
  unfold resolveItem, resolve_fallback.
  destruct (paused item); [by intros [= <-]|].
  destruct (is_custom item); [by intros [= <-]|].
  destruct (fetch_versions reg (id item) (Some _)) as [[[|first rest]|]|]; simpl;
    try discriminate; try (by intros [= <-]);
    destruct (fetch_versions reg (id item) None) as [[versions|]|]; simpl;
    try discriminate; by intros [= <-].
Qed.

(** What the resolvable branch returns: the name of the first file of the
    first match. *)
Lemma resolveItem_resolvable reg item first rest :
  paused item = false -> is_custom item = false ->
  fetch_versions reg (id item) (Some (target, toLoaderId loader))
    = Fulfilled (Ok (first :: rest)) ->
  exists r, resolveItem localeCompare reg target loader item = Fulfilled r /\
    status r = status_resolvable /\ targetVersion r = target /\
    lastSupportedVersion r = None /\ filename r = first_filename first.
Proof.
  intros Hp Hc Hq. unfold resolveItem. rewrite Hp, Hc, Hq. simpl.
  eexists. split; [reflexivity|]. done.
Qed.

(** A [fetch] of the filtered query that rejects is not caught: the call
    of [resolveItem] rejects. *)
Lemma resolveItem_rejects reg item :
  paused item = false -> is_custom item = false ->
  fetch_versions reg (id item) (Some (target, toLoaderId loader)) = Rejects ->
  resolveItem localeCompare reg target loader item = Rejects.
Proof. intros Hp Hc Hq. unfold resolveItem. by rewrite Hp, Hc, Hq. Qed.

(** The [response.ok] tests: for a non-paused, non-custom entry, a
    filtered query answered with a not-OK response is resolved exactly as
    one answered with zero matches; and when the unfiltered query is
    answered not-OK as well, the entry comes back missing, with target
    version "-", no filename, and the [lastSupportedVersion] it had before
    the call. *)
Lemma resolveItem_not_ok_queries reg reg' item :
  paused item = false -> is_custom item = false ->
  fetch_project reg (id item) = fetch_project reg' (id item) ->
  fetch_versions reg (id item) None = fetch_versions reg' (id item) None ->
  fetch_versions reg (id item) (Some (target, toLoaderId loader)) = Fulfilled NotOk ->
  fetch_versions reg' (id item) (Some (target, toLoaderId loader)) = Fulfilled (Ok []) ->
  resolveItem localeCompare reg target loader item
    = resolveItem localeCompare reg' target loader item
  /\ (fetch_versions reg (id item) None = Fulfilled NotOk ->
      exists r, resolveItem localeCompare reg target loader item = Fulfilled r /\
        status r = status_missing /\ targetVersion r = version_none /\
        filename r = None /\ lastSupportedVersion r = lastSupportedVersion item).
Proof.
  intros Hp Hc Hproj Hfall Hq Hq'. split.
  - unfold resolveItem, resolve_fallback, fetchProjectInfoById.
    rewrite Hp, Hc, Hq, Hq', Hproj. simpl. by rewrite Hfall.
  - intros Hf. eexists. split.
    + unfold resolveItem, resolve_fallback. rewrite Hp, Hc, Hq. simpl.
      rewrite Hf. simpl. reflexivity.
    + done.
Qed.
End ResolveFacts.

Import Cart Scenario.

(** C2. [resolveItem] does not do what the specification says of failed
    queries.  Its two [fetch] calls are outside any [try]: when the relay
    cannot be reached the call for [sodium] rejects, where zero matches
    give a missing entry, and the pass over a list that holds [sodium]
    fails as a whole; the same when only the unfiltered query rejects.
    And the last [return] does not mention [lastSupportedVersion]: when
    both queries are answered not-OK, [oldmod] comes back missing with the
    last supported version it had, where the other two returns set or
    clear it. *)
Theorem resolveItem_does_not_catch :
  resolveItem byte_order offline_registry "1.20.1" "Fabric" sodium = Rejects /\
  (exists r, resolveItem byte_order no_match_registry "1.20.1" "Fabric" sodium = Fulfilled r /\
     status r = status_missing /\ lastSupportedVersion r = None) /\
  handleResolve byte_order offline_registry two_parents = PassFailed /\
  resolveItem byte_order fallback_offline_registry "1.20.1" "Fabric" sodium = Rejects /\
  (exists r, resolveItem byte_order unreachable_registry "1.21.1" "Fabric" oldmod = Fulfilled r /\
     status r = status_missing /\ lastSupportedVersion r = Some "1.16.5").
Proof.
  split; [reflexivity|]. split.
  { eexists. split; [vm_compute; reflexivity|]. done. }
  split; [reflexivity|]. split; [reflexivity|].
  eexists. split; [vm_compute; reflexivity|]. done.
Qed.

(** C1. At a first match whose primary file is not listed first,
    [resolveItem] returns a resolvable entry with the requested target and
    no last supported version, but its filename is the first file's, where
    the specification (and [handleDownload], for the same match) take the
    primary file. *)
Theorem resolveItem_ignores_primary :
  (exists r, resolveItem byte_order sodium_registry "1.20.1" "Fabric" sodium = Fulfilled r /\
     status r = status_resolvable /\ targetVersion r = "1.20.1" /\
     lastSupportedVersion r = None /\ filename r = Some "sodium-sources.jar") /\
  (download_file sodium_build ≫= file_filename) = Some "sodium.jar".
Proof.
  split; [|reflexivity].
  eexists. split; [vm_compute; reflexivity|]. done.
Qed.

(** ** Resolution passes *)

Section PassFacts.
Variable localeCompare : string -> string -> Z.
Variable reg : Registry.

Lemma settled_all_Forall2 {A B} (f : A -> Settled B) (l : list A) (rs : list B) :
  settled_all (f <$> l) = Fulfilled rs -> Forall2 (fun x r => f x = Fulfilled r) l rs.
Proof.
  revert rs. induction l as [|x l IH]; intros rs H.
  - injection H as <-. constructor.
  - change (settled_bind (f x) (fun a => settled_bind (settled_all (f <$> l))
      (fun r => Fulfilled (a :: r))) = Fulfilled rs) in H.
    destruct (f x) as [r|] eqn:Hx; [|discriminate]. simpl in H.
    destruct (settled_all (f <$> l)) as [rs'|]; [|discriminate].
    injection H as <-. constructor; [done|]. by apply IH.
Qed.

Lemma resolved_ids target loader (l rs : list CartItem) :
  Forall2 (fun x r => resolveItem localeCompare reg target loader x = Fulfilled r) l rs ->
  ids rs = ids l.
Proof.
  induction 1 as [|x r l rs Hx _ IH]; [done|].
  unfold ids in *. rewrite !fmap_cons, IH. f_equal. by eapply resolveItem_id.
Qed.

Lemma reset_ids (l : list CartItem) : ids (reset_downloaded <$> l) = ids l.
Proof. unfold ids. rewrite <- list_fmap_compose. by apply list_fmap_ext. Qed.

(** The two ways a pass commits. *)
Lemma handleResolve_committed st st' :
  handleResolve localeCompare reg st = Committed st' ->
  let worker := resolveItem localeCompare reg (st_targetVersion st) (st_loader st) in
  exists resolved,
    cartItems st <> [] /\
    Forall2 (fun x r => worker x = Fulfilled r) (cartItems st) resolved /\
    let expansion :=
      collect_dependencies (list_to_set (ids (cartItems st))) (selectedMods st)
        (st_targetVersion st) resolved in
    (dependencyItems expansion = [] /\
     st' = with_items st (reset_downloaded <$> resolved)) \/
    (exists resolvedDeps,
       Forall2 (fun x r => worker x = Fulfilled r) (dependencyItems expansion) resolvedDeps /\
       st' = with_selection
               (with_items st (reset_downloaded <$> (resolved ++ resolvedDeps)))
               (selectedMods st ∪ selected_dependencies (dependencySelectionMap expansion))).
Proof.
  intros H worker. unfold handleResolve, runPool in H. fold worker in H.
  destruct (cartItems st) as [|c l] eqn:Hl; [discriminate|].
  destruct (settled_all _) as [resolved|] eqn:Hres in H; [|discriminate].
  exists resolved. split; [done|]. split; [by apply settled_all_Forall2|].
  cbv zeta. rewrite <- Hl in *.
  set (expansion := collect_dependencies _ _ _ resolved) in *.
  destruct (dependencyItems expansion) as [|d ds] eqn:Hd.
  - left. split; [done|]. by injection H as <-.
  - right.
    destruct (settled_all _) as [resolvedDeps|] eqn:Hdeps in H; [|discriminate].
    exists resolvedDeps. split; [by apply settled_all_Forall2|]. by injection H as <-.
Qed.

(** C10. When a resolution pass commits, every entry of the committed list
    has [downloaded = false], whatever it was before; a paused entry comes
    back as it was but for that flag, and a custom entry as [resolveItem]
    rewrites it, but for that flag. *)
Theorem handleResolve_clears_downloaded st st' :
  handleResolve localeCompare reg st = Committed st' ->
  (forall item, item ∈ cartItems st' -> downloaded item = Some false) /\
  (forall i item, cartItems st !! i = Some item ->
     (paused item = true -> cartItems st' !! i = Some (reset_downloaded item)) /\
     (paused item = false -> is_custom item = true ->
      cartItems st' !! i = Some (reset_downloaded (custom_item item)))).
Proof.
  intros H. apply handleResolve_committed in H as (resolved & _ & Hres & H).
  assert (Hat : forall i item, cartItems st !! i = Some item ->
            exists r, resolved !! i = Some r /\
              resolveItem localeCompare reg (st_targetVersion st) (st_loader st) item
                = Fulfilled r).
  { intros i item Hi. destruct (Forall2_lookup_l _ _ _ _ _ Hres Hi) as (r & ? & ?). eauto. }
  assert (Hitems : exists tail, cartItems st' = reset_downloaded <$> (resolved ++ tail)).
  { destruct H as [[_ ->]|(resolvedDeps & _ & ->)]; simpl.
    - exists []. by rewrite app_nil_r.
    - by exists resolvedDeps. }
  destruct Hitems as [tail Hitems]. split.
  - intros item Hin. rewrite Hitems in Hin.
    apply list_elem_of_fmap in Hin as (x & -> & _). done.
  - intros i item Hi. destruct (Hat i item Hi) as (r & Hr & Hw).
    assert (Hi' : cartItems st' !! i = Some (reset_downloaded r)).
    { rewrite Hitems, list_lookup_fmap, lookup_app_l, Hr; [done|].
      by eapply lookup_lt_Some. }
    unfold resolveItem in Hw. split.
    + intros Hp. rewrite Hp in Hw. by injection Hw as <-.
    + intros Hp Hc. rewrite Hp, Hc in Hw. by injection Hw as <-.
Qed.
End PassFacts.

Lemma handleResolve_clears_downloaded_witness :
  exists st', handleResolve byte_order unreachable_registry paused_downloaded = Committed st' /\
    (downloaded <$> cartItems paused_downloaded) = [Some true] /\
    forall item, item ∈ cartItems st' -> downloaded item = Some false.
Proof.
  eexists. split; [vm_compute; reflexivity|]. split; [reflexivity|].
  exact (proj1 (handleResolve_clears_downloaded byte_order unreachable_registry
                  paused_downloaded _ eq_refl)).
Defined.

(** ** Dependency expansion *)

Section ExpansionFacts.
Import Expanding.
Variables existingIds selected : gset string.
Variable target : string.
Local Abbreviation visit := (visit existingIds selected target).
Local Abbreviation expanded := (expanded existingIds).

Lemma collect_declared (resolved : list CartItem) (acc : Expansion) :
  foldl (visit_item existingIds selected target) acc resolved
  = foldl visit acc (declared resolved).
Proof.
  revert acc. induction resolved as [|item resolved IH]; intros acc; [done|].
  unfold declared. rewrite bind_cons, foldl_app. fold (declared resolved).
  rewrite <- IH. simpl. f_equal. unfold visit_item.
  generalize (default [] (dependencies item)). intros deps. revert acc.
  induction deps as [|dep deps IHd]; intros acc; [done|]. simpl. by rewrite IHd.
Qed.

Lemma expanded_nil : expanded [] no_expansion.
Proof.
  constructor; simpl.
  - intros x. split; intros H; [by apply elem_of_empty in H|by apply elem_of_nil in H].
  - intros x. rewrite lookup_empty. split; [by intros [? ?]|].
    intros H. by apply elem_of_empty in H.
  - constructor.
  - intros x. split; [intros H; by apply elem_of_empty in H|].
    intros (_ & p & Hp & _). by apply elem_of_nil in Hp.
  - intros e H. by apply elem_of_nil in H.
Qed.

Lemma expanded_visit ps acc p :
  expanded ps acc -> expanded (ps ++ [p]) (visit acc p).
Proof.
  intros [Hids Hmap Hnd Hnew Hfresh]. unfold visit, visit_dependency.
  destruct (bool_decide (dep_id p.2 ∈ existingIds)) eqn:He; simpl.
  { apply bool_decide_eq_true in He. constructor; try done.
    intros x. rewrite Hnew. split.
    - intros (? & q & ? & ?). split; [done|]. exists q. split; [|done].
      apply elem_of_app. by left.
    - intros (Hx & q & Hq & Hqx). split; [done|].
      apply elem_of_app in Hq as [Hq|Hq]; [by exists q|].
      apply list_elem_of_singleton in Hq as ->. by rewrite Hqx in He. }
  apply bool_decide_eq_false in He.
  destruct (bool_decide (dep_id p.2 ∈ dependencyIds acc)) eqn:Hd.
  { apply bool_decide_eq_true in Hd. constructor; try done.
    intros x. rewrite Hnew. split.
    - intros (? & q & ? & ?). split; [done|]. exists q. split; [|done].
      apply elem_of_app. by left.
    - intros (Hx & q & Hq & Hqx). split; [done|].
      apply elem_of_app in Hq as [Hq|Hq]; [by exists q|].
      apply list_elem_of_singleton in Hq as ->. rewrite <- Hqx.
      apply Hnew in Hd as (_ & q & ? & ?). by exists q. }
  apply bool_decide_eq_false in Hd.
  assert (Hidsapp : ids (dependencyItems acc ++ [new_dependency target p.2])
                    = ids (dependencyItems acc) ++ [dep_id p.2]).
  { unfold ids. by rewrite fmap_app. }
  constructor; simpl.
  - intros x. rewrite Hidsapp, elem_of_app, list_elem_of_singleton, <- Hids.
    rewrite elem_of_union, elem_of_singleton. tauto.
  - intros x.
    assert (Hin : is_Some ((<[dep_id p.2 := bool_decide (id p.1 ∈ selected)]>
                     (dependencySelectionMap acc)) !! x)
                  <-> x ∈ ({[dep_id p.2]} ∪ dependencyIds acc : gset string)).
    { rewrite lookup_insert_is_Some, Hmap, elem_of_union, elem_of_singleton.
      destruct (decide (dep_id p.2 = x)); intuition congruence. }
    destruct (dependencySelectionMap acc !! dep_id p.2) as [b|] eqn:Hb; [|done].
    exfalso. apply Hd, Hmap. by exists b.
  - rewrite Hidsapp. apply NoDup_app. split; [done|]. split; [|apply NoDup_singleton].
    intros x Hx Hx'. apply list_elem_of_singleton in Hx' as ->. by apply Hd, Hids.
  - intros x. rewrite elem_of_union, elem_of_singleton, Hnew. split.
    + intros [->|(? & q & ? & ?)].
      * split; [done|]. exists p. split; [|done]. apply elem_of_app. right. by left.
      * split; [done|]. exists q. split; [|done]. apply elem_of_app. by left.
    + intros (Hx & q & Hq & Hqx).
      apply elem_of_app in Hq as [Hq|Hq]; [right; split; [done|]; by exists q|].
      apply list_elem_of_singleton in Hq as ->. by left.
  - intros e Hin. apply elem_of_app in Hin as [Hin|Hin]; [by apply Hfresh|].
    by apply list_elem_of_singleton in Hin as ->.
Qed.

Lemma expanded_foldl ps qs acc :
  expanded ps acc -> expanded (ps ++ qs) (foldl visit acc qs).
Proof.
  revert ps acc. induction qs as [|q qs IH]; intros ps acc H.
  - by rewrite app_nil_r.
  - simpl. replace (ps ++ q :: qs) with ((ps ++ [q]) ++ qs) by by rewrite <- app_assoc.
    apply IH. by apply expanded_visit.
Qed.

(** The entries the expansion appends: one for each declared dependency
    id that is not in the list, and no two with the same id. *)
Lemma collect_dependencies_expanded (resolved : list CartItem) :
  expanded (declared resolved)
    (collect_dependencies existingIds selected target resolved).
Proof.
  unfold collect_dependencies. rewrite collect_declared.
  apply (expanded_foldl [] (declared resolved)), expanded_nil.
Qed.

Lemma selected_dependencies_new (resolved : list CartItem) x :
  x ∈ selected_dependencies
        (dependencySelectionMap (collect_dependencies existingIds selected target resolved)) ->
  x ∈ ids (dependencyItems (collect_dependencies existingIds selected target resolved)).
Proof.
  destruct (collect_dependencies_expanded resolved) as [Hids Hmap _ _ _].
  unfold selected_dependencies. rewrite elem_of_dom. intros [b Hb].
  apply map_lookup_filter_Some in Hb as [Hb _]. apply Hids, Hmap. by exists b.
Qed.
End ExpansionFacts.

Section SelectionOfDependencies.
Import Expanding.
Variables existingIds selected : gset string.
Variable target : string.
Local Abbreviation visit := (visit existingIds selected target).

(** Once an id is in [dependencyIds], later declarations of it return
    early: its entry of [dependencySelectionMap] is never touched again. *)
Lemma visit_keeps acc q x :
  x ∈ dependencyIds acc ->
  x ∈ dependencyIds (visit acc q) /\
  dependencySelectionMap (visit acc q) !! x = dependencySelectionMap acc !! x.
Proof.
  intros Hx. unfold Expanding.visit, visit_dependency.
  destruct (bool_decide (dep_id q.2 ∈ existingIds)); simpl; [done|].
  destruct (bool_decide (dep_id q.2 ∈ dependencyIds acc)) eqn:Hd; [done|].
  apply bool_decide_eq_false in Hd. simpl.
  assert (dep_id q.2 <> x) by (intros Heq; apply Hd; by rewrite Heq).
  split; [apply elem_of_union; by right|].
  destruct (dependencySelectionMap acc !! dep_id q.2); by rewrite lookup_insert_ne.
Qed.

Lemma foldl_visit_keeps qs acc x :
  x ∈ dependencyIds acc ->
  dependencySelectionMap (foldl visit acc qs) !! x = dependencySelectionMap acc !! x.
Proof.
  revert acc. induction qs as [|q qs IH]; intros acc Hx; [done|].
  simpl. destruct (visit_keeps acc q x Hx) as [Hin Heq]. by rewrite IH.
Qed.

(** The selection recorded for a new dependency is the selection of the
    first parent that declares it; the parents after it are not consulted. *)
Lemma selection_of_first_parent (resolved : list CartItem) ps1 p ps2 :
  declared resolved = ps1 ++ p :: ps2 ->
  (forall q, q ∈ ps1 -> dep_id q.2 <> dep_id p.2) ->
  dep_id p.2 ∉ existingIds ->
  dependencySelectionMap (collect_dependencies existingIds selected target resolved)
    !! dep_id p.2 = Some (bool_decide (id p.1 ∈ selected)).
Proof.
  intros Hdecl Hfirst Hnew. unfold collect_dependencies.
  rewrite collect_declared, Hdecl, foldl_app. simpl.
  pose proof (expanded_foldl existingIds selected target [] ps1 no_expansion
                (expanded_nil existingIds)) as Hexp.
  simpl in Hexp. set (acc := foldl visit no_expansion ps1) in *.
  assert (Hfresh : dep_id p.2 ∉ dependencyIds acc).
  { intros Hin. apply (exp_new _ _ _ Hexp) in Hin as (_ & q & Hq & Hqx).
    by apply (Hfirst q). }
  assert (Hstep : dep_id p.2 ∈ dependencyIds (visit acc p) /\
                  dependencySelectionMap (visit acc p) !! dep_id p.2
                  = Some (bool_decide (id p.1 ∈ selected))).
  { unfold Expanding.visit, visit_dependency.
    rewrite (bool_decide_eq_false_2 _ Hnew), (bool_decide_eq_false_2 _ Hfresh). simpl.
    split; [apply elem_of_union; left; by apply elem_of_singleton|].
    destruct (dependencySelectionMap acc !! dep_id p.2) as [b|] eqn:Hb.
    - exfalso. apply Hfresh, (exp_map _ _ _ Hexp). by exists b.
    - apply lookup_insert_eq. }
  destruct Hstep as [Hin Hsel]. by rewrite foldl_visit_keeps.
Qed.
End SelectionOfDependencies.

(** C3. Two resolved parents declare the same required dependency, which
    is not in the list: the pass appends one entry for it, but leaves it
    unselected although one of the parents is selected, because the
    selected parent is not the first to declare it. *)
Theorem expansion_ignores_later_parents :
  exists st', handleResolve byte_order parents_registry two_parents = Committed st' /\
    ids (cartItems st') = ["lithium"; "sodium"; "fabric-api"] /\
    (fun e => dep_id <$> default [] (dependencies e)) <$> cartItems st'
      = [["fabric-api"]; ["fabric-api"]; []] /\
    elements (selectedMods two_parents) = ["sodium"] /\
    elements (selectedMods st') = ["sodium"].
Proof.
  eexists. split; [vm_compute; reflexivity|]. repeat split; vm_compute; reflexivity.
Qed.

(** ** The selection set *)

Section SelectionFacts.

Lemma update_item_ids pid f st :
  (forall item, id (f item) = id item) ->
  ids (cartItems (update_item pid f st)) = ids (cartItems st).
Proof.
  intros Hf. unfold update_item, ids. simpl. rewrite <- list_fmap_compose.
  apply list_fmap_ext. intros i item _. simpl.
  destruct (String.eqb (id item) pid); [apply Hf|done].
Qed.

Lemma update_item_selection pid f st :
  (forall item, id (f item) = id item) ->
  selection_present st -> selection_present (update_item pid f st).
Proof.
  intros Hf H x Hx. rewrite update_item_ids; [|done]. by apply H.
Qed.

Lemma after_resolve_selection localeCompare reg st :
  selection_present st -> selection_present (after_resolve localeCompare reg st).
Proof.
  intros Hsel. unfold after_resolve.
  destruct (handleResolve localeCompare reg st) as [| |st'] eqn:Hpass; try done.
  apply handleResolve_committed in Hpass as (resolved & _ & Hres & Hcommit).
  apply resolved_ids in Hres.
  destruct Hcommit as [[_ ->]|(resolvedDeps & Hdeps & ->)]; intros x Hx; simpl in *.
  - rewrite reset_ids, Hres. by apply Hsel.
  - apply resolved_ids in Hdeps.
    rewrite reset_ids. unfold ids in *. rewrite fmap_app, Hres, Hdeps.
    apply elem_of_app. apply elem_of_union in Hx as [Hx|Hx]; [left; by apply Hsel|].
    right. by apply selected_dependencies_new in Hx.
Qed.

Lemma perform_selection a st :
  offered a st -> keeps_selected a st ->
  selection_present st -> selection_present (perform a st).
Proof.
  intros Hoff Hkeep Hsel.
  destruct a as [r sl|lid|result|pid|pid|pid|pid v|pid v|pid v|pid|lc r|response|parsed];
    simpl in *.
  - unfold handleAddItem, handleAddItem_settles.
    destruct (negb (truthy sl)); [done|].
    destruct (in_list sl (cartItems st)); [done|].
    intros x Hx. simpl. right. by apply Hsel.
  - intros x Hx. simpl. right. by apply Hsel.
  - unfold handleSelectSearchResult.
    destruct (in_list (Cart.slug result) (cartItems st)); [done|].
    intros x Hx. simpl. right. by apply Hsel.
  - intros x Hx. simpl in *.
    destruct (bool_decide (pid ∈ selectedMods st)).
    + apply elem_of_difference in Hx as [Hx _]. by apply Hsel.
    + apply elem_of_union in Hx as [Hx|Hx]; [|by apply Hsel].
      by apply elem_of_singleton in Hx as ->.
  - intros x Hx. simpl in *. specialize (Hsel x Hx).
    unfold ids in *. apply list_elem_of_fmap in Hsel as (item & -> & Hin).
    apply list_elem_of_fmap. exists item. split; [done|].
    apply list_elem_of_In, filter_In. split; [by apply list_elem_of_In|].
    apply negb_true_iff, String.eqb_neq. intros Heq. apply Hkeep. by rewrite <- Heq.
  - by apply update_item_selection.
  - by apply update_item_selection.
  - by apply update_item_selection.
  - by apply update_item_selection.
  - by apply update_item_selection.
  - by apply after_resolve_selection.
  - unfold handleLoadByCode.
    destruct response as [[data|]|]; try done.
    destruct (shared_items data) as [[|c l]|]; try done.
    match goal with
    | |- context [match ?label with Some _ => _ | None => None end] => destruct label
    end; [|done].
    intros x Hx. cbn [default selectedMods cartItems] in *. apply elem_of_list_to_set in Hx.
    unfold ids in *. apply list_elem_of_fmap in Hx as (item & -> & Hin).
    apply list_elem_of_In, filter_In in Hin as [Hin _].
    apply list_elem_of_fmap. exists item. split; [done|]. by apply list_elem_of_In.
  - destruct parsed as [items|]; [|done].
    intros x Hx. simpl. specialize (Hkeep x Hx).
    unfold ids in *. rewrite <- list_fmap_compose.
    apply list_elem_of_fmap in Hkeep as (item & -> & Hin).
    apply list_elem_of_fmap. by exists item.
Qed.

(** [resolve_setters] and [handleResolve] are the same call: run on the
    state the call closed over, the setters give the state it commits. *)
Lemma resolve_setters_commit localeCompare reg st :
  match resolve_setters localeCompare reg st with
  | NoSetter =>
      handleResolve localeCompare reg st = NothingToResolve \/
      handleResolve localeCompare reg st = PassFailed
  | u => handleResolve localeCompare reg st = Committed (apply_setters u st)
  end.
Proof.
  unfold resolve_setters, handleResolve.
  destruct (cartItems st) as [|e l]; [by left|].
  destruct (runPool (e :: l) 10 _) as [resolved|]; [|by right].
  cbv zeta.
  destruct (dependencyItems _) as [|d ds]; [done|].
  destruct (runPool (d :: ds) 10 _) as [resolvedDeps|]; [done|by right].
Qed.

Lemma after_resolve_setters localeCompare reg st :
  after_resolve localeCompare reg st
  = apply_setters (resolve_setters localeCompare reg st) st.
Proof.
  unfold after_resolve. pose proof (resolve_setters_commit localeCompare reg st) as H.
  destruct (resolve_setters localeCompare reg st); [|by rewrite H..].
  by destruct H as [-> | ->].
Qed.

(** The selection a pass sets holds ids of the list it sets, when the
    selection it closed over held ids of the list it closed over. *)
Lemma resolve_setters_selection localeCompare reg earlier resetItems updatedSelectedMods :
  resolve_setters localeCompare reg earlier
    = SetCartItemsAndSelectedMods resetItems updatedSelectedMods ->
  selection_present earlier ->
  forall x, x ∈ updatedSelectedMods -> x ∈ ids resetItems.
Proof.
  intros Hu Hsel.
  pose proof (after_resolve_selection localeCompare reg earlier Hsel) as H.
  rewrite after_resolve_setters, Hu in H. exact H.
Qed.

(** A pass that adds no dependency sets the ids it was called on. *)
Lemma resolve_setters_ids localeCompare reg earlier resetItems :
  resolve_setters localeCompare reg earlier = SetCartItems resetItems ->
  ids resetItems = ids (cartItems earlier).
Proof.
  intros Hu. unfold resolve_setters in Hu.
  destruct (cartItems earlier) as [|e l] eqn:Hl; [discriminate|].
  destruct (runPool (e :: l) 10 _) as [resolved|] eqn:Hrun; [|discriminate].
  cbv zeta in Hu.
  destruct (dependencyItems _) as [|d ds].
  - injection Hu as <-. rewrite reset_ids.
    unfold runPool in Hrun. apply settled_all_Forall2 in Hrun.
    by apply resolved_ids in Hrun.
  - by destruct (runPool (d :: ds) 10 _).
Qed.

(** What holds of a page in a run that keeps the selected entries: the
    selection shown, and the selection every waiting call closed over,
    hold ids of present entries. *)
Definition earlier_of (h : Waiting) : AppState :=
  match h with
  | AddingItem _ _ earlier => earlier
  | Resolving _ _ earlier => earlier
  end.

Lemma event_selection e p :
  enabled e p -> keeps e p ->
  selection_present (shown p) ->
  Forall (fun h => selection_present (earlier_of h)) (waiting p) ->
  selection_present (shown (after e p)) /\
  Forall (fun h => selection_present (earlier_of h)) (waiting (after e p)).
Proof.
  intros Hen Hkeep Hsel Hwait.
  destruct e as [a|v|l|reg sl|lc reg|i]; cbn [after shown waiting].
  - split; [|done]. destruct Hen as [_ Hoff]. by apply perform_selection.
  - by split.
  - by split.
  - destruct (negb (truthy sl) || in_list sl (cartItems (shown p))); [by split|].
    split; [done|]. apply Forall_app. split; [done|]. by apply Forall_singleton.
  - destruct (cartItems (shown p)); [by split|].
    split; [done|]. apply Forall_app. split; [done|]. by apply Forall_singleton.
  - destruct (waiting p !! i) as [h|] eqn:Hi; [|by split].
    cbn [shown waiting]. split; [|by apply Forall_delete].
    pose proof (Forall_lookup_1 _ _ _ _ Hwait Hi) as Hearlier.
    unfold keeps in Hkeep. rewrite Hi in Hkeep.
    destruct h as [reg sl earlier|lc reg earlier]; cbn [settle earlier_of] in *.
    + unfold handleAddItem_settles.
      destruct (negb (truthy sl)); [done|].
      destruct (in_list sl (cartItems earlier)); [done|].
      intros x Hx. simpl. right. by apply Hsel.
    + destruct (resolve_setters lc reg earlier) as [|resetItems|resetItems sel] eqn:Hu;
        cbn [apply_setters].
      * done.
      * intros x Hx. cbn [with_items cartItems selectedMods] in *.
        rewrite (resolve_setters_ids lc reg earlier resetItems Hu). by apply Hkeep.
      * intros x Hx. by apply (resolve_setters_selection lc reg earlier resetItems sel).
Qed.

(** C5, amended. In every state of the page reached, with the handlers
    that wait interleaved with the others, without removing a selected
    entry, without importing a file that lacks one, and without a pass
    that adds no dependency setting a list that lacks one (the pass sets
    the list it started from, so an entry added and ticked while it waited
    is lacking), the selected ids are ids of present entries; and
    [handleRemove] never changes the selection set, so the id of a removed
    entry stays selected if it was. *)
Theorem selection_present_while_kept st0 p :
  selection_present st0 ->
  runs_keeping (opened st0) p ->
  selection_present (shown p) /\
  (forall pid, selectedMods (handleRemove pid (shown p)) = selectedMods (shown p)).
Proof.
  intros H0 H. split; [|done].
  assert (Hinv : selection_present (shown p) /\
                 Forall (fun h => selection_present (earlier_of h)) (waiting p)).
  { induction H as [|p e _ IH Hen Hkeep].
    - split; [done|]. apply Forall_nil_2.
    - destruct IH as [Hsel Hwait]. by apply event_selection. }
  apply Hinv.
Qed.
End SelectionFacts.

(** The run of the witness: a search result is picked and ticked, a pass
    is started, a custom entry is added while it waits, and the pass sets
    its list. *)
Lemma selection_present_while_kept_witness :
  let p := after (Settles 0)
             (after (Handles (AddCustomItem "custom-1"))
                (after (CallsResolve byte_order sodium_registry) (opened ticked))) in
  selection_present (initial "1.21.1" "Fabric") /\
  runs_keeping (opened (initial "1.21.1" "Fabric")) p /\
  ids (cartItems (shown p)) = ["sodium"] /\
  selection_present (shown p) /\
  selectedMods (handleRemove "sodium" (shown p)) = selectedMods (shown p).
Proof.
  intros p.
  assert (H0 : selection_present (initial "1.21.1" "Fabric")).
  { intros x Hx. by apply elem_of_empty in Hx. }
  assert (H : runs_keeping (opened (initial "1.21.1" "Fabric")) p).
  { subst p. apply keeping_step.
    - apply keeping_step.
      + apply keeping_step.
        * change (opened ticked) with
            (after (Handles (ToggleSelection "sodium"))
               (after (Handles (SelectSearchResult sodium_hit))
                  (opened (initial "1.21.1" "Fabric")))).
          apply keeping_step.
          -- apply keeping_step; [apply keeping_start|by split|exact I].
          -- split; [done|apply list_elem_of_here].
          -- exact I.
        * reflexivity.
        * exact I.
      + by split.
      + exact I.
    - by eexists.
    - unfold keeps.
      change (waiting (after (Handles (AddCustomItem "custom-1"))
         (after (CallsResolve byte_order sodium_registry) (opened ticked))) !! 0)
        with (Some (Resolving byte_order sodium_registry ticked)).
      cbv iota beta.
      destruct (resolve_setters byte_order sodium_registry ticked)
        as [|resetItems|resetItems sel]; [done| |done].
      change (ids (cartItems ticked)) with ["sodium"].
      change (selectedMods (shown (after (Handles (AddCustomItem "custom-1"))
         (after (CallsResolve byte_order sodium_registry) (opened ticked)))))
        with (selectedMods ticked).
      assert (Hsel : selectedMods ticked = {["sodium"]}) by (vm_compute; reflexivity).
      rewrite Hsel. intros x Hx. apply elem_of_singleton in Hx as ->.
      apply list_elem_of_here. }
  split; [exact H0|]. split; [exact H|]. split; [reflexivity|].
  destruct (selection_present_while_kept _ p H0 H) as [Hsel Hrem].
  split; [exact Hsel|exact (Hrem "sodium")].
Defined.

(** C5 does not hold as the specification states it: ticking an entry and
    removing it leaves its id in the selection set of a list that no
    longer has it. *)
Lemma removed_entry_stays_selected :
  runs (opened (initial "1.21.1" "Fabric")) (opened removed) /\
  "sodium" ∈ selectedMods removed /\ cartItems removed = [] /\
  ~ selection_present removed.
Proof.
  assert (Hin : "sodium" ∈ selectedMods removed).
  { refine (bool_decide_unpack _ _). vm_compute. exact I. }
  split; [|split; [exact Hin|split; [reflexivity|]]].
  - assert (H1 : enabled (Handles (SelectSearchResult sodium_hit))
                   (opened (initial "1.21.1" "Fabric"))) by (by split).
    assert (H2 : enabled (Handles (ToggleSelection "sodium")) (opened picked))
      by (split; [done|apply list_elem_of_here]).
    assert (H3 : enabled (Handles (Remove "sodium")) (opened ticked))
      by (split; [done|apply list_elem_of_here]).
    exact (runs_step _ _ _ (runs_step _ _ _ (runs_step _ _ _ (runs_start _) H1) H2) H3).
  - intros H. specialize (H _ Hin). by apply elem_of_nil in H.
Qed.

(** Nor after an import: the imported file replaces the list and the
    selection stays. *)
Lemma imported_list_keeps_selection :
  runs (opened (initial "1.21.1" "Fabric")) (opened imported) /\
  ids (cartItems imported) = ["lithium"] /\
  "sodium" ∈ selectedMods imported /\
  ~ selection_present imported.
Proof.
  assert (Hin : "sodium" ∈ selectedMods imported).
  { refine (bool_decide_unpack _ _). vm_compute. exact I. }
  split; [|split; [reflexivity|split; [exact Hin|]]].
  - assert (H1 : enabled (Handles (SelectSearchResult sodium_hit))
                   (opened (initial "1.21.1" "Fabric"))) by (by split).
    assert (H2 : enabled (Handles (ToggleSelection "sodium")) (opened picked))
      by (split; [done|apply list_elem_of_here]).
    assert (H3 : enabled (Handles (ImportFile (Some [lithium]))) (opened ticked))
      by (by split).
    exact (runs_step _ _ _ (runs_step _ _ _ (runs_step _ _ _ (runs_start _) H1) H2) H3).
  - intros H. specialize (H _ Hin).
    change (ids (cartItems imported)) with ["lithium"] in H.
    apply list_elem_of_singleton in H. discriminate.
Qed.

(** Nor does it hold while a pass waits: a custom entry added and ticked
    during a pass over the list [sodium] is gone from the list the pass
    sets, and stays selected. *)
Lemma entry_added_during_pass_stays_selected :
  runs (opened picked) pass_settled /\
  ids (cartItems (shown pass_settled)) = ["sodium"] /\
  "custom-1" ∈ selectedMods (shown pass_settled) /\
  ~ selection_present (shown pass_settled).
Proof.
  assert (Hin : "custom-1" ∈ selectedMods (shown pass_settled)).
  { refine (bool_decide_unpack _ _). vm_compute. exact I. }
  split; [|split; [reflexivity|split; [exact Hin|]]].
  - assert (H1 : enabled (CallsResolve byte_order sodium_registry) (opened picked))
      by reflexivity.
    assert (H2 : enabled (Handles (AddCustomItem "custom-1")) pass_started) by (by split).
    assert (H3 : enabled (Handles (ToggleSelection "custom-1"))
                   (after (Handles (AddCustomItem "custom-1")) pass_started))
      by (split; [done|apply list_elem_of_here]).
    assert (H4 : enabled (Settles 0) added_meanwhile) by (by eexists).
    exact (runs_step _ _ _
             (runs_step _ _ _ (runs_step _ _ _ (runs_step _ _ _ (runs_start _) H1) H2) H3) H4).
  - intros H. specialize (H _ Hin).
    change (ids (cartItems (shown pass_settled))) with ["sodium"] in H.
    apply list_elem_of_singleton in H. discriminate.
Qed.

(** ** The exported list *)

Lemma exported_list_filter sel (entries : list CartItem) :
  export_name <$> List.filter (fun item => bool_decide (id item ∈ sel)) entries
  = exported_list_page sel entries.
Proof.
  induction entries as [|e rest IH]; [done|].
  change (exported_list_page sel (e :: rest))
    with (if bool_decide (id e ∈ sel)
          then match filename e with
               | Some f => f
               | None => String.append (title e) "(該版本缺失)"
               end :: exported_list_page sel rest
          else exported_list_page sel rest).
  simpl. destruct (bool_decide (id e ∈ sel)); [|done].
  rewrite fmap_cons, IH. done.
Qed.

(** C6, amended. The exported array holds one string per selected entry,
    in list order: the filename when the entry has one, and otherwise its
    title followed by "(該版本缺失)", the page's text for "(version
    missing)"; nothing is exported when no entry is selected or the user
    declines.  Scenario C exports "sodium-0.5.jar" and "OldMod(該版本缺失)". *)
Theorem handleDownloadSelected_exports (confirmed : bool) (st : AppState) :
  (handleDownloadSelected confirmed st =
     match exported_list_page (selectedMods st) (cartItems st) with
     | [] => None
     | out => if confirmed then Some out else None
     end
   /\ length (exported_list_page (selectedMods st) (cartItems st))
      = length (List.filter (fun item => bool_decide (id item ∈ selectedMods st))
                  (cartItems st)))
  /\ handleDownloadSelected true export_scenario
     = Some ["sodium-0.5.jar"; "OldMod(該版本缺失)"].
Proof.
  split; [split|].
  - unfold handleDownloadSelected. rewrite <- exported_list_filter.
    destruct (List.filter _ (cartItems st)); done.
  - rewrite <- exported_list_filter. apply length_fmap.
  - vm_compute. reflexivity.
Qed.

(** C6 does not hold as the specification states it: in scenario C the
    specification's list ends with "OldMod(version missing)", and the
    page exports another. *)
Lemma export_placeholder_is_not_english :
  exported_list_spec (selectedMods export_scenario) (cartItems export_scenario)
    = ["sodium-0.5.jar"; "OldMod(version missing)"] /\
  handleDownloadSelected true export_scenario
    <> Some (exported_list_spec (selectedMods export_scenario) (cartItems export_scenario)).
Proof.
  assert (H : exported_list_spec (selectedMods export_scenario) (cartItems export_scenario)
              = ["sodium-0.5.jar"; "OldMod(version missing)"]) by (vm_compute; reflexivity).
  split; [exact H|]. rewrite H. vm_compute. discriminate.
Qed.

(** ** Share codes *)

Section CodeFacts.
Import Share.

Lemma upper_ascii_idem (c : ascii) : upper_ascii (upper_ascii c) = upper_ascii c.
Proof. destruct c as [[] [] [] [] [] [] [] []]; reflexivity. Qed.

Lemma toUpperCase_idem (s : string) : toUpperCase (toUpperCase s) = toUpperCase s.
Proof.
  unfold toUpperCase. induction s as [|c s IH]; [done|].
  simpl. by rewrite upper_ascii_idem, IH.
Qed.

Lemma requestedCode_upper (body : Body) c :
  requestedCode body = Some c -> toUpperCase c = c /\ truthy c = true.
Proof.
  unfold requestedCode. destruct (code body) as [c0|]; [|discriminate].
  destruct (truthy (toUpperCase c0)) eqn:Ht; [|discriminate].
  intros [= <-]. split; [apply toUpperCase_idem|done].
Qed.

(** Every symbol of the alphabet is an upper-case letter or a digit, and
    there are 36 of them. *)
Lemma alphabet_symbol (i : nat) :
  i < 36 -> exists c, String.get i alphabet = Some c /\ upper_ascii c = c /\
    ((Nat.leb 65 (nat_of_ascii c) && Nat.leb (nat_of_ascii c) 90)
     || (Nat.leb 48 (nat_of_ascii c) && Nat.leb (nat_of_ascii c) 57)) = true.
Proof.
  intros Hi.
  do 36 (destruct i as [|i]; [eexists; split; [reflexivity|split; reflexivity]|]).
  lia.
Qed.

Lemma generateCode_cons byte rest :
  exists c, String.get (byte mod 36) alphabet = Some c /\
    generateCode (byte :: rest) = String c (generateCode rest).
Proof.
  destruct (alphabet_symbol (byte mod 36)) as (c & Hc & _).
  { apply Nat.mod_upper_bound. lia. }
  exists c. split; [done|].
  change (generateCode (byte :: rest)) with
    (match String.get (byte mod 36) alphabet with
     | Some c => String c (generateCode rest)
     | None => generateCode rest
     end).
  by rewrite Hc.
Qed.

Lemma generateCode_length bytes : String.length (generateCode bytes) = length bytes.
Proof.
  induction bytes as [|byte rest IH]; [done|].
  destruct (generateCode_cons byte rest) as (c & _ & ->). simpl. by rewrite IH.
Qed.

Lemma generateCode_upper bytes : toUpperCase (generateCode bytes) = generateCode bytes.
Proof.
  induction bytes as [|byte rest IH]; [done|].
  destruct (generateCode_cons byte rest) as (c & Hc & ->).
  destruct (alphabet_symbol (byte mod 36)) as (c' & Hc' & Hup & _).
  { apply Nat.mod_upper_bound. lia. }
  assert (c' = c) as -> by congruence.
  unfold toUpperCase in *. simpl. by rewrite Hup, IH.
Qed.

Lemma generateCode_symbols bytes :
  Forall (fun c => exists i, i < 36 /\ String.get i alphabet = Some c)
    (symbols (generateCode bytes)).
Proof.
  induction bytes as [|byte rest IH]; [constructor|].
  destruct (generateCode_cons byte rest) as (c & Hc & ->). simpl.
  constructor; [|done]. exists (byte mod 36). split; [|done].
  apply Nat.mod_upper_bound. lia.
Qed.

(** A generated code: 8 symbols of the alphabet, already in upper case. *)
Lemma draw_format rand n :
  String.length (draw rand n) = 8 /\
  Forall (fun c => exists i, i < 36 /\ String.get i alphabet = Some c) (symbols (draw rand n)) /\
  toUpperCase (draw rand n) = draw rand n /\ truthy (draw rand n) = true.
Proof.
  unfold draw. split; [|split; [|split]].
  - rewrite generateCode_length. unfold randomBytes. by rewrite length_fmap, length_seq.
  - apply generateCode_symbols.
  - apply generateCode_upper.
  - unfold randomBytes. simpl.
    destruct (generateCode_cons (rand n 0 mod 256)
                ((fun i => rand n i mod 256) <$> seq 1 7)) as (c & _ & Heq).
    simpl in Heq. by rewrite Heq.
Qed.
End CodeFacts.

(** *** The file store *)

Section FileStoreFacts.
Import Share FileRoute.

Lemma store_get_app store k kv :
  store_get (store ++ [kv]) k =
    match store_get store k with
    | Some v => Some v
    | None => if String.eqb kv.1 k then Some kv.2 else None
    end.
Proof.
  induction store as [|[k' v'] store IH]; simpl.
  - by destruct kv.
  - destruct (String.eqb k' k); [done|apply IH].
Qed.

Lemma store_get_replace k v store :
  is_Some (store_get store k) -> store_get (replace k v store) k = Some v.
Proof.
  induction store as [|[k' v'] store IH]; simpl; [by intros [? ?]|].
  destruct (String.eqb k' k) eqn:Hk; simpl.
  - by rewrite String.eqb_refl.
  - rewrite Hk. apply IH.
Qed.

Lemma store_get_insert_index n k v store :
  store_get store k = None -> store_get (insert_index n k v store) k = Some v.
Proof.
  induction store as [|[k' v'] store IH]; simpl.
  - by rewrite String.eqb_refl.
  - destruct (String.eqb k' k) eqn:Hk; [discriminate|]. intros Hget.
    destruct (array_index k') as [n'|]; [destruct (n' <? n)%N|]; simpl;
      rewrite ?Hk, ?String.eqb_refl; auto.
Qed.

(** After [store[k] = v], [store[k]] is [v]. *)
Lemma store_get_set k v store : store_get (store_set k v store) k = Some v.
Proof.
  unfold store_set. destruct (store_get store k) as [v0|] eqn:Hget.
  - apply store_get_replace. by exists v0.
  - destruct (array_index k) as [n|].
    + by apply store_get_insert_index.
    + rewrite store_get_app, Hget. simpl. by rewrite String.eqb_refl.
Qed.

Lemma find_by_hash_Some store h c :
  find_by_hash store h = Some c -> exists p, (c, p) ∈ store /\ contentHash p = h.
Proof.
  induction store as [|[k p] store IH]; simpl; [discriminate|].
  destruct (String.eqb (contentHash p) h) eqn:Hh.
  - intros [= <-]. exists p. split; [by left|]. by apply String.eqb_eq.
  - intros H. destruct (IH H) as (p' & ? & ?). exists p'. split; [by right|done].
Qed.

Lemma find_by_hash_hit store h kp :
  kp ∈ store -> contentHash kp.2 = h -> is_Some (find_by_hash store h).
Proof.
  induction store as [|[k p] store IH]; intros Hin Hh; [by apply elem_of_nil in Hin|].
  simpl. destruct (String.eqb (contentHash p) h) eqn:Hp; [by eexists|].
  apply elem_of_cons in Hin as [->|Hin]; [|by apply IH].
  simpl in Hh. apply String.eqb_neq in Hp. done.
Qed.

Lemma find_by_hash_app store h k p :
  find_by_hash store h = None -> contentHash p = h ->
  find_by_hash (store ++ [(k, p)]) h = Some k.
Proof.
  intros Hnone Hp. induction store as [|[k' p'] store IH]; simpl in *.
  - apply String.eqb_eq in Hp. by rewrite Hp.
  - destruct (String.eqb (contentHash p') h); [discriminate|]. by apply IH.
Qed.

Lemma find_by_hash_insert_index store h n k p :
  find_by_hash store h = None -> contentHash p = h ->
  find_by_hash (insert_index n k p store) h = Some k.
Proof.
  intros Hnone Hp. apply String.eqb_eq in Hp.
  induction store as [|[k' p'] store IH]; simpl in *.
  - by rewrite Hp.
  - destruct (String.eqb (contentHash p') h) eqn:Hp'; [discriminate|].
    destruct (array_index k') as [n'|]; [destruct (n' <? n)%N|]; simpl;
      rewrite ?Hp, ?Hp'; auto.
Qed.

(** A new record with a fingerprint no record had is the one found by
    that fingerprint. *)
Lemma find_by_hash_set store h k p :
  find_by_hash store h = None -> store_get store k = None -> contentHash p = h ->
  find_by_hash (store_set k p store) h = Some k.
Proof.
  intros Hnone Hget Hp. unfold store_set. rewrite Hget.
  destruct (array_index k) as [n|].
  - by apply find_by_hash_insert_index.
  - by apply find_by_hash_app.
Qed.

Lemma fresh_code_free fuel store rand n code c :
  fresh_code fuel store rand n code = Some c -> store_get store c = None.
Proof.
  revert n code. induction fuel as [|fuel IH]; intros n code; simpl;
    destruct (store_get store code) eqn:Hget; try discriminate;
    try (by intros [= <-]).
  apply IH.
Qed.
End FileStoreFacts.

(** *** The table *)

Section TableFacts.
Import Share Db.

Lemma find_app {A} (f : A -> bool) (l1 l2 : list A) :
  List.find f (l1 ++ l2) =
    match List.find f l1 with
    | Some x => Some x
    | None => List.find f l2
    end.
Proof. induction l1 as [|x l1 IH]; simpl; [done|]. by destruct (f x). Qed.

Lemma find_filter_out (k : string) (db : Table) :
  List.find (fun r => String.eqb (row_id r) k)
    (List.filter (fun r => negb (String.eqb (row_id r) k)) db) = None.
Proof.
  induction db as [|r db IH]; simpl; [done|].
  destruct (String.eqb (row_id r) k) eqn:Hk; simpl; [done|]. by rewrite Hk.
Qed.

Lemma find_filter_other (k k' : string) (db : Table) :
  k' <> k ->
  List.find (fun r => String.eqb (row_id r) k')
    (List.filter (fun r => negb (String.eqb (row_id r) k)) db)
  = List.find (fun r => String.eqb (row_id r) k') db.
Proof.
  intros Hne. induction db as [|r db IH]; simpl; [done|].
  destruct (String.eqb (row_id r) k) eqn:Hk; simpl.
  - apply String.eqb_eq in Hk. rewrite Hk.
    assert (String.eqb k k' = false) as -> by (apply String.eqb_neq; congruence). done.
  - destruct (String.eqb (row_id r) k'); [done|apply IH].
Qed.

Lemma find_none_filter {A} (f g : A -> bool) (l : list A) :
  List.find f l = None -> List.find f (List.filter g l) = None.
Proof.
  induction l as [|x l IH]; simpl; [done|].
  destruct (f x) eqn:Hf; [discriminate|]. intros H.
  destruct (g x); simpl; [rewrite Hf|]; auto.
Qed.

Lemma getShareCode_save now c p db :
  getShareCode (saveShareCode now c p db) c = Some p.
Proof.
  unfold getShareCode, saveShareCode. rewrite find_app, find_filter_out. simpl.
  by rewrite String.eqb_refl.
Qed.

Lemma getShareCode_save_other now c p db c' :
  toUpperCase c' <> toUpperCase c ->
  getShareCode (saveShareCode now c p db) c' = getShareCode db c'.
Proof.
  intros Hne. unfold getShareCode, saveShareCode.
  rewrite find_app, find_filter_other; [|done].
  destruct (List.find _ db); [done|]. simpl.
  assert (String.eqb (toUpperCase c) (toUpperCase c') = false) as ->
    by (apply String.eqb_neq; congruence). done.
Qed.

Lemma findShareCodeByHash_Some db h c :
  findShareCodeByHash db h = Some c ->
  exists r, r ∈ db /\ row_id r = c /\ contentHash (row_payload r) = h.
Proof.
  unfold findShareCodeByHash.
  destruct (List.find _ db) as [r|] eqn:Hfind; [|discriminate].
  destruct (truthy (row_id r)); [|discriminate]. intros [= <-].
  apply find_some in Hfind as [Hin Hh]. exists r.
  split; [by apply list_elem_of_In|]. split; [done|]. by apply String.eqb_eq.
Qed.

Lemma findShareCodeByHash_hit db h r :
  ids_nonempty db -> r ∈ db -> contentHash (row_payload r) = h ->
  is_Some (findShareCodeByHash db h).
Proof.
  intros Hids Hin Hh. unfold findShareCodeByHash.
  destruct (List.find _ db) as [r'|] eqn:Hfind.
  - apply find_some in Hfind as [Hin' _].
    unfold ids_nonempty in Hids. rewrite Forall_forall in Hids.
    rewrite (Hids r'); [by eexists|]. by apply list_elem_of_In.
  - exfalso. pose proof (find_none _ _ Hfind r) as Hr. simpl in Hr.
    rewrite (proj2 (String.eqb_eq _ _) Hh) in Hr.
    by specialize (Hr (proj1 (list_elem_of_In _ _) Hin)).
Qed.

Lemma findShareCodeByHash_None db h :
  ids_nonempty db -> findShareCodeByHash db h = None ->
  List.find (fun r => String.eqb (contentHash (row_payload r)) h) db = None.
Proof.
  intros Hids. unfold findShareCodeByHash.
  destruct (List.find _ db) as [r|] eqn:Hfind; [|done].
  apply find_some in Hfind as [Hin _].
  unfold ids_nonempty in Hids. rewrite Forall_forall in Hids.
  rewrite (Hids r); [discriminate|]. by apply list_elem_of_In.
Qed.

(** A new row with a fingerprint no row had is the one found by it. *)
Lemma findShareCodeByHash_save now c p db h :
  ids_nonempty db -> findShareCodeByHash db h = None ->
  contentHash p = h -> toUpperCase c = c -> truthy c = true ->
  findShareCodeByHash (saveShareCode now c p db) h = Some c.
Proof.
  intros Hids Hnone Hp Hup Ht. apply findShareCodeByHash_None in Hnone; [|done].
  unfold findShareCodeByHash, saveShareCode.
  rewrite find_app, find_none_filter; [|done].
  cbn [List.find row_payload row_id].
  apply String.eqb_eq in Hp. rewrite Hp. cbn [row_id]. by rewrite Hup, Ht.
Qed.

(** The retry loop: at most [budget] more attempts, and a code it stops on
    before the budget is spent is free. *)
Lemma regenerate_spec budget db rand code attempts code' attempts' :
  regenerate budget db rand code attempts = (code', attempts') ->
  attempts <= attempts' <= attempts + budget /\
  (attempts' < attempts + budget -> getShareCode db code' = None) /\
  (code' = code \/ exists n, code' = draw rand n).
Proof.
  revert code attempts. induction budget as [|budget IH]; intros code attempts; simpl.
  - intros [= <- <-]. split; [lia|]. split; [lia|by left].
  - destruct (getShareCode db code) eqn:Hget.
    + intros H. apply IH in H as (Hle & Hfree & Hdrawn).
      split; [lia|]. split; [intros; apply Hfree; lia|].
      right. destruct Hdrawn as [->|?]; [by eexists|done].
    + intros [= <- <-]. split; [lia|]. split; [done|by left].
Qed.

(** While every code drawn is taken, the loop uses up its budget. *)
Lemma regenerate_exhausted budget db rand code attempts :
  is_Some (getShareCode db code) ->
  (forall n, is_Some (getShareCode db (draw rand n))) ->
  (regenerate budget db rand code attempts).2 = attempts + budget.
Proof.
  revert code attempts. induction budget as [|budget IH]; intros code attempts Hc Hall; simpl.
  - lia.
  - destruct Hc as [p ->]. rewrite IH; [lia|apply Hall|done].
Qed.
End TableFacts.

(** *** Issuing *)

Section IssueFacts.
Import Share Db.
Variable stringify : Normalized -> string.
Variable sha256_hex : string -> string.

(** What the generation step of the two table routes does. *)
Lemma issue_fresh_spec rand now body hash updated db reply db' :
  SqliteRoute.issue_fresh rand now body hash updated db = (reply, db') ->
  (reply = FailedToGenerate /\ db' = db) \/
  (exists c, reply = Issued c updated /\ getShareCode db c = None /\
     toUpperCase c = c /\ truthy c = true /\
     db' = saveShareCode now c (payload_of body hash now) db).
Proof.
  unfold SqliteRoute.issue_fresh.
  destruct (regenerate 100 db rand (draw rand 0) 0) as [c attempts] eqn:Hloop.
  apply regenerate_spec in Hloop as (Hle & Hfree & Hdrawn).
  destruct (Nat.leb 100 attempts) eqn:Hfull.
  - intros [= <- <-]. by left.
  - intros [= <- <-]. right. exists c. apply Nat.leb_gt in Hfull.
    assert (exists n, c = draw rand n) as [n ->].
    { destruct Hdrawn as [->|?]; [by exists 0|done]. }
    destruct (draw_format rand n) as (_ & _ & Hup & Ht).
    repeat split; try done. apply Hfree. lia.
Qed.

(** C7, amended. Resubmitting an existing code with changed content:
    the file route and the overwriting table route store the new payload
    under that same code and answer with it and [updated = true]; the
    re-issuing table route leaves the record under that code as it was and
    answers as for a new submission: the code that already holds the
    fingerprint with [updated = false], or a freshly generated code, saved
    with the new payload, with [updated = true], or the generation
    error. *)
Theorem resubmitted_code rand now body c :
  missing_payload body = false -> requestedCode body = Some c ->
  let hash := computeHash stringify sha256_hex body in
  (forall fuel store p,
     FileRoute.store_get store c = Some p -> contentHash p <> hash ->
     exists store',
       FileRoute.POST stringify sha256_hex fuel rand now body store
         = Some (Issued c true, store') /\
       FileRoute.store_get store' c = Some (payload_of body hash now)) /\
  (forall db p,
     getShareCode db c = Some p -> contentHash p <> hash ->
     exists db',
       SqliteRoute.POST stringify sha256_hex rand now body db = (Issued c true, db') /\
       getShareCode db' c = Some (payload_of body hash now)) /\
  (forall db p,
     getShareCode db c = Some p -> contentHash p <> hash ->
     exists reply db',
       ReissueRoute.POST stringify sha256_hex rand now body db = (reply, db') /\
       getShareCode db' c = Some p /\
       ((reply = FailedToGenerate /\ db' = db) \/
        (exists c', reply = Issued c' false /\ db' = db /\
           findShareCodeByHash db hash = Some c') \/
        (exists c', reply = Issued c' true /\ getShareCode db c' = None /\
           getShareCode db' c' = Some (payload_of body hash now)))).
Proof.
  intros Hvalid Hcode hash. split; [|split].
  - intros fuel store p Hget Hne. eexists. split.
    + unfold FileRoute.POST. rewrite Hvalid, Hcode, Hget. fold hash.
      apply String.eqb_neq in Hne. rewrite Hne. reflexivity.
    + apply store_get_set.
  - intros db p Hget Hne. eexists. split.
    + unfold SqliteRoute.POST. rewrite Hvalid, Hcode, Hget. fold hash.
      apply String.eqb_neq in Hne. rewrite Hne. reflexivity.
    + apply getShareCode_save.
  - intros db p Hget Hne.
    destruct (ReissueRoute.POST stringify sha256_hex rand now body db) as [reply db'] eqn:Hpost.
    exists reply, db'. split; [done|].
    unfold ReissueRoute.POST in Hpost. rewrite Hvalid, Hcode, Hget in Hpost.
    fold hash in Hpost. apply String.eqb_neq in Hne. rewrite Hne in Hpost.
    destruct (findShareCodeByHash db hash) as [c'|] eqn:Hfind.
    + injection Hpost as <- <-. split; [done|]. right. left. by exists c'.
    + apply issue_fresh_spec in Hpost as [[-> ->]|(c' & -> & Hfree & Hup & _ & ->)].
      * split; [done|]. by left.
      * destruct (requestedCode_upper body c Hcode) as [Hc _].
        split.
        -- rewrite getShareCode_save_other; [done|].
           rewrite Hup, Hc. intros ->. congruence.
        -- right. right. exists c'. split; [done|]. split; [done|].
           apply getShareCode_save.
Qed.

(** C8. A submission without a code whose fingerprint some stored record
    already has is answered with the code of such a record and
    [updated = false], and nothing is written; and submitting the same
    content twice without a code gives the same code both times, the
    second submission leaving the records as the first left them.  This
    holds of the file route and of both table routes. *)
Theorem identical_content_reuses_code body :
  missing_payload body = false -> code body = None ->
  let hash := computeHash stringify sha256_hex body in
  (forall fuel rand now store,
     ((exists kp, kp ∈ store /\ contentHash kp.2 = hash) ->
      exists c p,
        FileRoute.POST stringify sha256_hex fuel rand now body store
          = Some (Issued c false, store) /\
        (c, p) ∈ store /\ contentHash p = hash) /\
     (forall c u store1,
        FileRoute.POST stringify sha256_hex fuel rand now body store
          = Some (Issued c u, store1) ->
        u = false /\
        forall fuel' rand' now',
          FileRoute.POST stringify sha256_hex fuel' rand' now' body store1
            = Some (Issued c false, store1))) /\
  (forall rand now db, ids_nonempty db ->
     ((exists r, r ∈ db /\ contentHash (row_payload r) = hash) ->
      exists c r,
        SqliteRoute.POST stringify sha256_hex rand now body db = (Issued c false, db) /\
        r ∈ db /\ row_id r = c /\ contentHash (row_payload r) = hash) /\
     (forall c u db1,
        SqliteRoute.POST stringify sha256_hex rand now body db = (Issued c u, db1) ->
        u = false /\
        forall rand' now',
          SqliteRoute.POST stringify sha256_hex rand' now' body db1
            = (Issued c false, db1))) /\
  (forall rand now db, ids_nonempty db ->
     ((exists r, r ∈ db /\ contentHash (row_payload r) = hash) ->
      exists c r,
        ReissueRoute.POST stringify sha256_hex rand now body db = (Issued c false, db) /\
        r ∈ db /\ row_id r = c /\ contentHash (row_payload r) = hash) /\
     (forall c u db1,
        ReissueRoute.POST stringify sha256_hex rand now body db = (Issued c u, db1) ->
        u = false /\
        forall rand' now',
          ReissueRoute.POST stringify sha256_hex rand' now' body db1
            = (Issued c false, db1))).
Proof.
  intros Hvalid Hnocode hash.
  assert (Hreq : requestedCode body = None) by (unfold requestedCode; by rewrite Hnocode).
  split; [|split].
  - intros fuel rand now store. split.
    + intros (kp & Hin & Hh).
      destruct (find_by_hash_hit store hash kp Hin Hh) as [c Hc].
      destruct (find_by_hash_Some _ _ _ Hc) as (p & Hp & Hph).
      exists c, p. split; [|done].
      unfold FileRoute.POST. rewrite Hvalid, Hreq. fold hash. by rewrite Hc.
    + intros c u store1 Hpost.
      unfold FileRoute.POST in Hpost. rewrite Hvalid, Hreq in Hpost. fold hash in Hpost.
      destruct (FileRoute.find_by_hash store hash) as [c0|] eqn:Hfind.
      * injection Hpost as <- <- <-. split; [done|]. intros fuel' rand' now'.
        unfold FileRoute.POST. rewrite Hvalid, Hreq. fold hash. by rewrite Hfind.
      * destruct (FileRoute.fresh_code fuel store rand 1 (draw rand 0)) as [c1|] eqn:Hfresh;
          [|discriminate].
        injection Hpost as <- <- <-. split; [done|]. intros fuel' rand' now'.
        unfold FileRoute.POST. rewrite Hvalid, Hreq. fold hash.
        rewrite find_by_hash_set; try done. by eapply fresh_code_free.
  - intros rand now db Hids. split.
    + intros (r & Hin & Hh).
      destruct (findShareCodeByHash_hit db hash r Hids Hin Hh) as [c Hc].
      destruct (findShareCodeByHash_Some _ _ _ Hc) as (r' & ? & ? & ?).
      exists c, r'. split; [|done].
      unfold SqliteRoute.POST. rewrite Hvalid, Hreq. fold hash. by rewrite Hc.
    + intros c u db1 Hpost.
      unfold SqliteRoute.POST in Hpost. rewrite Hvalid, Hreq in Hpost. fold hash in Hpost.
      destruct (findShareCodeByHash db hash) as [c0|] eqn:Hfind.
      * injection Hpost as <- <- <-. split; [done|]. intros rand' now'.
        unfold SqliteRoute.POST. rewrite Hvalid, Hreq. fold hash. by rewrite Hfind.
      * apply issue_fresh_spec in Hpost as [[? _]|(c' & Hr & _ & Hup & Ht & ->)];
          [discriminate|].
        injection Hr as Hc Hu. subst c' u. split; [done|]. intros rand' now'.
        unfold SqliteRoute.POST. rewrite Hvalid, Hreq. fold hash.
        by rewrite (findShareCodeByHash_save now c (payload_of body hash now) db hash Hids Hfind eq_refl Hup Ht).
  - intros rand now db Hids. split.
    + intros (r & Hin & Hh).
      destruct (findShareCodeByHash_hit db hash r Hids Hin Hh) as [c Hc].
      destruct (findShareCodeByHash_Some _ _ _ Hc) as (r' & ? & ? & ?).
      exists c, r'. split; [|done].
      unfold ReissueRoute.POST. rewrite Hvalid, Hreq. fold hash. by rewrite Hc.
    + intros c u db1 Hpost.
      unfold ReissueRoute.POST in Hpost. rewrite Hvalid, Hreq in Hpost. fold hash in Hpost.
      destruct (findShareCodeByHash db hash) as [c0|] eqn:Hfind.
      * injection Hpost as <- <- <-. split; [done|]. intros rand' now'.
        unfold ReissueRoute.POST. rewrite Hvalid, Hreq. fold hash. by rewrite Hfind.
      * apply issue_fresh_spec in Hpost as [[? _]|(c' & Hr & _ & Hup & Ht & ->)];
          [discriminate|].
        injection Hr as Hc Hu. subst c' u. split; [done|]. intros rand' now'.
        unfold ReissueRoute.POST. rewrite Hvalid, Hreq. fold hash.
        by rewrite (findShareCodeByHash_save now c (payload_of body hash now) db hash Hids Hfind eq_refl Hup Ht).
Qed.

(** The rows the table routes write have non-empty ids. *)
Lemma saveShareCode_ids_nonempty now c p db :
  truthy (toUpperCase c) = true -> ids_nonempty db ->
  ids_nonempty (saveShareCode now c p db).
Proof.
  intros Ht Hids. unfold ids_nonempty, saveShareCode in *.
  apply Forall_app. split.
  - rewrite Forall_forall in *. intros r Hr.
    apply list_elem_of_In, filter_In in Hr as [Hr _]. by apply Hids, list_elem_of_In.
  - by constructor.
Qed.

Lemma issue_fresh_ids_nonempty rand now body hash updated db :
  ids_nonempty db ->
  ids_nonempty (SqliteRoute.issue_fresh rand now body hash updated db).2.
Proof.
  intros Hids.
  destruct (SqliteRoute.issue_fresh rand now body hash updated db) as [reply db'] eqn:H.
  apply issue_fresh_spec in H as [[_ ->]|(c & _ & _ & Hup & Ht & ->)]; [done|].
  simpl. apply saveShareCode_ids_nonempty; [|done]. by rewrite Hup.
Qed.

Lemma POST_ids_nonempty rand now body db :
  ids_nonempty db ->
  ids_nonempty (SqliteRoute.POST stringify sha256_hex rand now body db).2 /\
  ids_nonempty (ReissueRoute.POST stringify sha256_hex rand now body db).2.
Proof.
  intros Hids. split.
  - unfold SqliteRoute.POST. destruct (missing_payload body); [done|].
    destruct (requestedCode body) as [c|] eqn:Hc.
    + destruct (requestedCode_upper body c Hc) as [Hup Ht].
      destruct (getShareCode db c) as [p|].
      * destruct (String.eqb _ _); [done|]. simpl.
        apply saveShareCode_ids_nonempty; [|done]. by rewrite Hup.
      * destruct (findShareCodeByHash db _); [done|]. by apply issue_fresh_ids_nonempty.
    + destruct (findShareCodeByHash db _); [done|]. by apply issue_fresh_ids_nonempty.
  - unfold ReissueRoute.POST. destruct (missing_payload body); [done|].
    destruct (match requestedCode body with Some _ => _ | None => _ end); [done|].
    destruct (findShareCodeByHash db _); [done|]. by apply issue_fresh_ids_nonempty.
Qed.

(** The table routes give up after 100 retries: when the first code and
    the 100 drawn after it are all taken, the reply is the generation
    error and nothing is written; and no more than 101 codes are drawn. *)
Lemma table_route_gives_up rand now body hash updated db :
  (forall n, is_Some (getShareCode db (draw rand n))) ->
  SqliteRoute.issue_fresh rand now body hash updated db = (FailedToGenerate, db).
Proof.
  intros Hall. unfold SqliteRoute.issue_fresh.
  pose proof (regenerate_exhausted 100 db rand (draw rand 0) 0 (Hall 0) Hall) as Hex.
  destruct (regenerate 100 db rand (draw rand 0) 0) as [c attempts].
  simpl in Hex. subst attempts. done.
Qed.
End IssueFacts.

Import Share Sample.

Lemma resubmitted_code_witness :
  missing_payload edited_list = false /\ requestedCode edited_list = Some "ABCD1234" /\
  exists db',
    SqliteRoute.POST sample_stringify sample_digest stuck_source later edited_list shared_table
      = (Issued "ABCD1234" true, db') /\
    Db.getShareCode db' "ABCD1234"
      = Some (payload_of edited_list (sample_hash edited_list) later).
Proof.
  split; [reflexivity|]. split; [reflexivity|].
  destruct (resubmitted_code sample_stringify sample_digest stuck_source later
              edited_list "ABCD1234" eq_refl eq_refl) as (_ & Htable & _).
  apply (Htable shared_table first_payload); [reflexivity|].
  intros H. vm_compute in H. discriminate.
Defined.

(** C7 does not hold of the re-issuing route: the changed list
    resubmitted under "ABCD1234" is answered with another code, and the
    record under "ABCD1234" is the old one. *)
Lemma reissue_route_issues_another_code :
  Db.getShareCode shared_table "ABCD1234" = Some first_payload /\
  contentHash first_payload <> sample_hash edited_list /\
  exists db',
    ReissueRoute.POST sample_stringify sample_digest stuck_source later edited_list shared_table
      = (Issued "AAAAAAAA" true, db') /\
    Issued "AAAAAAAA" true <> Issued "ABCD1234" true /\
    Db.getShareCode db' "ABCD1234" = Some first_payload.
Proof.
  split; [reflexivity|]. split; [intros H; vm_compute in H; discriminate|].
  eexists. split; [vm_compute; reflexivity|]. split; [discriminate|reflexivity].
Qed.

Lemma identical_content_reuses_code_witness :
  missing_payload first_list = false /\ code first_list = None /\
  exists db1,
    SqliteRoute.POST sample_stringify sample_digest stuck_source later first_list []
      = (Issued "AAAAAAAA" false, db1) /\
    length db1 = 1 /\
    SqliteRoute.POST sample_stringify sample_digest stuck_source later first_list db1
      = (Issued "AAAAAAAA" false, db1).
Proof.
  split; [reflexivity|]. split; [reflexivity|].
  destruct (identical_content_reuses_code sample_stringify sample_digest first_list
              eq_refl eq_refl) as (_ & Htable & _).
  destruct (Htable stuck_source later [] (Forall_nil_2 _)) as [_ Htwice].
  eexists. split; [vm_compute; reflexivity|]. split; [reflexivity|].
  refine (proj2 (Htwice "AAAAAAAA" false _ _) stuck_source later).
  vm_compute. reflexivity.
Defined.

(** C9. With the code "AAAAAAAA" taken and a random source that keeps
    drawing it, the file route never returns: its loop is still running
    after any number of iterations, where the specification has the
    request fail with the generation error after 100 retries, as the table
    route does on the same input. *)
Theorem file_route_retries_without_bound :
  (forall fuel,
     FileRoute.POST sample_stringify sample_digest fuel stuck_source later second_list
       taken_store = None) /\
  SqliteRoute.POST sample_stringify sample_digest stuck_source later second_list taken_table
    = (FailedToGenerate, taken_table).
Proof.
  split; [|vm_compute; reflexivity].
  assert (Hloop : forall fuel n,
            FileRoute.fresh_code fuel taken_store stuck_source n "AAAAAAAA" = None).
  { induction fuel as [|fuel IH]; intros n; [reflexivity|]. simpl. apply IH. }
  intros fuel. unfold FileRoute.POST.
  change (missing_payload second_list) with false.
  change (requestedCode second_list) with (@None string). cbv iota.
  change (FileRoute.find_by_hash taken_store
            (computeHash sample_stringify sample_digest second_list)) with (@None string).
  cbv iota. change (draw stuck_source 0) with "AAAAAAAA". by rewrite Hloop.
Qed.

(** * Further properties

    ** The runner: calls in flight, rejected calls, no runner *)

Section PoolMore.
Import Pool PoolInv.
Context {T : Type}.
Variable worker : T -> Settled T.
Implicit Types s : @State T.

(** Every schedule is a run. *)
Lemma exec_steps sched s : steps worker s (exec worker sched s).
Proof.
  revert s. induction sched as [|k sched IH]; intros s; simpl.
  - constructor.
  - destruct (step_runner worker k s) as [s'|] eqn:E; [|apply IH].
    eapply steps_trans; [|apply IH].
    eapply steps_more; [constructor|]. by exists k.
Qed.

(** Two runners never wait for the same index. *)
Lemma step_in_flight (items : list T) k s j s' :
  inv_at worker items k s ->
  (forall j1 j2 v1 v2 i,
     runners s !! j1 = Some (Awaiting (v1, i)) ->
     runners s !! j2 = Some (Awaiting (v2, i)) -> j1 = j2) ->
  step_runner worker j s = Some s' ->
  forall j1 j2 v1 v2 i,
    runners s' !! j1 = Some (Awaiting (v1, i)) ->
    runners s' !! j2 = Some (Awaiting (v2, i)) -> j1 = j2.
Proof.
  intros Hinv IH Hstep j1 j2 v1 v2 i H1 H2.
  unfold step_runner in Hstep.
  destruct (runners s !! j) as [[|[v i0]| |]|] eqn:Hj; try discriminate.
  - destruct (queue s) as [|next rest] eqn:Hqs; injection Hstep as <-; simpl in *.
    + apply other_runner in H1 as [[_ ?]|[_ H1]]; [discriminate|].
      apply other_runner in H2 as [[_ ?]|[_ H2]]; [discriminate|]. eauto.
    + pose proof (inv_queue _ _ _ _ Hinv) as Hq. rewrite Hqs in Hq.
      symmetry in Hq. apply queue_head in Hq as (_ & _ & Hi & _).
      apply other_runner in H1 as [[-> E1]|[N1 H1]];
        apply other_runner in H2 as [[-> E2]|[N2 H2]]; [done| | |eauto].
      * injection E1 as E1. subst next. simpl in Hi. subst i.
        destruct (inv_await _ _ _ _ Hinv _ _ _ H2). lia.
      * injection E2 as E2. subst next. simpl in Hi. subst i.
        destruct (inv_await _ _ _ _ Hinv _ _ _ H1). lia.
  - simpl in Hstep.
    destruct (worker v); injection Hstep as <-; simpl in *;
      apply other_runner in H1 as [[_ ?]|[_ H1]]; try discriminate;
      apply other_runner in H2 as [[_ ?]|[_ H2]]; try discriminate; eauto.
Qed.

(** X1. During a run of [runPool], whatever the schedule: there are
    [limit] runners, so at most [limit] worker calls are in flight; every
    call in flight is for an item of the input at its own index; no two
    runners wait for the same index; and no index is handed to the worker
    twice. *)
Theorem runPool_calls_in_flight (items : list T) (limit : nat) s :
  steps worker (init items limit) s ->
  length (List.filter (fun r => match r with Awaiting _ => true | _ => false end)
            (runners s)) <= limit /\
  NoDup (calls s) /\
  (forall j v i, runners s !! j = Some (Awaiting (v, i)) ->
     items !! i = Some v /\ i ∈ calls s) /\
  (forall j1 j2 v1 v2 i,
     runners s !! j1 = Some (Awaiting (v1, i)) ->
     runners s !! j2 = Some (Awaiting (v2, i)) -> j1 = j2).
Proof.
  intros Hsteps.
  pose proof (steps_runners_length worker _ _ _ Hsteps) as Hlen.
  destruct (steps_invariant worker _ _ _ Hsteps) as [k Hinv].
  split; [|split; [|split]].
  - rewrite <- Hlen. apply List.filter_length_le.
  - rewrite (inv_calls _ _ _ _ Hinv). apply NoDup_ListNoDup, List.seq_NoDup.
  - intros j v i Hj. destruct (inv_await _ _ _ _ Hinv _ _ _ Hj) as [Hi Hv].
    split; [done|]. rewrite (inv_calls _ _ _ _ Hinv).
    apply list_elem_of_In, in_seq. lia.
  - clear k Hinv Hlen. induction Hsteps as [|s' s'' Hs IH [j Hj]].
    + intros j1 j2 v1 v2 i H1 _. simpl in H1.
      apply lookup_replicate in H1 as [? _]. discriminate.
    + destruct (steps_invariant worker _ _ _ Hs) as [k Hinv].
      eapply step_in_flight; eauto.
Qed.

(** X2. A run of [runPool] with a positive limit, whatever the worker and
    the schedule.  It ends: in every state of the run each runner that has
    not ended can move (so a state that is not finished has a next
    state), every move uses up fuel, of which there is
    [3 * length items + 2 * limit] at the start, and a finished state is
    reached.  In every finished state its promise rejects when some
    item's worker call rejects, and fulfils with the workers' values in
    input order otherwise; and a rejected call cancels nothing: when a
    runner has returned, every index was handed to the worker. *)
Theorem runPool_settles (items : list T) (limit : nat) :
  0 < limit ->
  (forall s k r, steps worker (init items limit) s ->
     runners s !! k = Some r -> ended r = false ->
     exists s', step_runner worker k s = Some s') /\
  (forall s, steps worker (init items limit) s -> quiescent s = false ->
     exists s', step worker s s') /\
  (forall s s', steps worker (init items limit) s -> step worker s s' -> fuel s' < fuel s) /\
  fuel (init items limit) = 3 * length items + 2 * limit /\
  (exists s, steps worker (init items limit) s /\ quiescent s = true) /\
  (forall s, steps worker (init items limit) s -> quiescent s = true ->
     outcome s =
       match settled_all (worker <$> items) with
       | Fulfilled rs => Fulfilled (Some <$> rs)
       | Rejects => Rejects
       end /\
     ((exists v, v ∈ items /\ worker v = Rejects) -> outcome s = Rejects) /\
     ((exists j, runners s !! j = Some Returned) -> calls s = seq 0 (length items))).
Proof.
  intros Hlimit. split; [|split; [|split; [|split; [|split]]]].
  - intros s k r _. apply runner_moves.
  - intros s _. apply progress.
  - intros s s' _. apply step_fuel.
  - apply init_fuel.
  - destruct (run_to_end worker (fuel (init items limit)) (init items limit)) as (s & Hs & Hq);
      [lia|]. by exists s.
  - intros s Hsteps Hq.
    pose proof (runPool_agrees worker items limit s Hlimit Hsteps Hq) as Hagree.
    unfold Cart.runPool in Hagree. split; [done|]. split.
    + intros (v & Hv & Hw). rewrite Hagree.
      rewrite settled_all_rejects; [done|]. rewrite <- Hw. by apply list_elem_of_fmap_2.
    + intros [j Hj]. destruct (steps_invariant worker _ _ _ Hsteps) as [k Hinv].
      pose proof (inv_returned _ _ _ _ Hinv _ Hj) as Hempty.
      rewrite (inv_queue _ _ _ _ Hinv) in Hempty.
      pose proof (f_equal length Hempty) as HL.
      rewrite length_drop, indexed_length in HL. simpl in HL.
      pose proof (inv_le _ _ _ _ Hinv).
      rewrite (inv_calls _ _ _ _ Hinv). f_equal. lia.
Qed.

(** X3. With limit 0 there is no runner: the initial state is the only
    state of the run, the worker is never called, and the promise fulfils
    with an array of [list.length] holes, whatever the list. *)
Theorem runPool_without_runner (items : list T) s :
  steps worker (init items 0) s ->
  s = init items 0 /\ calls s = [] /\ quiescent s = true /\
  outcome s = Fulfilled (replicate (length items) None).
Proof.
  intros Hsteps.
  assert (s = init items 0) as ->.
  { induction Hsteps as [|s' s'' _ IH [j Hj]]; [done|].
    subst s'. unfold step_runner in Hj. simpl in Hj. discriminate. }
  done.
Qed.

End PoolMore.

Lemma runPool_calls_in_flight_witness :
  let worker := fun v => Fulfilled (S v) in
  let s := Pool.exec worker [0; 1] (Pool.init [10; 20; 30] 2) in
  Pool.runners s = [Pool.Awaiting (10, 0); Pool.Awaiting (20, 1)] /\
  length (List.filter (fun r => match r with Pool.Awaiting _ => true | _ => false end)
            (Pool.runners s)) <= 2 /\
  NoDup (Pool.calls s).
Proof.
  intros worker s. split; [reflexivity|].
  destruct (runPool_calls_in_flight worker [10; 20; 30] 2 s (exec_steps worker _ _))
    as (H1 & H2 & _).
  split; [exact H1|exact H2].
Defined.

Lemma runPool_settles_witness :
  let worker := fun v => if Nat.eqb v 20 then Rejects else Fulfilled (S v) in
  0 < 2 /\
  (forall s, Pool.steps worker (Pool.init [10; 20; 30] 2) s -> Pool.quiescent s = false ->
     exists s', Pool.step worker s s') /\
  forall s, Pool.steps worker (Pool.init [10; 20; 30] 2) s -> Pool.quiescent s = true ->
    Pool.outcome s = Rejects.
Proof.
  intros worker.
  destruct (runPool_settles worker [10; 20; 30] 2 ltac:(lia)) as (_ & Hmoves & _ & _ & _ & H).
  split; [lia|]. split; [exact Hmoves|]. intros s Hs Hq.
  destruct (H s Hs Hq) as [H1 _]. exact H1.
Defined.

Lemma runPool_without_runner_witness :
  let worker := fun v : nat => Fulfilled (S v) in
  Pool.steps worker (Pool.init [10; 20] 0) (Pool.init [10; 20] 0) /\
  Pool.outcome (Pool.init (T := nat) [10; 20] 0) = Fulfilled [None; None].
Proof.
  intros worker. split; [constructor|].
  destruct (runPool_without_runner worker [10; 20] (Pool.init [10; 20] 0)
              (Pool.steps_refl worker _)) as (_ & _ & _ & H).
  exact H.
Defined.

(** ** The resolver *)

Section ResolveMore.
Import Cart.
Variable localeCompare : string -> string -> Z.
Variable reg : Registry.
Variables target loader : string.

Lemma resolvable_item_again info item fname deps :
  resolvable_item (base_item info (resolvable_item (base_item info item) target fname deps))
    target fname deps
  = resolvable_item (base_item info item) target fname deps.
Proof.
  destruct info as [t i c].
  destruct item as [iid ttl src cv tv stt tone psd lsv dl fn icon ds isdep issel nt cust curl].
  unfold resolvable_item, base_item. simpl. f_equal.
  - by destruct t.
  - destruct (String.eqb cv version_unknown) eqn:E; [|by rewrite E].
    destruct c as [v|]; simpl; [|by rewrite E]. by destruct (String.eqb v version_unknown).
  - by destruct i.
Qed.

Lemma missing_item_again info item x y :
  missing_item (base_item info (missing_item (base_item info item) x)) y
  = missing_item (base_item info item) y.
Proof.
  destruct info as [t i c].
  destruct item as [iid ttl src cv tv stt tone psd lsv dl fn icon ds isdep issel nt cust curl].
  unfold missing_item, base_item. simpl. f_equal.
  - by destruct t.
  - destruct (String.eqb cv version_unknown) eqn:E; [|by rewrite E].
    destruct c as [v|]; simpl; [|by rewrite E]. by destruct (String.eqb v version_unknown).
  - by destruct i.
Qed.

(** X4. Resolving is idempotent: an entry that [resolveItem] returned is
    returned unchanged when it is resolved again with the same target,
    loader and registry answers. *)
Theorem resolveItem_idempotent item r :
  resolveItem localeCompare reg target loader item = Fulfilled r ->
  resolveItem localeCompare reg target loader r = Fulfilled r.
Proof.
  unfold resolveItem.
  destruct (paused item) eqn:Hp.
  { intros [= <-]. by rewrite Hp. }
  destruct (is_custom item) eqn:Hc.
  { intros [= <-]. simpl. rewrite Hp.
    change (is_custom (custom_item item)) with (is_custom item). by rewrite Hc. }
  cbv zeta.
  destruct (fetch_versions reg (id item) (Some _)) as [[[|first rest]|]|] eqn:Hq;
    simpl; try discriminate.
  - unfold resolve_fallback. simpl.
    destruct (fetch_versions reg (id item) None) as [[versions|]|] eqn:Hf;
      simpl; try discriminate; intros [= <-]; simpl; rewrite Hp;
      change (is_custom (missing_item (base_item (fetchProjectInfoById reg (id item)) item) ?x))
        with (is_custom item); rewrite Hc, Hq; simpl; rewrite Hf; simpl;
      by rewrite missing_item_again.
  - intros [= <-]. simpl. rewrite Hp.
    change (is_custom (resolvable_item _ _ _ _)) with (is_custom item).
    rewrite Hc, Hq. simpl. by rewrite resolvable_item_again.
  - unfold resolve_fallback. simpl.
    destruct (fetch_versions reg (id item) None) as [[versions|]|] eqn:Hf;
      simpl; try discriminate; intros [= <-]; simpl; rewrite Hp;
      change (is_custom (missing_item (base_item (fetchProjectInfoById reg (id item)) item) ?x))
        with (is_custom item); rewrite Hc, Hq; simpl; rewrite Hf; simpl;
      by rewrite missing_item_again.
Qed.

(** X5. [resolveItem] never touches what the user set: the id, the
    source, the paused flag, the downloaded flag, the dependency and
    selection flags, the note, the custom flag and the custom address of
    the returned entry are those of the entry given. *)
Theorem resolveItem_keeps_user_fields item r :
  resolveItem localeCompare reg target loader item = Fulfilled r ->
  id r = id item /\ source r = source item /\ paused r = paused item /\
  downloaded r = downloaded item /\ isDependency r = isDependency item /\
  isSelected r = isSelected item /\ note r = note item /\
  isCustom r = isCustom item /\ customUrl r = customUrl item.
Proof.
  unfold resolveItem, resolve_fallback.
  destruct (paused item) eqn:Hp; [intros [= <-]; by rewrite Hp|].
  destruct (is_custom item); [intros [= <-]; simpl; by rewrite Hp|].
  destruct (fetch_versions reg (id item) (Some _)) as [[[|first rest]|]|]; simpl;
    try discriminate; try (intros [= <-]; simpl; by rewrite Hp);
    destruct (fetch_versions reg (id item) None) as [[versions|]|]; simpl;
    try discriminate; intros [= <-]; simpl; by rewrite Hp.
Qed.

(** The flags the expansion relies on. *)
Lemma resolveItem_flags item r :
  resolveItem localeCompare reg target loader item = Fulfilled r ->
  paused r = paused item /\ isDependency r = isDependency item.
Proof.
  unfold resolveItem, resolve_fallback.
  destruct (paused item) eqn:Hp; [intros [= <-]; by rewrite Hp|].
  destruct (is_custom item); [intros [= <-]; simpl; by rewrite Hp|].
  destruct (fetch_versions reg (id item) (Some _)) as [[[|first rest]|]|]; simpl;
    try discriminate; try (intros [= <-]; simpl; by rewrite Hp);
    destruct (fetch_versions reg (id item) None) as [[versions|]|]; simpl;
    try discriminate; intros [= <-]; simpl; by rewrite Hp.
Qed.

(** The status of a resolved entry that is not paused. *)
Lemma resolveItem_status item r :
  resolveItem localeCompare reg target loader item = Fulfilled r ->
  paused r = true \/
  (status r = status_resolvable /\ statusTone r = success) \/
  (status r = status_missing /\ statusTone r = warning) \/
  (status r = status_custom /\ statusTone r = accent).
Proof.
  unfold resolveItem, resolve_fallback.
  destruct (paused item) eqn:Hp; [intros [= <-]; by left|].
  destruct (is_custom item); [intros [= <-]; right; right; by right|].
  destruct (fetch_versions reg (id item) (Some _)) as [[[|first rest]|]|]; simpl;
    try discriminate; try (intros [= <-]; right; by left);
    destruct (fetch_versions reg (id item) None) as [[versions|]|]; simpl;
    try discriminate; intros [= <-]; right; right; by left.
Qed.

(** Where a resolvable entry comes from. *)
Lemma resolveItem_resolvable_inv item r :
  resolveItem localeCompare reg target loader item = Fulfilled r ->
  paused r = false -> status r = status_resolvable ->
  exists first rest,
    fetch_versions reg (id r) (Some (target, toLoaderId loader)) = Fulfilled (Ok (first :: rest)) /\
    filename r = first_filename first.
Proof.
  unfold resolveItem, resolve_fallback.
  destruct (paused item) eqn:Hp; [intros [= <-]; congruence|].
  destruct (is_custom item); [intros [= <-]; simpl; discriminate|].
  cbv zeta.
  destruct (fetch_versions reg (id item) (Some _)) as [[[|first rest]|]|] eqn:Hq; simpl;
    try discriminate.
  - destruct (fetch_versions reg (id item) None) as [[versions|]|]; simpl;
      try discriminate; intros [= <-]; simpl; discriminate.
  - intros [= <-] _ _. simpl. eauto.
  - destruct (fetch_versions reg (id item) None) as [[versions|]|]; simpl;
      try discriminate; intros [= <-]; simpl; discriminate.
Qed.

End ResolveMore.

Lemma resolveItem_idempotent_witness :
  exists r, Cart.resolveItem Scenario.byte_order Scenario.sodium_registry "1.20.1" "Fabric"
              Scenario.sodium = Fulfilled r /\
    Cart.resolveItem Scenario.byte_order Scenario.sodium_registry "1.20.1" "Fabric" r
      = Fulfilled r.
Proof.
  eexists. split; [reflexivity|].
  apply (resolveItem_idempotent Scenario.byte_order Scenario.sodium_registry "1.20.1" "Fabric"
           Scenario.sodium).
  reflexivity.
Defined.

Lemma resolveItem_keeps_user_fields_witness :
  exists r, Cart.resolveItem Scenario.byte_order Scenario.unreachable_registry "1.21.1" "Fabric"
              Scenario.oldmod = Fulfilled r /\
    Cart.note r = Cart.note Scenario.oldmod /\ Cart.paused r = Cart.paused Scenario.oldmod.
Proof.
  eexists. split; [reflexivity|].
  destruct (resolveItem_keeps_user_fields Scenario.byte_order Scenario.unreachable_registry
              "1.21.1" "Fabric" Scenario.oldmod _ eq_refl)
    as (_ & _ & Hp & _ & _ & _ & Hn & _).
  split; [exact Hn|exact Hp].
Defined.

(** ** The pass *)

Section PassMore.
Import Cart Views Expanding.
Variable localeCompare : string -> string -> Z.
Variable reg : Registry.

(** Every entry of a committed list is a resolved entry with its
    [downloaded] flag reset. *)
Lemma handleResolve_entries st st' e :
  handleResolve localeCompare reg st = Committed st' -> e ∈ cartItems st' ->
  exists x r,
    resolveItem localeCompare reg (st_targetVersion st) (st_loader st) x = Fulfilled r /\
    e = reset_downloaded r.
Proof.
  intros H He. apply handleResolve_committed in H as (resolved & _ & Hres & H).
  assert (Hin : exists tail,
            Forall2 (fun x r => resolveItem localeCompare reg (st_targetVersion st)
                                  (st_loader st) x = Fulfilled r)
                    (cartItems st ++ tail.1) (resolved ++ tail.2) /\
            cartItems st' = reset_downloaded <$> (resolved ++ tail.2)).
  { destruct H as [[_ ->]|(resolvedDeps & Hdeps & ->)].
    - exists ([], []). simpl. by rewrite !app_nil_r.
    - eexists (_, resolvedDeps). simpl. split; [|done]. by apply Forall2_app. }
  destruct Hin as (tail & Hall & Hitems). rewrite Hitems in He.
  apply list_elem_of_fmap in He as (r & -> & Hr).
  apply list_elem_of_lookup in Hr as [i Hi].
  destruct (Forall2_lookup_r _ _ _ _ _ Hall Hi) as (x & _ & Hx). eauto.
Qed.

(** Every entry the expansion builds is a new dependency entry. *)
Lemma visit_item_new existingIds selected target resolved acc :
  (forall e, e ∈ dependencyItems acc -> exists dep, e = new_dependency target dep) ->
  forall e, e ∈ dependencyItems (foldl (visit_item existingIds selected target) acc resolved) ->
    exists dep, e = new_dependency target dep.
Proof.
  revert acc. induction resolved as [|item resolved IH]; intros acc Hacc; simpl; [done|].
  apply IH. clear IH. unfold visit_item.
  revert acc Hacc. induction (default [] (dependencies item)) as [|dep deps IH];
    intros acc Hacc; simpl; [done|].
  apply IH. intros e. unfold visit_dependency.
  destruct (_ || _); [by apply Hacc|]. simpl.
  intros He. apply elem_of_app in He as [He|He]; [by apply Hacc|].
  apply list_elem_of_singleton in He as ->. by exists dep.
Qed.

Lemma collect_dependencies_new existingIds selected target resolved e :
  e ∈ dependencyItems (collect_dependencies existingIds selected target resolved) ->
  exists dep, e = new_dependency target dep.
Proof.
  apply visit_item_new. intros e' He'. by apply elem_of_nil in He'.
Qed.

(** X6. A committed pass keeps the entries of the list in their places
    and appends the new dependencies after them: the ids of the old
    entries are unchanged, the appended ids are pairwise different and
    not ids of old entries, every appended entry is marked as a
    dependency and is not paused; target version and loader are
    unchanged, and the selection only grows, by ids of appended
    entries. *)
Theorem handleResolve_appends st st' :
  handleResolve localeCompare reg st = Committed st' ->
  st_targetVersion st' = st_targetVersion st /\ st_loader st' = st_loader st /\
  exists added,
    ids (cartItems st') = ids (cartItems st) ++ ids added /\
    drop (length (cartItems st)) (cartItems st') = added /\
    NoDup (ids added) /\
    (forall x, x ∈ ids added -> x ∉ ids (cartItems st)) /\
    Forall (fun e => isDependency e = Some true /\ paused e = false) added /\
    (forall x, x ∈ selectedMods st -> x ∈ selectedMods st') /\
    (forall x, x ∈ selectedMods st' -> x ∈ selectedMods st \/ x ∈ ids added).
Proof.
  intros H. apply handleResolve_committed in H as (resolved & _ & Hres & H).
  pose proof (resolved_ids _ _ _ _ _ _ Hres) as Hids.
  pose proof (Forall2_length _ _ _ Hres) as Hlen.
  pose proof (collect_dependencies_expanded (list_to_set (ids (cartItems st)))
                (selectedMods st) (st_targetVersion st) resolved) as Hexp.
  set (expansion := collect_dependencies _ _ _ resolved) in *.
  cbv zeta in H.
  destruct H as [[_ ->]|(resolvedDeps & Hdeps & ->)]; simpl.
  - split; [done|]. split; [done|]. exists []. simpl.
    rewrite reset_ids, Hids, app_nil_r. split; [done|]. split.
    { rewrite drop_ge; [done|]. rewrite length_fmap. lia. }
    split; [constructor|]. split; [intros x Hx; by apply elem_of_nil in Hx|].
    split; [constructor|]. split; [done|]. intros x Hx. by left.
  - split; [done|]. split; [done|]. exists (reset_downloaded <$> resolvedDeps).
    pose proof (resolved_ids _ _ _ _ _ _ Hdeps) as Hdids.
    assert (Hnew : ids (reset_downloaded <$> resolvedDeps) = ids (dependencyItems expansion)).
    { by rewrite reset_ids. }
    split.
    { rewrite fmap_app. unfold ids at 1. rewrite fmap_app.
      fold (ids (reset_downloaded <$> resolved)). by rewrite reset_ids, Hids. }
    split.
    { rewrite fmap_app, drop_app_length'; [done|]. rewrite length_fmap. lia. }
    rewrite Hnew. split; [apply (exp_nodup _ _ _ Hexp)|]. split.
    { intros x Hx. apply (exp_ids _ _ _ Hexp), (exp_new _ _ _ Hexp) in Hx as [Hx _].
      intros Hin. apply Hx. by apply elem_of_list_to_set. }
    split.
    { apply Forall_forall. intros e He.
      apply list_elem_of_fmap in He as (r & -> & Hr).
      apply list_elem_of_lookup in Hr as [i Hi].
      destruct (Forall2_lookup_r _ _ _ _ _ Hdeps Hi) as (x & Hx & Hw).
      apply list_elem_of_lookup_2 in Hx.
      destruct (exp_fresh _ _ _ Hexp x Hx) as [Hdep Hstatus].
      apply resolveItem_flags in Hw as (Hp & Hd).
      simpl. rewrite Hd, Hp. split; [done|].
      destruct (collect_dependencies_new (list_to_set (ids (cartItems st)))
                  (selectedMods st) (st_targetVersion st) resolved x Hx) as [dep ->].
      done. }
    split; [intros x Hx; apply elem_of_union; by left|].
    intros x Hx. apply elem_of_union in Hx as [Hx|Hx]; [by left|]. right.
    by apply selected_dependencies_new in Hx.
Qed.

(** The counters of a list in which every active entry is resolved. *)
Lemma stats_counts (l : list CartItem) (acc : Stats) :
  Forall (fun e => paused e = true \/
            (status e = status_resolvable /\ statusTone e = success) \/
            (status e = status_missing /\ statusTone e = warning) \/
            (status e = status_custom /\ statusTone e = accent)) l ->
  stat_success (foldl count_tone acc l)
    = stat_success acc
      + length (List.filter (fun e => negb (paused e) && String.eqb (status e) status_resolvable) l) /\
  stat_warning (foldl count_tone acc l)
    = stat_warning acc
      + length (List.filter (fun e => negb (paused e) && String.eqb (status e) status_missing) l) /\
  stat_danger (foldl count_tone acc l) = stat_danger acc.
Proof.
  intros H. revert acc. induction H as [|e l He _ IH]; intros acc; simpl.
  - split; [lia|]. split; [lia|done].
  - destruct (IH (count_tone acc e)) as (-> & -> & ->). clear IH.
    unfold count_tone.
    destruct He as [Hp|[[Hs Ht]|[[Hs Ht]|[Hs Ht]]]].
    + rewrite Hp. simpl. done.
    + rewrite Hs, Ht. destruct (paused e); simpl; (split; [lia|]; split; [lia|done]).
    + rewrite Hs, Ht. destruct (paused e); simpl; (split; [lia|]; split; [lia|done]).
    + rewrite Hs, Ht. destruct (paused e); simpl; (split; [lia|]; split; [lia|done]).
Qed.

(** X7. After a committed pass every entry that is not paused is
    resolved: it is resolvable (tone success), missing (tone warning) or
    custom (tone accent), none is pending; so the resolved counter equals
    the active counter, and the success, warning and danger counters are
    the numbers of active resolvable entries, of active missing entries,
    and 0. *)
Theorem handleResolve_resolves_active st st' :
  handleResolve localeCompare reg st = Committed st' ->
  Forall (fun e => paused e = true \/
            (status e = status_resolvable /\ statusTone e = success) \/
            (status e = status_missing /\ statusTone e = warning) \/
            (status e = status_custom /\ statusTone e = accent)) (cartItems st') /\
  resolvedCount (cartItems st') = activeCount (cartItems st') /\
  stat_success (stats (cartItems st'))
    = length (List.filter (fun e => negb (paused e) && String.eqb (status e) status_resolvable)
                (cartItems st')) /\
  stat_warning (stats (cartItems st'))
    = length (List.filter (fun e => negb (paused e) && String.eqb (status e) status_missing)
                (cartItems st')) /\
  stat_danger (stats (cartItems st')) = 0.
Proof.
  intros H.
  assert (Hall : Forall (fun e => paused e = true \/
            (status e = status_resolvable /\ statusTone e = success) \/
            (status e = status_missing /\ statusTone e = warning) \/
            (status e = status_custom /\ statusTone e = accent)) (cartItems st')).
  { apply Forall_forall. intros e He.
    destruct (handleResolve_entries _ _ _ H He) as (x & r & Hr & ->).
    by apply resolveItem_status in Hr. }
  split; [done|]. split.
  - unfold resolvedCount, activeCount. f_equal. apply List.filter_ext_in.
    intros e He. apply list_elem_of_In in He.
    rewrite Forall_forall in Hall.
    destruct (Hall e He) as [Hp|[[Hs _]|[[Hs _]|[Hs _]]]]; rewrite ?Hp, ?Hs; simpl;
      try done; by destruct (paused e).
  - destruct (stats_counts (cartItems st') (mkStats 0 0 0) Hall) as (Hs & Hw & Hd).
    unfold stats. by rewrite Hs, Hw, Hd.
Qed.

(** X8. A pass fails as a whole: when the filtered version query of one
    active, non-custom entry is rejected, [handleResolve] commits
    nothing, and the list, the selection, the target version and the
    loader are as before the pass, whatever the other entries resolved
    to. *)
Theorem handleResolve_fails_as_a_whole st item :
  item ∈ cartItems st -> paused item = false -> is_custom item = false ->
  fetch_versions reg (id item) (Some (st_targetVersion st, toLoaderId (st_loader st)))
    = Rejects ->
  handleResolve localeCompare reg st = PassFailed /\
  after_resolve localeCompare reg st = st.
Proof.
  intros Hin Hp Hc Hq.
  assert (H : handleResolve localeCompare reg st = PassFailed).
  { unfold handleResolve, runPool.
    destruct (cartItems st) as [|c l] eqn:Hl; [by apply elem_of_nil in Hin|].
    rewrite settled_all_rejects; [done|].
    rewrite <- (resolveItem_rejects localeCompare _ _ reg item Hp Hc Hq).
    by apply list_elem_of_fmap_2. }
  split; [done|]. unfold after_resolve. by rewrite H.
Qed.

(** A pass changes neither the target version nor the loader. *)
Lemma handleResolve_settings st st' :
  handleResolve localeCompare reg st = Committed st' ->
  st_targetVersion st' = st_targetVersion st /\ st_loader st' = st_loader st.
Proof.
  intros H. apply handleResolve_committed in H as (resolved & _ & _ & H).
  cbv zeta in H. by destruct H as [[_ ->]|(resolvedDeps & _ & ->)].
Qed.

(** The ids of a committed list: those of the old list, then new ones. *)
Lemma committed_ids st st' :
  handleResolve localeCompare reg st = Committed st' ->
  exists new, ids (cartItems st') = ids (cartItems st) ++ new /\ NoDup new /\
    forall x, x ∈ new -> x ∉ ids (cartItems st).
Proof.
  intros H. apply handleResolve_committed in H as (resolved & _ & Hres & H).
  pose proof (resolved_ids _ _ _ _ _ _ Hres) as Hids.
  pose proof (collect_dependencies_expanded (list_to_set (ids (cartItems st)))
                (selectedMods st) (st_targetVersion st) resolved) as Hexp.
  set (expansion := collect_dependencies _ _ _ resolved) in *.
  cbv zeta in H.
  destruct H as [[_ ->]|(resolvedDeps & Hdeps & ->)]; simpl.
  - exists []. rewrite reset_ids, Hids, app_nil_r. split; [done|].
    split; [constructor|]. intros x Hx. by apply elem_of_nil in Hx.
  - exists (ids (dependencyItems expansion)).
    pose proof (resolved_ids _ _ _ _ _ _ Hdeps) as Hdids.
    split.
    { rewrite reset_ids. unfold ids in *. by rewrite fmap_app, Hids, Hdids. }
    split; [apply (exp_nodup _ _ _ Hexp)|].
    intros x Hx. apply (exp_ids _ _ _ Hexp), (exp_new _ _ _ Hexp) in Hx as [Hx _].
    intros Hin. apply Hx. by apply elem_of_list_to_set.
Qed.

End PassMore.

Lemma handleResolve_appends_witness :
  exists st',
    Cart.handleResolve Scenario.byte_order Scenario.parents_registry Scenario.two_parents
      = Cart.Committed st' /\
    exists added,
      Cart.ids (Cart.cartItems st') = Cart.ids (Cart.cartItems Scenario.two_parents) ++ Cart.ids added /\
      NoDup (Cart.ids added).
Proof.
  eexists. split; [vm_compute; reflexivity|].
  destruct (handleResolve_appends Scenario.byte_order Scenario.parents_registry
              Scenario.two_parents _ eq_refl) as (_ & _ & added & H1 & _ & H2 & _).
  exists added. split; [exact H1|exact H2].
Defined.

Lemma handleResolve_resolves_active_witness :
  exists st',
    Cart.handleResolve Scenario.byte_order Scenario.parents_registry Scenario.two_parents
      = Cart.Committed st' /\
    Views.resolvedCount (Cart.cartItems st') = Views.activeCount (Cart.cartItems st') /\
    Views.stat_danger (Views.stats (Cart.cartItems st')) = 0.
Proof.
  eexists. split; [vm_compute; reflexivity|].
  destruct (handleResolve_resolves_active Scenario.byte_order Scenario.parents_registry
              Scenario.two_parents _ eq_refl) as (_ & H1 & _ & _ & H2).
  split; [exact H1|exact H2].
Defined.

Lemma handleResolve_fails_as_a_whole_witness :
  Cart.handleResolve Scenario.byte_order More.broken_registry Scenario.two_parents
    = Cart.PassFailed /\
  Cart.after_resolve Scenario.byte_order More.broken_registry Scenario.two_parents
    = Scenario.two_parents.
Proof.
  apply (handleResolve_fails_as_a_whole Scenario.byte_order More.broken_registry
           Scenario.two_parents Scenario.sodium).
  - apply list_elem_of_further, list_elem_of_here.
  - reflexivity.
  - reflexivity.
  - reflexivity.
Defined.

(** ** Downloads, pausing, selection and the ids of the list *)

Section ListMore.
Import Cart Views Download.

(** X9. After a committed pass, [handleDownload] on an entry of the list
    refuses, leaving the list as it is, unless the entry is active and
    resolvable; and for an active resolvable entry it asks the registry
    the query the pass asked, gets the same first match, and downloads
    that match's primary file, or its first file when none is primary
    (the pass recorded the name of the first file), marking the entry
    downloaded. *)
Theorem handleDownload_after_pass localeCompare reg st st' e :
  handleResolve localeCompare reg st = Committed st' -> e ∈ cartItems st' ->
  (paused e = true \/ status e <> status_resolvable ->
   forall confirmed, exists refusal,
     handleDownload reg confirmed e st' = (refusal, st') /\
     refusal ∈ [RefusedPaused; RefusedMissing; RefusedStatus; RefusedPausedEntry]) /\
  (paused e = false -> status e = status_resolvable ->
   exists first rest,
     fetch_versions reg (id e) (Some (st_targetVersion st', toLoaderId (st_loader st')))
       = Fulfilled (Ok (first :: rest)) /\
     filename e = first_filename first /\
     handleDownload reg true e st' =
       match download_file first with
       | Some file =>
           if truthy (url file) then (Started file, mark_downloaded (id e) st')
           else (NoLink, st')
       | None => (NoLink, st')
       end).
Proof.
  intros H He.
  destruct (handleResolve_entries _ _ _ _ _ H He) as (x & r & Hr & ->).
  destruct (handleResolve_settings _ _ _ _ H) as (Ht & Hl).
  unfold handleDownload. simpl. rewrite andb_true_r. split.
  - intros Hcase confirmed.
    destruct (String.eqb (status r) status_resolvable) eqn:Hs; simpl.
    + apply String.eqb_eq in Hs. destruct Hcase as [Hp|Hn]; [|done].
      rewrite Hp. eexists. split; [done|]. rewrite !elem_of_cons. auto.
    + destruct (paused r); [eexists; split; [done|rewrite !elem_of_cons; auto]|].
      destruct (String.eqb (status r) status_missing);
        eexists; (split; [done|rewrite !elem_of_cons; auto]).
  - intros Hp Hs. simpl in Hp, Hs.
    destruct (resolveItem_resolvable_inv _ _ _ _ _ _ Hr Hp Hs) as (first & rest & Hq & Hf).
    exists first, rest. rewrite Ht, Hl. split; [done|]. split; [done|].
    rewrite Hs, Hp, Hq. done.
Qed.

(** X10. Pausing an entry and resuming it does not bring back its
    resolution: the entry is active again with status pending and tone
    accent, every other field (the recorded file name among them) as
    before; until the next pass [handleDownload] refuses it, unless it
    was downloaded before, while the export still lists its file name. *)
Theorem pause_resume_forgets_status reg confirmed item st :
  paused item = false ->
  toggle_pause (toggle_pause item) =
    {| id := id item; title := title item; source := source item;
       currentVersion := currentVersion item; targetVersion := targetVersion item;
       status := status_pending; statusTone := accent; paused := false;
       lastSupportedVersion := lastSupportedVersion item;
       downloaded := downloaded item; filename := filename item; iconUrl := iconUrl item;
       dependencies := dependencies item; isDependency := isDependency item;
       isSelected := isSelected item; note := note item;
       isCustom := isCustom item; customUrl := customUrl item |} /\
  export_name (toggle_pause (toggle_pause item)) = export_name item /\
  (downloaded item <> Some true ->
   handleDownload reg confirmed (toggle_pause (toggle_pause item)) st = (RefusedStatus, st)).
Proof.
  intros Hp. unfold toggle_pause. simpl. rewrite Hp. simpl.
  split; [done|]. split; [done|].
  intros Hd. unfold handleDownload. simpl.
  destruct (downloaded item) as [[|]|]; done.
Qed.

(** X11. Ticking the checkbox of an entry twice gives back the selection
    set, and one tick changes the membership of that id only; the list is
    never touched. *)
Theorem handleToggleSelection_involutive pid st :
  handleToggleSelection pid (handleToggleSelection pid st) = st /\
  (pid ∈ selectedMods (handleToggleSelection pid st) <-> pid ∉ selectedMods st) /\
  (forall x, x <> pid ->
     (x ∈ selectedMods (handleToggleSelection pid st) <-> x ∈ selectedMods st)) /\
  cartItems (handleToggleSelection pid st) = cartItems st.
Proof.
  unfold handleToggleSelection, with_selection. simpl. split; [|split; [|split]].
  - destruct st as [items sel t l]. simpl. f_equal.
    destruct (decide (pid ∈ sel)) as [Hin|Hout].
    + rewrite (bool_decide_eq_true_2 _ Hin).
      rewrite bool_decide_eq_false_2.
      * apply set_eq. intros x.
        rewrite elem_of_union, elem_of_difference, elem_of_singleton.
        destruct (decide (x = pid)) as [->|]; tauto.
      * rewrite elem_of_difference, elem_of_singleton. tauto.
    + rewrite (bool_decide_eq_false_2 _ Hout).
      rewrite bool_decide_eq_true_2.
      * apply set_eq. intros x.
        rewrite elem_of_difference, elem_of_union, elem_of_singleton.
        destruct (decide (x = pid)) as [->|]; tauto.
      * rewrite elem_of_union, elem_of_singleton. tauto.
  - destruct (decide (pid ∈ selectedMods st)) as [Hin|Hout].
    + rewrite (bool_decide_eq_true_2 _ Hin).
      rewrite elem_of_difference, elem_of_singleton. tauto.
    + rewrite (bool_decide_eq_false_2 _ Hout).
      rewrite elem_of_union, elem_of_singleton. tauto.
  - intros x Hx. destruct (bool_decide (pid ∈ selectedMods st)).
    + rewrite elem_of_difference, elem_of_singleton. tauto.
    + rewrite elem_of_union, elem_of_singleton. tauto.
  - done.
Qed.

Lemma in_list_ids pid (items : list CartItem) :
  in_list pid items = false -> pid ∉ ids items.
Proof.
  intros H Hin. unfold ids in Hin. apply list_elem_of_fmap in Hin as (item & -> & Hin).
  apply not_true_iff_false in H. apply H. unfold in_list.
  apply existsb_exists. exists item. split; [by apply list_elem_of_In|].
  apply String.eqb_refl.
Qed.

Lemma filter_ids_NoDup (f : CartItem -> bool) (items : list CartItem) :
  NoDup (ids items) -> NoDup (ids (List.filter f items)).
Proof.
  unfold ids. induction items as [|e items IH]; simpl; [done|].
  intros H. apply NoDup_cons in H as [Hout H].
  destruct (f e); simpl; [|by apply IH].
  apply NoDup_cons. split; [|by apply IH].
  intros Hin. apply Hout. apply list_elem_of_fmap in Hin as (x & -> & Hx).
  apply list_elem_of_fmap. exists x. split; [done|].
  apply list_elem_of_In in Hx. apply filter_In in Hx as [Hx _]. by apply list_elem_of_In.
Qed.

(** X12. No handler lists the same id twice: if the ids of the list are
    pairwise different, they still are after any handler (each taken as
    one atomic step), provided a local id given to a new custom entry is
    not in the list, and a loaded or imported list has pairwise different
    ids itself. *)
Theorem unique_ids_kept a st :
  NoDup (ids (cartItems st)) ->
  match a with
  | AddCustomItem localId => localId ∉ ids (cartItems st)
  | LoadByCode (Fulfilled (Ok data)) => NoDup (ids (default [] (shared_items data)))
  | ImportFile (Some items) => NoDup (ids items)
  | _ => True
  end ->
  NoDup (ids (cartItems (perform a st))).
Proof.
  intros Hst Ha.
  destruct a as [r sl|lid|result|pid|pid|pid|pid v|pid v|pid v|pid|lc r|response|parsed];
    cbn [perform].
  - unfold handleAddItem, handleAddItem_settles.
    destruct (negb (truthy sl)); [done|].
    destruct (in_list sl (cartItems st)) eqn:Hin; [done|].
    simpl. apply NoDup_cons. split; [by apply in_list_ids|done].
  - simpl. apply NoDup_cons. by split.
  - unfold handleSelectSearchResult.
    destruct (in_list (Cart.slug result) (cartItems st)) eqn:Hin; [done|].
    simpl. apply NoDup_cons. split; [by apply in_list_ids|done].
  - done.
  - simpl. by apply filter_ids_NoDup.
  - unfold handleTogglePause. by rewrite update_item_ids.
  - unfold handleNoteChange. by rewrite update_item_ids.
  - unfold handleCustomTitleChange. by rewrite update_item_ids.
  - unfold handleCustomUrlChange. by rewrite update_item_ids.
  - unfold mark_downloaded. by rewrite update_item_ids.
  - unfold after_resolve.
    destruct (handleResolve lc r st) as [| |st'] eqn:Hpass; try done.
    destruct (committed_ids _ _ _ _ Hpass) as (new & -> & Hnew & Hfresh).
    apply NoDup_app. split; [done|]. split; [|done].
    intros x Hx Hx'. by apply (Hfresh x).
  - unfold handleLoadByCode.
    destruct response as [[data|]|]; try done.
    destruct (shared_items data) as [[|c l]|]; try done.
    match goal with
    | |- context [match ?label with Some _ => _ | None => None end] => destruct label
    end; [|done].
    cbn [from_option Datatypes.id cartItems]. simpl in Ha. unfold ids in *.
    rewrite <- list_fmap_compose. exact Ha.
  - destruct parsed as [items|]; [|done].
    simpl. unfold ids in *. rewrite <- list_fmap_compose. exact Ha.
Qed.

Lemma dedupe_from_elements (l : list string) (seen : gset string) (x : string) :
  x ∈ dedupe_from seen l <-> x ∈ l /\ x ∉ seen.
Proof.
  revert seen. induction l as [|y l IH]; intros seen; simpl.
  - rewrite elem_of_nil. tauto.
  - destruct (decide (y ∈ seen)) as [Hin|Hout].
    + rewrite (bool_decide_eq_true_2 _ Hin), IH, elem_of_cons.
      split; [tauto|]. intros [[->|?] ?]; tauto.
    + rewrite (bool_decide_eq_false_2 _ Hout), !elem_of_cons, IH.
      rewrite elem_of_union, elem_of_singleton.
      destruct (decide (x = y)) as [->|]; tauto.
Qed.

Lemma dedupe_from_NoDup (l : list string) (seen : gset string) : NoDup (dedupe_from seen l).
Proof.
  revert seen. induction l as [|y l IH]; intros seen; simpl; [constructor|].
  destruct (bool_decide (y ∈ seen)); [apply IH|].
  apply NoDup_cons. split; [|apply IH].
  rewrite dedupe_from_elements. intros [_ H]. apply H. set_solver.
Qed.

Lemma dedupe_elements (l : list string) :
  NoDup (dedupe l) /\ forall x, x ∈ dedupe l <-> x ∈ l.
Proof.
  split; [apply dedupe_from_NoDup|]. intros x. unfold dedupe.
  rewrite dedupe_from_elements. split; [tauto|]. intros Hx. split; [done|].
  apply not_elem_of_empty.
Qed.

(** X13. [dedupe] keeps the first occurrence of each string, in order:
    its result has no duplicates, has exactly the elements of the list, is
    a sub-list of it, and is the list itself when that has no
    duplicates. *)
Theorem dedupe_first_occurrences (l : list string) :
  NoDup (dedupe l) /\ (forall x, x ∈ dedupe l <-> x ∈ l) /\
  sublist (dedupe l) l /\ (NoDup l -> dedupe l = l).
Proof.
  assert (Hsub : forall l seen, sublist (dedupe_from seen l) l).
  { clear l. induction l as [|y l IH]; intros seen; simpl; [constructor|].
    destruct (bool_decide (y ∈ seen)); [apply sublist_cons, IH|apply sublist_skip, IH]. }
  assert (Hfix : forall l seen, NoDup l -> (forall x, x ∈ l -> x ∉ seen) ->
                   dedupe_from seen l = l).
  { clear l. induction l as [|y l IH]; intros seen Hl Hseen; simpl; [done|].
    apply NoDup_cons in Hl as [Hy Hl].
    rewrite bool_decide_eq_false_2; [|apply Hseen, list_elem_of_here].
    f_equal. apply IH; [done|]. intros x Hx.
    rewrite elem_of_union, elem_of_singleton. intros [->|Hin]; [done|].
    by apply (Hseen x); [apply list_elem_of_further|]. }
  destruct (dedupe_elements l) as [Hnd Hel].
  split; [done|]. split; [done|]. unfold dedupe. split; [apply Hsub|].
  intros Hl. apply Hfix; [done|]. intros x _. apply not_elem_of_empty.
Qed.

(** X14. The dependencies [resolveDependencyTitles] returns are exactly
    the declared dependencies of type "required" with a non-empty project
    id, each id once; the title of each is the registry's title of the
    project, or the id itself when the registry gives no title, answers
    with an error or cannot be reached: the call never fails. *)
Theorem resolveDependencyTitles_required reg deps :
  let out := resolveDependencyTitles reg deps in
  NoDup (dep_id <$> out) /\
  (forall x, x ∈ dep_id <$> out <->
     exists dep, dep ∈ default [] deps /\ dependency_type dep = Some "required" /\
       project_id dep = Some x /\ x <> EmptyString) /\
  Forall (fun d =>
            dep_title d =
              match fetch_project reg (dep_id d) with
              | Fulfilled (Ok data) => default (dep_id d) (pr_title data)
              | Fulfilled NotOk | Rejects => dep_id d
              end) out.
Proof.
  intros out. unfold out, resolveDependencyTitles.
  assert (Hid : forall l : list string, dep_id <$> (dependency_title reg <$> l) = l).
  { intros l. rewrite <- list_fmap_compose. rewrite <- (list_fmap_id l) at 2.
    apply list_fmap_ext. intros i x _. unfold dependency_title. simpl.
    by destruct (fetch_project reg x) as [[?|]|]. }
  destruct deps as [deps|]; simpl.
  - rewrite Hid.
    set (required := omap (fun dep => if is_required dep then project_id dep else None) deps).
    destruct (dedupe_elements required) as [Hnd Hel].
    split; [done|]. split.
    + intros x. rewrite Hel. unfold required. rewrite list_elem_of_omap. split.
      * intros (dep & Hin & Hx). exists dep. split; [done|].
        unfold is_required in Hx.
        destruct (dependency_type dep) as [ty|]; [|discriminate].
        destruct (project_id dep) as [pid|]; [|discriminate].
        destruct (String.eqb ty "required") eqn:Hty; [|discriminate].
        apply String.eqb_eq in Hty as ->. simpl in Hx.
        destruct (truthy pid) eqn:Hpid; [|discriminate]. injection Hx as ->.
        split; [done|]. split; [done|]. intros ->. discriminate.
      * intros (dep & Hin & Hty & Hpid & Hx). exists dep. split; [done|].
        unfold is_required. rewrite Hty, Hpid. simpl.
        destruct x; [done|]. done.
    + apply Forall_forall. intros d Hd. apply list_elem_of_fmap in Hd as (x & -> & _).
      unfold dependency_title.
      destruct (fetch_project reg x) as [[data|]|] eqn:E; simpl; by rewrite E.
  - split; [constructor|]. split; [|constructor].
    intros x. rewrite elem_of_nil. split; [done|]. intros (dep & Hin & _).
    by apply elem_of_nil in Hin.
Qed.

End ListMore.

Lemma handleDownload_after_pass_witness :
  exists st' e,
    Cart.handleResolve Scenario.byte_order Scenario.sodium_registry
      (Cart.with_items Scenario.two_parents [Scenario.sodium]) = Cart.Committed st' /\
    e ∈ Cart.cartItems st' /\ Cart.paused e = false /\ Cart.status e = Cart.status_resolvable /\
    Cart.filename e = Some "sodium-sources.jar" /\
    exists file,
      Download.handleDownload Scenario.sodium_registry true e st'
        = (Download.Started file, Cart.mark_downloaded (Cart.id e) st') /\
      Cart.file_filename file = Some "sodium.jar".
Proof.
  eexists. eexists. split; [vm_compute; reflexivity|].
  split; [apply list_elem_of_here|]. split; [reflexivity|]. split; [reflexivity|].
  split; [reflexivity|].
  destruct (handleDownload_after_pass Scenario.byte_order Scenario.sodium_registry
              (Cart.with_items Scenario.two_parents [Scenario.sodium]) _ _ eq_refl
              (list_elem_of_here _ _)) as [_ H].
  destruct (H eq_refl eq_refl) as (first & rest & Hq & _ & Hd).
  injection Hq as <- <-. eexists. split; [exact Hd|reflexivity].
Defined.

Lemma pause_resume_forgets_status_witness :
  let resolved := Cart.resolvable_item Scenario.sodium "1.20.1" (Some "sodium-0.5.jar") [] in
  Cart.paused resolved = false /\
  Cart.status resolved = Cart.status_resolvable /\
  Cart.status (Cart.toggle_pause (Cart.toggle_pause resolved)) = Cart.status_pending /\
  Download.handleDownload Scenario.sodium_registry true
    (Cart.toggle_pause (Cart.toggle_pause resolved)) Scenario.export_scenario
    = (Download.RefusedStatus, Scenario.export_scenario).
Proof.
  intros resolved. split; [reflexivity|]. split; [reflexivity|].
  destruct (pause_resume_forgets_status Scenario.sodium_registry true resolved
              Scenario.export_scenario eq_refl) as (H1 & _ & H2).
  split; [by rewrite H1|]. apply H2. discriminate.
Defined.

Lemma unique_ids_kept_witness :
  NoDup (Cart.ids (Cart.cartItems Scenario.two_parents)) /\
  NoDup (Cart.ids (Cart.cartItems
    (Cart.perform (Cart.Resolve Scenario.byte_order Scenario.parents_registry)
       Scenario.two_parents))).
Proof.
  assert (H : NoDup (Cart.ids (Cart.cartItems Scenario.two_parents))).
  { apply NoDup_cons. split; [|apply NoDup_singleton].
    intros Hin. apply list_elem_of_singleton in Hin. discriminate. }
  split; [exact H|].
  exact (unique_ids_kept (Cart.Resolve Scenario.byte_order Scenario.parents_registry)
           Scenario.two_parents H I).
Defined.

(** ** The last supported version *)

Section LatestMore.
Import Cart.
Variable localeCompare : string -> string -> Z.

Lemma latest_from_member best l :
  latest_from localeCompare best l ∈ best :: l.
Proof.
  revert best. induction l as [|v l IH]; intros best; simpl; [apply list_elem_of_here|].
  destruct (0 <? localeCompare (published v) (published best))%Z.
  - apply list_elem_of_further, IH.
  - specialize (IH best). apply elem_of_cons in IH as [->|IH].
    + apply list_elem_of_here.
    + by apply list_elem_of_further, list_elem_of_further.
Qed.

Lemma latest_from_max best l (seen : string -> Prop) :
  (forall a, localeCompare a a <= 0)%Z ->
  (forall a b c, localeCompare a b <= 0 -> 0 < localeCompare c b -> localeCompare a c <= 0)%Z ->
  (forall x, seen x -> (localeCompare x (published best) <= 0)%Z) ->
  forall x, seen x \/ x ∈ published <$> l ->
    (localeCompare x (published (latest_from localeCompare best l)) <= 0)%Z.
Proof.
  intros Hrefl Htrans. revert best seen.
  induction l as [|v l IH]; intros best seen Hseen x Hx; simpl.
  - destruct Hx as [Hx|Hx]; [by apply Hseen|]. by apply elem_of_nil in Hx.
  - rewrite fmap_cons, elem_of_cons in Hx.
    destruct (0 <? localeCompare (published v) (published best))%Z eqn:Hlater.
    + apply Z.ltb_lt in Hlater.
      apply (IH v (fun y => seen y \/ y = published v)).
      * intros y [Hy| ->]; [|apply Hrefl]. eapply Htrans; [by apply Hseen|done].
      * tauto.
    + apply Z.ltb_ge in Hlater.
      apply (IH best (fun y => seen y \/ y = published v)).
      * intros y [Hy| ->]; [by apply Hseen|done].
      * tauto.
Qed.

Lemma latest_from_first best l :
  (forall w, w ∈ l -> (localeCompare (published w) (published best) <= 0)%Z) ->
  latest_from localeCompare best l = best.
Proof.
  induction l as [|v l IH]; intros H; simpl; [done|].
  pose proof (H v (list_elem_of_here _ _)) as Hv. apply Z.ltb_ge in Hv. rewrite Hv.
  apply IH. intros w Hw. by apply H, list_elem_of_further.
Qed.

(** X15. Under a collation that orders the dates consistently,
    [getLatestSupportedVersion] answers with the first game version of a
    build of the list whose publication date no build of the list
    exceeds; with the first build of the list when no later one has a
    later date (so when dates are absent or all equal); and with nothing
    exactly when the list is empty or that build has no game version. *)
Theorem getLatestSupportedVersion_latest (versions : list VersionInfo) :
  (forall a, localeCompare a a <= 0)%Z ->
  (forall a b c, localeCompare a b <= 0 -> 0 < localeCompare c b -> localeCompare a c <= 0)%Z ->
  (versions = [] -> getLatestSupportedVersion localeCompare versions = None) /\
  (versions <> [] ->
   exists latest, latest ∈ versions /\
     getLatestSupportedVersion localeCompare versions = game_versions latest ≫= head /\
     forall v, v ∈ versions ->
       (localeCompare (published v) (published latest) <= 0)%Z) /\
  (forall first rest, versions = first :: rest ->
     (forall w, w ∈ rest -> (localeCompare (published w) (published first) <= 0)%Z) ->
     getLatestSupportedVersion localeCompare versions = game_versions first ≫= head).
Proof.
  intros Hrefl Htrans. split; [by intros ->|]. split.
  - destruct versions as [|v l]; [done|]. intros _.
    exists (latest_from localeCompare v l). split; [apply latest_from_member|].
    split; [done|]. intros w Hw.
    apply (latest_from_max v l (fun y => y = published v) Hrefl Htrans).
    + intros y ->. apply Hrefl.
    + apply elem_of_cons in Hw as [->|Hw]; [by left|]. right. by apply list_elem_of_fmap_2.
  - intros first rest -> H. simpl. by rewrite latest_from_first.
Qed.

End LatestMore.

Lemma byte_order_reflexive a : (Scenario.byte_order a a <= 0)%Z.
Proof.
  unfold Scenario.byte_order.
  pose proof (proj2 (OrderedTypeEx.String_as_OT.cmp_eq a a) eq_refl) as H.
  unfold OrderedTypeEx.String_as_OT.cmp in H. by rewrite H.
Qed.

Lemma byte_order_transitive a b c :
  (Scenario.byte_order a b <= 0 -> 0 < Scenario.byte_order c b ->
   Scenario.byte_order a c <= 0)%Z.
Proof.
  unfold Scenario.byte_order. intros Hab Hcb.
  assert (Hbc : OrderedTypeEx.String_as_OT.lt b c).
  { apply OrderedTypeEx.String_as_OT.cmp_lt.
    unfold OrderedTypeEx.String_as_OT.cmp.
    rewrite OrderedTypeEx.String_as_OT.cmp_antisym.
    unfold OrderedTypeEx.String_as_OT.cmp.
    by destruct (String.compare c b). }
  destruct (String.compare a b) eqn:E; [| |done].
  - apply OrderedTypeEx.String_as_OT.cmp_eq in E. subst b.
    apply OrderedTypeEx.String_as_OT.cmp_lt in Hbc.
    unfold OrderedTypeEx.String_as_OT.cmp in Hbc. by rewrite Hbc.
  - apply OrderedTypeEx.String_as_OT.cmp_lt in E.
    pose proof (OrderedTypeEx.String_as_OT.lt_trans _ _ _ E Hbc) as Hac.
    apply OrderedTypeEx.String_as_OT.cmp_lt in Hac.
    unfold OrderedTypeEx.String_as_OT.cmp in Hac. by rewrite Hac.
Qed.

Lemma getLatestSupportedVersion_latest_witness :
  let older := Scenario.build "v1" "1.19.4" [] [] in
  let newer :=
    {| Cart.version_id := "v2"; Cart.game_versions := Some ["1.20.1"];
       Cart.date_published := Some "2024-06-01"; Cart.files := None;
       Cart.version_dependencies := None |} in
  exists latest, latest ∈ [older; newer] /\
    Cart.getLatestSupportedVersion Scenario.byte_order [older; newer]
      = Cart.game_versions latest ≫= head /\
    Cart.getLatestSupportedVersion Scenario.byte_order [older; newer] = Some "1.20.1".
Proof.
  intros older newer.
  destruct (getLatestSupportedVersion_latest Scenario.byte_order [older; newer]
              byte_order_reflexive byte_order_transitive) as (_ & H & _).
  destruct (H ltac:(discriminate)) as (latest & Hin & Heq & _).
  exists latest. split; [exact Hin|]. split; [exact Heq|reflexivity].
Defined.

(** ** Share codes: lookup after issue, what a request leaves alone *)

Section StoreMore.
Import Cart Share Db Lookup.

Lemma filter_fmap_NoDup {A B} (f : A -> B) (g : A -> bool) (l : list A) :
  NoDup (f <$> l) -> NoDup (f <$> List.filter g l).
Proof.
  induction l as [|e l IH]; simpl; [done|].
  intros H. apply NoDup_cons in H as [Hout H].
  destruct (g e); simpl; [|by apply IH].
  apply NoDup_cons. split; [|by apply IH].
  intros Hin. apply Hout. apply list_elem_of_fmap in Hin as (x & -> & Hx).
  apply list_elem_of_fmap. exists x. split; [done|].
  apply list_elem_of_In in Hx. apply filter_In in Hx as [Hx _]. by apply list_elem_of_In.
Qed.

Lemma find_unique {A} (f : A -> string) (l : list A) (r : A) :
  NoDup (f <$> l) -> r ∈ l -> List.find (fun x => String.eqb (f x) (f r)) l = Some r.
Proof.
  induction l as [|x l IH]; intros Hnd Hin; [by apply elem_of_nil in Hin|].
  rewrite fmap_cons in Hnd. apply NoDup_cons in Hnd as [Hx Hnd]. simpl.
  apply elem_of_cons in Hin as [->|Hin]; [by rewrite String.eqb_refl|].
  destruct (String.eqb (f x) (f r)) eqn:E; [|by apply IH].
  apply String.eqb_eq in E. exfalso. apply Hx. rewrite E. by apply list_elem_of_fmap_2.
Qed.

(** In a well-formed table each row is the one its id finds. *)
Lemma well_formed_lookup db r :
  well_formed db -> r ∈ db -> getShareCode db (row_id r) = Some (row_payload r).
Proof.
  intros [Hnd Hcodes] Hin. unfold getShareCode.
  rewrite Forall_forall in Hcodes. destruct (Hcodes r Hin) as [-> _].
  by rewrite (find_unique row_id db r Hnd Hin).
Qed.

Lemma well_formed_save now c p db :
  truthy (toUpperCase c) = true -> well_formed db ->
  well_formed (saveShareCode now c p db).
Proof.
  intros Ht [Hnd Hcodes]. unfold saveShareCode. split.
  - rewrite fmap_app. simpl. apply NoDup_app. split; [by apply filter_fmap_NoDup|].
    split; [|apply NoDup_singleton].
    intros x Hx Hx'. apply list_elem_of_singleton in Hx' as ->.
    apply list_elem_of_fmap in Hx as (r & Hr & Hin).
    apply list_elem_of_In, filter_In in Hin as [_ Hne].
    rewrite <- Hr, String.eqb_refl in Hne. discriminate.
  - apply Forall_app. split.
    + rewrite Forall_forall in *. intros r Hr.
      apply list_elem_of_In, filter_In in Hr as [Hr _]. by apply Hcodes, list_elem_of_In.
    + constructor; [|constructor]. split; [apply toUpperCase_idem|done].
Qed.

Lemma well_formed_filter (g : Row -> bool) db :
  well_formed db -> well_formed (List.filter g db).
Proof.
  intros [Hnd Hcodes]. split; [by apply filter_fmap_NoDup|].
  rewrite Forall_forall in *. intros r Hr.
  apply list_elem_of_In, filter_In in Hr as [Hr _]. by apply Hcodes, list_elem_of_In.
Qed.

(** The file store. *)
Lemma store_get_replace_other k k' v store :
  k' <> k -> FileRoute.store_get (FileRoute.replace k v store) k' = FileRoute.store_get store k'.
Proof.
  intros Hne. induction store as [|[k0 v0] store IH]; simpl; [done|].
  destruct (String.eqb k0 k) eqn:Hk; simpl.
  - apply String.eqb_eq in Hk. subst k0.
    assert (String.eqb k k' = false) as -> by (apply String.eqb_neq; congruence). done.
  - by rewrite IH.
Qed.

Lemma store_get_insert_index_other n k k' v store :
  k' <> k ->
  FileRoute.store_get (FileRoute.insert_index n k v store) k' = FileRoute.store_get store k'.
Proof.
  intros Hne.
  assert (Hk : String.eqb k k' = false) by (apply String.eqb_neq; congruence).
  induction store as [|[k0 v0] store IH]; simpl; [by rewrite Hk|].
  destruct (FileRoute.array_index k0) as [n0|]; [destruct (n0 <? n)%N|]; simpl;
    rewrite ?Hk, ?IH; done.
Qed.

Lemma store_get_set_other k k' v store :
  k' <> k -> FileRoute.store_get (FileRoute.store_set k v store) k' = FileRoute.store_get store k'.
Proof.
  intros Hne. unfold FileRoute.store_set.
  destruct (FileRoute.store_get store k).
  - by apply store_get_replace_other.
  - destruct (FileRoute.array_index k).
    + by apply store_get_insert_index_other.
    + rewrite store_get_app. simpl.
      assert (String.eqb k k' = false) as -> by (apply String.eqb_neq; congruence).
      by destruct (FileRoute.store_get store k').
Qed.

Lemma replace_keys k v store : (FileRoute.replace k v store).*1 = store.*1.
Proof.
  induction store as [|[k0 v0] store IH]; [done|]. cbn [FileRoute.replace].
  destruct (String.eqb k0 k) eqn:Hk; rewrite !fmap_cons; cbn [fst].
  - apply String.eqb_eq in Hk. by subst.
  - by rewrite IH.
Qed.

Lemma insert_index_keys n k v store :
  (FileRoute.insert_index n k v store).*1 ≡ₚ k :: store.*1.
Proof.
  induction store as [|[k0 v0] store IH]; [done|]. cbn [FileRoute.insert_index].
  destruct (FileRoute.array_index k0) as [n0|]; [destruct (n0 <? n)%N|];
    rewrite !fmap_cons; cbn [fst]; try done.
  rewrite IH. apply Permutation_swap.
Qed.

Lemma store_get_None_key store k : FileRoute.store_get store k = None -> k ∉ store.*1.
Proof.
  induction store as [|[k0 v0] store IH]; [intros _; apply not_elem_of_nil|].
  cbn [FileRoute.store_get]. rewrite fmap_cons. cbn [fst].
  destruct (String.eqb k0 k) eqn:Hk; [discriminate|]. intros H.
  apply not_elem_of_cons. split; [|by apply IH].
  apply String.eqb_neq in Hk. congruence.
Qed.

Lemma store_get_unique store k p :
  NoDup store.*1 -> (k, p) ∈ store -> FileRoute.store_get store k = Some p.
Proof.
  induction store as [|[k0 v0] store IH]; intros Hnd Hin; [by apply elem_of_nil in Hin|].
  rewrite fmap_cons in Hnd. cbn [fst] in Hnd. apply NoDup_cons in Hnd as [Hk Hnd].
  cbn [FileRoute.store_get].
  apply elem_of_cons in Hin as [[= <- <-]|Hin]; [by rewrite String.eqb_refl|].
  destruct (String.eqb k0 k) eqn:E; [|by apply IH].
  apply String.eqb_eq in E. subst k0. exfalso. apply Hk.
  apply list_elem_of_fmap. by exists (k, p).
Qed.

Lemma store_set_elements k v store kp :
  kp ∈ FileRoute.store_set k v store -> kp = (k, v) \/ kp ∈ store.
Proof.
  unfold FileRoute.store_set. destruct (FileRoute.store_get store k).
  - induction store as [|[k0 v0] store IH]; simpl; [by right|].
    destruct (String.eqb k0 k).
    + rewrite !elem_of_cons. tauto.
    + rewrite !elem_of_cons. intros [->|H]; [by right; left|].
      destruct (IH H); [by left|by right; right].
  - destruct (FileRoute.array_index k) as [n|].
    + induction store as [|[k0 v0] store IH]; simpl.
      * rewrite list_elem_of_singleton. by left.
      * destruct (FileRoute.array_index k0) as [n0|]; [destruct (n0 <? n)%N|];
          rewrite !elem_of_cons; tauto.
    + rewrite elem_of_app, list_elem_of_singleton. tauto.
Qed.

Lemma store_well_formed_set k v store :
  written k -> store_well_formed store -> store_well_formed (FileRoute.store_set k v store).
Proof.
  intros Hk [Hnd Hcodes]. split.
  - unfold FileRoute.store_set. destruct (FileRoute.store_get store k) eqn:Hget.
    + by rewrite replace_keys.
    + apply store_get_None_key in Hget. destruct (FileRoute.array_index k).
      * rewrite insert_index_keys. by apply NoDup_cons.
      * rewrite fmap_app. simpl. apply NoDup_app. split; [done|].
        split; [|apply NoDup_singleton].
        intros x Hx Hx'. apply list_elem_of_singleton in Hx' as ->. done.
  - rewrite Forall_forall in *. intros kp Hkp.
    apply store_set_elements in Hkp as [->|Hkp]; [done|by apply Hcodes].
Qed.

End StoreMore.

Section RouteMore.
Import Cart Share Db Lookup.
Variable stringify : Normalized -> string.
Variable sha256_hex : string -> string.

(** A code the file route generates is a drawn code. *)
Lemma fresh_code_drawn fuel store rand n code c :
  FileRoute.fresh_code fuel store rand n code = Some c ->
  c = code \/ exists m, c = draw rand m.
Proof.
  revert n code. induction fuel as [|fuel IH]; intros n code; simpl;
    destruct (FileRoute.store_get store code); try discriminate;
    try (intros [= <-]; by left).
  intros H. apply IH in H as [->|H]; right; [by eexists|done].
Qed.

Lemma fresh_code_written fuel store rand c :
  FileRoute.fresh_code fuel store rand 1 (draw rand 0) = Some c -> written c.
Proof.
  intros H. apply fresh_code_drawn in H.
  assert (exists m, c = draw rand m) as [m ->].
  { destruct H as [->|H]; [by exists 0|done]. }
  destruct (draw_format rand m) as (_ & _ & Hup & Ht). by split.
Qed.

Lemma requestedCode_written body c : requestedCode body = Some c -> written c.
Proof. intros H. by apply requestedCode_upper in H. Qed.

Lemma issue_fresh_writes rand now body hash updated db reply db' :
  SqliteRoute.issue_fresh rand now body hash updated db = (reply, db') ->
  (db' = db /\ reply = FailedToGenerate) \/
  (exists c, reply = Issued c updated /\ written c /\ getShareCode db c = None /\
     db' = saveShareCode now c (payload_of body hash now) db).
Proof.
  intros H. apply issue_fresh_spec in H as [[-> ->]|(c & -> & Hfree & Hup & Ht & ->)].
  - by left.
  - right. exists c. by repeat split.
Qed.

(** What a request does to the records, route by route: nothing, or one
    record written under the code of the reply. *)
Lemma sqlite_POST_cases rand now body db reply db' :
  SqliteRoute.POST stringify sha256_hex rand now body db = (reply, db') ->
  (db' = db /\
   (reply = MissingPayload \/ reply = FailedToGenerate \/
    exists c, reply = Issued c false /\ missing_payload body = false /\
      ((written c /\ exists p, getShareCode db c = Some p /\
          contentHash p = computeHash stringify sha256_hex body) \/
       findShareCodeByHash db (computeHash stringify sha256_hex body) = Some c))) \/
  (exists c u, reply = Issued c u /\ written c /\ missing_payload body = false /\
     db' = saveShareCode now c
             (payload_of body (computeHash stringify sha256_hex body) now) db).
Proof.
  unfold SqliteRoute.POST.
  destruct (missing_payload body) eqn:Hm; [intros [= <- <-]; left; auto|].
  set (hash := computeHash stringify sha256_hex body).
  assert (Hrest : forall r d,
            match findShareCodeByHash db hash with
            | Some c => (Issued c false, db)
            | None => SqliteRoute.issue_fresh rand now body hash false db
            end = (r, d) ->
            (d = db /\
             (r = MissingPayload \/ r = FailedToGenerate \/
              exists c, r = Issued c false /\ false = false /\
                ((written c /\ exists p, getShareCode db c = Some p /\ contentHash p = hash) \/
                 findShareCodeByHash db hash = Some c))) \/
            (exists c u, r = Issued c u /\ written c /\ false = false /\
               d = saveShareCode now c (payload_of body hash now) db)).
  { intros r d. destruct (findShareCodeByHash db hash) as [c|] eqn:Hfind.
    - intros [= <- <-]. left. split; [done|]. right. right. exists c. auto.
    - intros H. apply issue_fresh_writes in H as [[-> ->]|(c & -> & Hw & _ & ->)].
      + left. auto.
      + right. exists c, false. auto. }
  destruct (requestedCode body) as [c|] eqn:Hc; [|apply Hrest].
  destruct (getShareCode db c) as [p|] eqn:Hget; [|apply Hrest].
  pose proof (requestedCode_written _ _ Hc) as Hw.
  destruct (String.eqb (contentHash p) hash) eqn:Hh; intros [= <- <-].
  - apply String.eqb_eq in Hh. left. split; [done|]. right. right. exists c.
    split; [done|]. split; [done|]. left. split; [done|]. by exists p.
  - right. exists c, true. auto.
Qed.

Lemma reissue_POST_cases rand now body db reply db' :
  ReissueRoute.POST stringify sha256_hex rand now body db = (reply, db') ->
  (db' = db /\
   (reply = MissingPayload \/ reply = FailedToGenerate \/
    exists c, reply = Issued c false /\ missing_payload body = false /\
      ((written c /\ exists p, getShareCode db c = Some p /\
          contentHash p = computeHash stringify sha256_hex body) \/
       findShareCodeByHash db (computeHash stringify sha256_hex body) = Some c))) \/
  (exists c u, reply = Issued c u /\ written c /\ missing_payload body = false /\
     db' = saveShareCode now c
             (payload_of body (computeHash stringify sha256_hex body) now) db).
Proof.
  unfold ReissueRoute.POST.
  destruct (missing_payload body) eqn:Hm; [intros [= <- <-]; left; auto|].
  set (hash := computeHash stringify sha256_hex body).
  destruct (match requestedCode body with Some c => _ | None => None end) as [c|] eqn:Hun.
  - intros [= <- <-]. left. split; [done|]. right. right. exists c.
    split; [done|]. split; [done|]. left.
    destruct (requestedCode body) as [c0|] eqn:Hc; [|discriminate].
    destruct (getShareCode db c0) as [p|] eqn:Hget; [|discriminate].
    destruct (String.eqb (contentHash p) hash) eqn:Hh; [|discriminate].
    injection Hun as <-. apply String.eqb_eq in Hh.
    split; [by eapply requestedCode_written|]. by exists p.
  - destruct (findShareCodeByHash db hash) as [c|] eqn:Hfind.
    + intros [= <- <-]. left. split; [done|]. right. right. exists c. auto.
    + intros H. apply issue_fresh_writes in H as [[-> ->]|(c & -> & Hw & _ & ->)].
      * left. auto.
      * right. eexists c, _. auto.
Qed.

Lemma file_POST_cases fuel rand now body store reply store' :
  FileRoute.POST stringify sha256_hex fuel rand now body store = Some (reply, store') ->
  (store' = store /\
   (reply = MissingPayload \/
    exists c, reply = Issued c false /\ missing_payload body = false /\
      ((written c /\ exists p, FileRoute.store_get store c = Some p /\
          contentHash p = computeHash stringify sha256_hex body) \/
       FileRoute.find_by_hash store (computeHash stringify sha256_hex body) = Some c))) \/
  (exists c u, reply = Issued c u /\ written c /\ missing_payload body = false /\
     store' = FileRoute.store_set c
                (payload_of body (computeHash stringify sha256_hex body) now) store).
Proof.
  unfold FileRoute.POST.
  destruct (missing_payload body) eqn:Hm; [intros [= <- <-]; left; auto|].
  set (hash := computeHash stringify sha256_hex body).
  assert (Hrest : forall r d,
            match FileRoute.find_by_hash store hash with
            | Some c => Some (Issued c false, store)
            | None =>
                match FileRoute.fresh_code fuel store rand 1 (draw rand 0) with
                | Some c => Some (Issued c false, FileRoute.store_set c (payload_of body hash now) store)
                | None => None
                end
            end = Some (r, d) ->
            (d = store /\
             (r = MissingPayload \/
              exists c, r = Issued c false /\ false = false /\
                ((written c /\ exists p, FileRoute.store_get store c = Some p /\
                    contentHash p = hash) \/
                 FileRoute.find_by_hash store hash = Some c))) \/
            (exists c u, r = Issued c u /\ written c /\ false = false /\
               d = FileRoute.store_set c (payload_of body hash now) store)).
  { intros r d. destruct (FileRoute.find_by_hash store hash) as [c|] eqn:Hfind.
    - intros [= <- <-]. left. split; [done|]. right. exists c. auto.
    - destruct (FileRoute.fresh_code fuel store rand 1 (draw rand 0)) as [c|] eqn:Hfresh;
        [|discriminate].
      intros [= <- <-]. right. exists c, false. split; [done|]. split; [|done].
      by eapply fresh_code_written. }
  destruct (requestedCode body) as [c|] eqn:Hc; [|apply Hrest].
  destruct (FileRoute.store_get store c) as [p|] eqn:Hget; [|apply Hrest].
  pose proof (requestedCode_written _ _ Hc) as Hw.
  destruct (String.eqb (contentHash p) hash) eqn:Hh; intros [= <- <-].
  - apply String.eqb_eq in Hh. left. split; [done|]. right. exists c.
    split; [done|]. split; [done|]. left. split; [done|]. by exists p.
  - right. exists c, true. auto.
Qed.

Lemma table_hash_found db hash c :
  well_formed db -> findShareCodeByHash db hash = Some c ->
  written c /\ exists p, getShareCode db c = Some p /\ contentHash p = hash.
Proof.
  intros Hwf H. apply findShareCodeByHash_Some in H as (r & Hin & <- & Hh). split.
  - destruct Hwf as [_ Hc]. rewrite Forall_forall in Hc. by apply Hc.
  - exists (row_payload r). split; [by apply well_formed_lookup|done].
Qed.

Lemma file_hash_found store hash c :
  store_well_formed store -> FileRoute.find_by_hash store hash = Some c ->
  written c /\ exists p, FileRoute.store_get store c = Some p /\ contentHash p = hash.
Proof.
  intros [Hnd Hc] H. apply find_by_hash_Some in H as (p & Hin & Hh). split.
  - rewrite Forall_forall in Hc. exact (Hc _ Hin).
  - exists p. split; [by apply store_get_unique|done].
Qed.

(** The record under an issued code, route by route. *)
Lemma sqlite_POST_issued rand now body db c u db' :
  well_formed db ->
  SqliteRoute.POST stringify sha256_hex rand now body db = (Issued c u, db') ->
  written c /\ missing_payload body = false /\
  exists p, getShareCode db' c = Some p /\
    contentHash p = computeHash stringify sha256_hex body /\
    (p = payload_of body (computeHash stringify sha256_hex body) now \/ db' = db).
Proof.
  intros Hwf H.
  apply sqlite_POST_cases in H as [[-> H]|(c0 & u0 & [= <- <-] & Hw & Hm & ->)].
  - destruct H as [?|[?|(c0 & [= <- <-] & Hm & H)]]; try discriminate.
    assert (written c /\ exists p, getShareCode db c = Some p /\
              contentHash p = computeHash stringify sha256_hex body) as [Hw (p & Hp & Hh)].
    { destruct H as [?|H]; [done|by apply table_hash_found]. }
    split; [done|]. split; [done|]. exists p. auto.
  - split; [done|]. split; [done|]. eexists. split; [apply getShareCode_save|]. auto.
Qed.

Lemma reissue_POST_issued rand now body db c u db' :
  well_formed db ->
  ReissueRoute.POST stringify sha256_hex rand now body db = (Issued c u, db') ->
  written c /\ missing_payload body = false /\
  exists p, getShareCode db' c = Some p /\
    contentHash p = computeHash stringify sha256_hex body /\
    (p = payload_of body (computeHash stringify sha256_hex body) now \/ db' = db).
Proof.
  intros Hwf H.
  apply reissue_POST_cases in H as [[-> H]|(c0 & u0 & [= <- <-] & Hw & Hm & ->)].
  - destruct H as [?|[?|(c0 & [= <- <-] & Hm & H)]]; try discriminate.
    assert (written c /\ exists p, getShareCode db c = Some p /\
              contentHash p = computeHash stringify sha256_hex body) as [Hw (p & Hp & Hh)].
    { destruct H as [?|H]; [done|by apply table_hash_found]. }
    split; [done|]. split; [done|]. exists p. auto.
  - split; [done|]. split; [done|]. eexists. split; [apply getShareCode_save|]. auto.
Qed.

Lemma file_POST_issued fuel rand now body store c u store' :
  store_well_formed store ->
  FileRoute.POST stringify sha256_hex fuel rand now body store = Some (Issued c u, store') ->
  written c /\ missing_payload body = false /\
  exists p, FileRoute.store_get store' c = Some p /\
    contentHash p = computeHash stringify sha256_hex body /\
    (p = payload_of body (computeHash stringify sha256_hex body) now \/ store' = store).
Proof.
  intros Hwf H.
  apply file_POST_cases in H as [[-> H]|(c0 & u0 & [= <- <-] & Hw & Hm & ->)].
  - destruct H as [?|(c0 & [= <- <-] & Hm & H)]; try discriminate.
    assert (written c /\ exists p, FileRoute.store_get store c = Some p /\
              contentHash p = computeHash stringify sha256_hex body) as [Hw (p & Hp & Hh)].
    { destruct H as [?|H]; [done|by apply file_hash_found]. }
    split; [done|]. split; [done|]. exists p. auto.
  - split; [done|]. split; [done|]. eexists. split; [apply store_get_set|]. auto.
Qed.

Lemma code_param_written c c' :
  written c -> toUpperCase c' = c -> code_param (Some c') = Some c.
Proof. intros [_ Ht] <-. unfold code_param. by rewrite Ht. Qed.

(** X16. A code a route has issued is found by a lookup, in any letter
    case: [GET] answers with a record whose fingerprint is that of the
    submitted list, and which is the submitted list as saved by this
    request unless the request wrote nothing.  For the file route and
    both table routes, on a well-formed store. *)
Theorem issued_code_is_found rand now body c u c' :
  toUpperCase c' = c ->
  (forall fuel store store', store_well_formed store ->
     FileRoute.POST stringify sha256_hex fuel rand now body store = Some (Issued c u, store') ->
     exists p, file_GET (Some c') store' = Found p /\
       contentHash p = computeHash stringify sha256_hex body /\
       (p = payload_of body (computeHash stringify sha256_hex body) now \/ store' = store)) /\
  (forall db db', well_formed db ->
     SqliteRoute.POST stringify sha256_hex rand now body db = (Issued c u, db') ->
     exists p, table_GET (Some c') db' = Found p /\
       contentHash p = computeHash stringify sha256_hex body /\
       (p = payload_of body (computeHash stringify sha256_hex body) now \/ db' = db)) /\
  (forall db db', well_formed db ->
     ReissueRoute.POST stringify sha256_hex rand now body db = (Issued c u, db') ->
     exists p, table_GET (Some c') db' = Found p /\
       contentHash p = computeHash stringify sha256_hex body /\
       (p = payload_of body (computeHash stringify sha256_hex body) now \/ db' = db)).
Proof.
  intros Hc'. split; [|split].
  - intros fuel store store' Hwf H.
    apply file_POST_issued in H as (Hw & _ & p & Hp & Hh & Hsaved); [|done].
    exists p. unfold file_GET. rewrite (code_param_written c c' Hw Hc'), Hp. auto.
  - intros db db' Hwf H.
    apply sqlite_POST_issued in H as (Hw & _ & p & Hp & Hh & Hsaved); [|done].
    exists p. unfold table_GET. rewrite (code_param_written c c' Hw Hc'), Hp. auto.
  - intros db db' Hwf H.
    apply reissue_POST_issued in H as (Hw & _ & p & Hp & Hh & Hsaved); [|done].
    exists p. unfold table_GET. rewrite (code_param_written c c' Hw Hc'), Hp. auto.
Qed.

(** X17. The stores stay well formed: the empty store is, and a request
    to any of the three routes, or a clean-up of the table, leaves a
    well-formed store well formed (each code once, every code in upper
    case and not empty). *)
Theorem stores_stay_well_formed rand now body :
  store_well_formed [] /\ well_formed [] /\
  (forall fuel store reply store', store_well_formed store ->
     FileRoute.POST stringify sha256_hex fuel rand now body store = Some (reply, store') ->
     store_well_formed store') /\
  (forall db, well_formed db ->
     well_formed (SqliteRoute.POST stringify sha256_hex rand now body db).2 /\
     well_formed (ReissueRoute.POST stringify sha256_hex rand now body db).2 /\
     forall cutoff, well_formed (deleteOldShareCodes cutoff db).2).
Proof.
  split; [split; constructor|]. split; [split; constructor|]. split.
  - intros fuel store reply store' Hwf H.
    apply file_POST_cases in H as [[-> _]|(c & u & _ & Hw & _ & ->)]; [done|].
    by apply store_well_formed_set.
  - intros db Hwf. split; [|split].
    + destruct (SqliteRoute.POST stringify sha256_hex rand now body db) as [reply db'] eqn:H.
      apply sqlite_POST_cases in H as [[-> _]|(c & u & _ & [Hup Ht] & _ & ->)]; [done|].
      simpl. apply well_formed_save; [|done]. by rewrite Hup.
    + destruct (ReissueRoute.POST stringify sha256_hex rand now body db) as [reply db'] eqn:H.
      apply reissue_POST_cases in H as [[-> _]|(c & u & _ & [Hup Ht] & _ & ->)]; [done|].
      simpl. apply well_formed_save; [|done]. by rewrite Hup.
    + intros cutoff. simpl. by apply well_formed_filter.
Qed.

(** X18. A request leaves the other codes alone: a lookup of any code
    other than the one in the reply answers after the request as it did
    before, whether it found a record or not; and a request that is
    refused or fails writes nothing. *)
Theorem other_codes_untouched rand now body reply c' :
  (forall u, reply <> Issued (toUpperCase c') u) ->
  (forall fuel store store',
     FileRoute.POST stringify sha256_hex fuel rand now body store = Some (reply, store') ->
     file_GET (Some c') store' = file_GET (Some c') store /\
     ((forall c u, reply <> Issued c u) -> store' = store)) /\
  (forall db db',
     SqliteRoute.POST stringify sha256_hex rand now body db = (reply, db') ->
     table_GET (Some c') db' = table_GET (Some c') db /\
     ((forall c u, reply <> Issued c u) -> db' = db)) /\
  (forall db db',
     ReissueRoute.POST stringify sha256_hex rand now body db = (reply, db') ->
     table_GET (Some c') db' = table_GET (Some c') db /\
     ((forall c u, reply <> Issued c u) -> db' = db)).
Proof.
  intros Hother.
  assert (Htable : forall db c u, reply = Issued c u -> written c ->
            table_GET (Some c') (saveShareCode now c
              (payload_of body (computeHash stringify sha256_hex body) now) db)
            = table_GET (Some c') db).
  { intros db c u -> [Hup _]. unfold table_GET.
    destruct (code_param (Some c')) as [k|] eqn:Hk; [|done].
    unfold code_param in Hk. destruct (truthy (toUpperCase c')); [|discriminate].
    injection Hk as <-.
    rewrite getShareCode_save_other; [done|].
    rewrite toUpperCase_idem, Hup. intros Heq. by apply (Hother u); rewrite Heq. }
  split; [|split].
  - intros fuel store store' H.
    apply file_POST_cases in H as [[-> _]|(c & u & Hr & [Hup _] & _ & ->)]; [done|].
    split; [|intros Hno; by destruct (Hno c u)].
    unfold file_GET. destruct (code_param (Some c')) as [k|] eqn:Hk; [|done].
    unfold code_param in Hk. destruct (truthy (toUpperCase c')); [|discriminate].
    injection Hk as <-.
    rewrite store_get_set_other; [done|]. intros Heq. apply (Hother u). by rewrite Heq.
  - intros db db' H.
    apply sqlite_POST_cases in H as [[-> _]|(c & u & Hr & Hw & _ & ->)]; [done|].
    split; [by eapply Htable|intros Hno; by destruct (Hno c u)].
  - intros db db' H.
    apply reissue_POST_cases in H as [[-> _]|(c & u & Hr & Hw & _ & ->)]; [done|].
    split; [by eapply Htable|intros Hno; by destruct (Hno c u)].
Qed.

(** X19. Submitting the same list again under the code a route has just
    issued for it (in any letter case) changes nothing: the reply is that
    code with [updated = false], and no record is written.  For the file
    route and both table routes, on a well-formed store. *)
Theorem resubmitting_issued_code rand now body c u c' rand' now' :
  toUpperCase c' = c ->
  let again :=
    {| code := Some c'; body_targetVersion := body_targetVersion body;
       body_loader := body_loader body; items := items body |} in
  (forall fuel fuel' store store', store_well_formed store ->
     FileRoute.POST stringify sha256_hex fuel rand now body store = Some (Issued c u, store') ->
     FileRoute.POST stringify sha256_hex fuel' rand' now' again store'
       = Some (Issued c false, store')) /\
  (forall db db', well_formed db ->
     SqliteRoute.POST stringify sha256_hex rand now body db = (Issued c u, db') ->
     SqliteRoute.POST stringify sha256_hex rand' now' again db' = (Issued c false, db')) /\
  (forall db db', well_formed db ->
     ReissueRoute.POST stringify sha256_hex rand now body db = (Issued c u, db') ->
     ReissueRoute.POST stringify sha256_hex rand' now' again db' = (Issued c false, db')).
Proof.
  intros Hc' again.
  assert (Hreq : written c -> requestedCode again = Some c).
  { intros [_ Ht]. unfold requestedCode, again. simpl. by rewrite Hc', Ht. }
  assert (Hhash : computeHash stringify sha256_hex again = computeHash stringify sha256_hex body)
    by done.
  assert (Hmiss : missing_payload again = missing_payload body) by done.
  split; [|split].
  - intros fuel fuel' store store' Hwf H.
    apply file_POST_issued in H as (Hw & Hm & p & Hp & Hh & _); [|done].
    unfold FileRoute.POST. rewrite Hmiss, Hm, (Hreq Hw), Hp, Hhash.
    by rewrite (proj2 (String.eqb_eq _ _) Hh).
  - intros db db' Hwf H.
    apply sqlite_POST_issued in H as (Hw & Hm & p & Hp & Hh & _); [|done].
    unfold SqliteRoute.POST. rewrite Hmiss, Hm, (Hreq Hw), Hp, Hhash.
    by rewrite (proj2 (String.eqb_eq _ _) Hh).
  - intros db db' Hwf H.
    apply reissue_POST_issued in H as (Hw & Hm & p & Hp & Hh & _); [|done].
    unfold ReissueRoute.POST. rewrite Hmiss, Hm, (Hreq Hw), Hp, Hhash.
    by rewrite (proj2 (String.eqb_eq _ _) Hh).
Qed.

(** X20. A code that no record has is ignored: in the file route and the
    overwriting table route the request is answered, and the store left,
    exactly as for the same list submitted without a code; in the
    re-issuing route likewise, except that a freshly generated code comes
    with [updated = true]. *)
Theorem unknown_code_is_ignored rand now body c :
  requestedCode body = Some c ->
  let anonymous :=
    {| code := None; body_targetVersion := body_targetVersion body;
       body_loader := body_loader body; items := items body |} in
  (forall fuel store, FileRoute.store_get store c = None ->
     FileRoute.POST stringify sha256_hex fuel rand now body store
     = FileRoute.POST stringify sha256_hex fuel rand now anonymous store) /\
  (forall db, getShareCode db c = None ->
     SqliteRoute.POST stringify sha256_hex rand now body db
     = SqliteRoute.POST stringify sha256_hex rand now anonymous db) /\
  (forall db, getShareCode db c = None ->
     (ReissueRoute.POST stringify sha256_hex rand now body db).2
     = (ReissueRoute.POST stringify sha256_hex rand now anonymous db).2 /\
     ((ReissueRoute.POST stringify sha256_hex rand now body db).1
      = (ReissueRoute.POST stringify sha256_hex rand now anonymous db).1 \/
      exists c',
        (ReissueRoute.POST stringify sha256_hex rand now anonymous db).1 = Issued c' false /\
        (ReissueRoute.POST stringify sha256_hex rand now body db).1 = Issued c' true /\
        getShareCode db c' = None)).
Proof.
  intros Hc anonymous.
  assert (Hhash : computeHash stringify sha256_hex anonymous
                  = computeHash stringify sha256_hex body) by done.
  assert (Hmiss : missing_payload anonymous = missing_payload body) by done.
  assert (Hreq : requestedCode anonymous = None) by done.
  split; [|split].
  - intros fuel store Hget. unfold FileRoute.POST.
    by rewrite Hmiss, Hhash, Hc, Hreq, Hget.
  - intros db Hget. unfold SqliteRoute.POST.
    by rewrite Hmiss, Hhash, Hc, Hreq, Hget.
  - intros db Hget. unfold ReissueRoute.POST.
    rewrite Hmiss, Hhash, Hc, Hreq, Hget.
    destruct (missing_payload body); [by split; [|left]|].
    destruct (findShareCodeByHash db _) as [c0|]; [by split; [|left]|].
    unfold SqliteRoute.issue_fresh.
    destruct (regenerate 100 db rand (draw rand 0) 0) as [c1 attempts] eqn:Hloop.
    apply regenerate_spec in Hloop as (_ & Hfree & _).
    destruct (Nat.leb 100 attempts) eqn:Hfull; [by split; [|left]|].
    apply Nat.leb_gt in Hfull. simpl. split; [done|]. right. exists c1.
    split; [done|]. split; [done|]. apply Hfree. lia.
Qed.

Lemma regenerate_first_free budget db rand a k :
  a <= k < a + budget ->
  (forall j, a <= j < k -> is_Some (getShareCode db (draw rand j))) ->
  getShareCode db (draw rand k) = None ->
  regenerate budget db rand (draw rand a) a = (draw rand k, k).
Proof.
  revert a. induction budget as [|budget IH]; intros a Hk Htaken Hfree; [lia|].
  simpl. destruct (decide (a = k)) as [->|Hne].
  - by rewrite Hfree.
  - destruct (Htaken a ltac:(lia)) as [p ->].
    apply IH; [lia| |done]. intros j Hj. apply Htaken. lia.
Qed.

Lemma regenerate_all_taken budget db rand a :
  (forall j, a <= j < a + budget -> is_Some (getShareCode db (draw rand j))) ->
  regenerate budget db rand (draw rand a) a = (draw rand (a + budget), a + budget).
Proof.
  revert a. induction budget as [|budget IH]; intros a Htaken; simpl.
  - by rewrite Nat.add_0_r.
  - destruct (Htaken a ltac:(lia)) as [p ->].
    rewrite IH; [|intros j Hj; apply Htaken; lia].
    by replace (S a + budget) with (a + S budget) by lia.
Qed.

(** X21. The table routes test at most 100 generated codes: for a new
    list, the code issued is the first of the first 100 drawn that no
    record has, and the list is saved under it; and when the first 100
    drawn are all taken the reply is the generation error and nothing is
    written, whether or not the next code drawn would be free. *)
Theorem table_routes_test_100_codes rand now body db :
  missing_payload body = false -> code body = None ->
  findShareCodeByHash db (computeHash stringify sha256_hex body) = None ->
  (forall k, k < 100 ->
     (forall j, j < k -> is_Some (getShareCode db (draw rand j))) ->
     getShareCode db (draw rand k) = None ->
     let saved :=
       saveShareCode now (draw rand k)
         (payload_of body (computeHash stringify sha256_hex body) now) db in
     SqliteRoute.POST stringify sha256_hex rand now body db
       = (Issued (draw rand k) false, saved) /\
     ReissueRoute.POST stringify sha256_hex rand now body db
       = (Issued (draw rand k) false, saved)) /\
  ((forall j, j < 100 -> is_Some (getShareCode db (draw rand j))) ->
   SqliteRoute.POST stringify sha256_hex rand now body db = (FailedToGenerate, db) /\
   ReissueRoute.POST stringify sha256_hex rand now body db = (FailedToGenerate, db)).
Proof.
  intros Hm Hcode Hfind.
  assert (Hreq : requestedCode body = None) by (unfold requestedCode; by rewrite Hcode).
  split.
  - intros k Hk Htaken Hfree saved.
    assert (Hissue : forall u,
              SqliteRoute.issue_fresh rand now body
                (computeHash stringify sha256_hex body) u db = (Issued (draw rand k) u, saved)).
    { intros u. unfold SqliteRoute.issue_fresh.
      rewrite (regenerate_first_free 100 db rand 0 k); [|lia| |done].
      - destruct (Nat.leb 100 k) eqn:E; [apply Nat.leb_le in E; lia|done].
      - intros j Hj. apply Htaken. lia. }
    unfold SqliteRoute.POST, ReissueRoute.POST. rewrite Hm, Hreq, Hfind. by rewrite !Hissue.
  - intros Htaken.
    assert (Hissue : forall u,
              SqliteRoute.issue_fresh rand now body
                (computeHash stringify sha256_hex body) u db = (FailedToGenerate, db)).
    { intros u. unfold SqliteRoute.issue_fresh.
      rewrite (regenerate_all_taken 100 db rand 0); [done|].
      intros j Hj. apply Htaken. lia. }
    unfold SqliteRoute.POST, ReissueRoute.POST. rewrite Hm, Hreq, Hfind. by rewrite !Hissue.
Qed.

Lemma fresh_code_first_free fuel store rand a k :
  a <= k <= a + fuel ->
  (forall j, a <= j < k -> is_Some (FileRoute.store_get store (draw rand j))) ->
  FileRoute.store_get store (draw rand k) = None ->
  FileRoute.fresh_code fuel store rand (S a) (draw rand a) = Some (draw rand k).
Proof.
  revert a. induction fuel as [|fuel IH]; intros a Hk Htaken Hfree; simpl.
  - assert (a = k) as -> by lia. by rewrite Hfree.
  - destruct (decide (a = k)) as [->|Hne]; [by rewrite Hfree|].
    destruct (Htaken a ltac:(lia)) as [p ->].
    apply IH; [lia| |done]. intros j Hj. apply Htaken. lia.
Qed.

(** X22. The file route issues the first generated code that no record
    has, however many were taken before it: for a new list, when the
    first [k] codes drawn are taken and the next is free, the handler
    returns, after [k] turns of its loop, with that code and
    [updated = false], the list saved under it. *)
Theorem file_route_issues_first_free_code rand now body store k fuel :
  missing_payload body = false -> code body = None ->
  FileRoute.find_by_hash store (computeHash stringify sha256_hex body) = None ->
  (forall j, j < k -> is_Some (FileRoute.store_get store (draw rand j))) ->
  FileRoute.store_get store (draw rand k) = None ->
  k <= fuel ->
  FileRoute.POST stringify sha256_hex fuel rand now body store
  = Some (Issued (draw rand k) false,
          FileRoute.store_set (draw rand k)
            (payload_of body (computeHash stringify sha256_hex body) now) store).
Proof.
  intros Hm Hcode Hfind Htaken Hfree Hfuel.
  assert (Hreq : requestedCode body = None) by (unfold requestedCode; by rewrite Hcode).
  unfold FileRoute.POST. rewrite Hm, Hreq, Hfind.
  rewrite (fresh_code_first_free fuel store rand 0 k); [done|lia| |done].
  intros j Hj. apply Htaken. lia.
Qed.

(** X23. [deleteOldShareCodes] deletes exactly the rows created before
    the cut-off and reports their number: the rows kept are the rows
    whose creation time is not before the cut-off, in their order; a
    code of a well-formed table is found afterwards, with its record, if
    and only if its row was kept; and a row just saved is kept exactly
    when the time of saving is not before the cut-off. *)
Theorem deleteOldShareCodes_deletes_old cutoff db :
  let '(changes, kept) := deleteOldShareCodes cutoff db in
  changes + length kept = length db /\
  sublist kept db /\
  (forall r, r ∈ kept <-> r ∈ db /\ String.ltb (createdAt r) cutoff = false) /\
  deleteOldShareCodes cutoff kept = (0, kept) /\
  (well_formed db -> forall r, r ∈ db ->
     getShareCode kept (row_id r)
     = if String.ltb (createdAt r) cutoff then None else Some (row_payload r)) /\
  (forall now c p,
     getShareCode (deleteOldShareCodes cutoff (saveShareCode now c p db)).2 c
     = if String.ltb now cutoff then None else Some p).
Proof.
  unfold deleteOldShareCodes.
  assert (Hin : forall l r,
            r ∈ List.filter (fun r => negb (String.ltb (createdAt r) cutoff)) l <->
            r ∈ l /\ String.ltb (createdAt r) cutoff = false).
  { intros l r. rewrite !list_elem_of_In, filter_In, negb_true_iff. done. }
  split; [|split; [|split; [|split; [|split]]]].
  - induction db as [|r l IH]; simpl; [done|].
    destruct (String.ltb (createdAt r) cutoff); simpl; lia.
  - induction db as [|r l IH]; simpl; [constructor|].
    destruct (String.ltb (createdAt r) cutoff); simpl.
    + apply sublist_cons, IH.
    + apply sublist_skip, IH.
  - apply Hin.
  - f_equal.
    + induction db as [|r l IH]; simpl; [done|].
      destruct (String.ltb (createdAt r) cutoff) eqn:E; simpl; [done|]. by rewrite E.
    + induction db as [|r l IH]; simpl; [done|].
      destruct (String.ltb (createdAt r) cutoff) eqn:E; simpl; [done|].
      rewrite E. simpl. by f_equal.
  - intros Hwf r Hr. destruct (String.ltb (createdAt r) cutoff) eqn:E.
    + unfold getShareCode.
      destruct (List.find _ _) as [r'|] eqn:Hfind; [|done]. exfalso.
      apply find_some in Hfind as [Hr' Heq].
      apply list_elem_of_In, Hin in Hr' as [Hr' Hold].
      apply String.eqb_eq in Heq.
      destruct Hwf as [Hnd Hcodes]. rewrite Forall_forall in Hcodes.
      destruct (Hcodes r Hr) as [Hup _]. rewrite Hup in Heq.
      assert (r' = r); [|congruence].
      pose proof (find_unique row_id db r Hnd Hr) as H1.
      pose proof (find_unique row_id db r' Hnd Hr') as H2.
      rewrite Heq in H2. congruence.
    + apply well_formed_lookup; [by apply well_formed_filter|]. by apply Hin.
  - intros now c p. simpl. unfold saveShareCode.
    rewrite List.filter_app. simpl. unfold getShareCode. rewrite find_app.
    rewrite find_none_filter; [|apply find_filter_out].
    destruct (String.ltb now cutoff); simpl; [done|]. by rewrite String.eqb_refl.
Qed.

End RouteMore.

Lemma issued_code_is_found_witness :
  let db' := (Share.SqliteRoute.POST Sample.sample_stringify Sample.sample_digest
                Sample.stuck_source Sample.later Sample.first_list []).2 in
  toUpperCase "aaaaaaaa" = "AAAAAAAA" /\
  exists p, Lookup.table_GET (Some "aaaaaaaa") db' = Lookup.Found p /\
    Share.contentHash p = Sample.sample_hash Sample.first_list.
Proof.
  intros db'. split; [reflexivity|].
  destruct (issued_code_is_found Sample.sample_stringify Sample.sample_digest
              Sample.stuck_source Sample.later Sample.first_list "AAAAAAAA" false "aaaaaaaa"
              eq_refl) as (_ & H & _).
  destruct (H [] db' (Lookup.mkWellFormed [] (NoDup_nil_2) (Forall_nil_2 _)) eq_refl)
    as (p & Hget & Hh & _).
  exists p. split; [exact Hget|exact Hh].
Defined.

Lemma other_codes_untouched_witness :
  let posted := Share.SqliteRoute.POST Sample.sample_stringify Sample.sample_digest
                  Sample.stuck_source Sample.later Sample.second_list Sample.shared_table in
  posted.1 = Share.Issued "AAAAAAAA" false /\
  Lookup.table_GET (Some "abcd1234") posted.2 = Lookup.Found Sample.first_payload.
Proof.
  intros posted. split; [reflexivity|].
  destruct (other_codes_untouched Sample.sample_stringify Sample.sample_digest
              Sample.stuck_source Sample.later Sample.second_list
              (Share.Issued "AAAAAAAA" false) "abcd1234") as (_ & H & _).
  { intros u Heq. vm_compute in Heq. discriminate. }
  destruct (H Sample.shared_table posted.2 eq_refl) as [Hget _].
  rewrite Hget. reflexivity.
Defined.

Lemma resubmitting_issued_code_witness :
  let db' := (Share.SqliteRoute.POST Sample.sample_stringify Sample.sample_digest
                Sample.stuck_source Sample.later Sample.first_list []).2 in
  let again :=
    {| Share.code := Some "aaaaaaaa"; Share.body_targetVersion := "1.20.1";
       Share.body_loader := "fabric"; Share.items := [Scenario.sodium] |} in
  Share.SqliteRoute.POST Sample.sample_stringify Sample.sample_digest
    More.second_source "2024-03-03T00:00:00.000Z" again db'
  = (Share.Issued "AAAAAAAA" false, db').
Proof.
  intros db' again.
  destruct (resubmitting_issued_code Sample.sample_stringify Sample.sample_digest
              Sample.stuck_source Sample.later Sample.first_list "AAAAAAAA" false "aaaaaaaa"
              More.second_source "2024-03-03T00:00:00.000Z" eq_refl) as (_ & H & _).
  exact (H [] db' (Lookup.mkWellFormed [] (NoDup_nil_2) (Forall_nil_2 _)) eq_refl).
Defined.

Lemma unknown_code_is_ignored_witness :
  Share.requestedCode Sample.edited_list = Some "ABCD1234" /\
  Share.SqliteRoute.POST Sample.sample_stringify Sample.sample_digest
    Sample.stuck_source Sample.later Sample.edited_list []
  = Share.SqliteRoute.POST Sample.sample_stringify Sample.sample_digest
      Sample.stuck_source Sample.later Sample.second_list [].
Proof.
  split; [reflexivity|].
  destruct (unknown_code_is_ignored Sample.sample_stringify Sample.sample_digest
              Sample.stuck_source Sample.later Sample.edited_list "ABCD1234" eq_refl)
    as (_ & H & _).
  exact (H [] eq_refl).
Defined.

Lemma table_routes_test_100_codes_witness :
  Share.SqliteRoute.POST Sample.sample_stringify Sample.sample_digest
    More.second_source Sample.later Sample.second_list Sample.taken_table
  = (Share.Issued "BBBBBBBB" false,
     Share.Db.saveShareCode Sample.later "BBBBBBBB"
       (Share.payload_of Sample.second_list (Sample.sample_hash Sample.second_list) Sample.later)
       Sample.taken_table).
Proof.
  destruct (table_routes_test_100_codes Sample.sample_stringify Sample.sample_digest
              More.second_source Sample.later Sample.second_list Sample.taken_table
              eq_refl eq_refl eq_refl) as [H _].
  refine (proj1 (H 1 _ _ eq_refl)).
  - lia.
  - intros j Hj. assert (j = 0) as -> by lia. eexists. reflexivity.
Defined.

Lemma file_route_issues_first_free_code_witness :
  Share.FileRoute.POST Sample.sample_stringify Sample.sample_digest 5
    More.second_source Sample.later Sample.second_list Sample.taken_store
  = Some (Share.Issued "BBBBBBBB" false,
          Sample.taken_store ++
          [("BBBBBBBB",
            Share.payload_of Sample.second_list (Sample.sample_hash Sample.second_list)
              Sample.later)]).
Proof.
  refine (file_route_issues_first_free_code Sample.sample_stringify Sample.sample_digest
            More.second_source Sample.later Sample.second_list Sample.taken_store 1 5
            eq_refl eq_refl eq_refl _ eq_refl _).
  - intros j Hj. assert (j = 0) as -> by lia. eexists. reflexivity.
  - lia.
Defined.

(** ** Sharing from the page *)

Section ClientMore.
Import Cart Share Db Lookup ShareClient.
Variable stringify : Normalized -> string.
Variable sha256_hex : string -> string.

(** The page and the routes fingerprint the same content. *)
Lemma computeContentHash_share_body st sh :
  computeContentHash stringify sha256_hex (st_targetVersion st) (toLoaderId (st_loader st))
    (cartItems st) (selectedMods st)
  = computeHash stringify sha256_hex (share_body st sh).
Proof.
  unfold computeContentHash, computeHash, share_body. simpl. do 3 f_equal.
  rewrite <- list_fmap_compose. by apply list_fmap_ext.
Qed.

Lemma executeGenerateCode_published post st sh c u sh' :
  executeGenerateCode stringify sha256_hex post st sh = (Published c u, sh') ->
  post (share_body st sh) = Fulfilled (Issued c u) /\ truthy c = true /\
  sh' = {| currentShareCode := Some c;
           currentShareCodeHash :=
             Some (computeHash stringify sha256_hex (share_body st sh)) |}.
Proof.
  unfold executeGenerateCode. cbv zeta. rewrite (computeContentHash_share_body st sh).
  destruct (_ && _); [discriminate|].
  destruct (post (share_body st sh)) as [[c0 u0| | |]|]; try discriminate.
  destruct (truthy c0) eqn:Ht; [|discriminate]. by intros [= <- <- <-].
Qed.

(** X24. The fingerprint the page computes for its list is the
    fingerprint the routes compute for the request the page sends; so
    after a successful share, the fingerprint the page remembers is the
    one stored with the record that a lookup of the returned code finds,
    in each of the table routes and in the file route. *)
Theorem page_and_route_fingerprints_agree st sh :
  computeContentHash stringify sha256_hex (st_targetVersion st) (toLoaderId (st_loader st))
    (cartItems st) (selectedMods st)
  = computeHash stringify sha256_hex (share_body st sh) /\
  forall post c u sh',
    executeGenerateCode stringify sha256_hex post st sh = (Published c u, sh') ->
    (forall rand now db db', well_formed db ->
       SqliteRoute.POST stringify sha256_hex rand now (share_body st sh) db = (Issued c u, db') ->
       exists p, table_GET (Some c) db' = Found p /\
         currentShareCodeHash sh' = Some (contentHash p)) /\
    (forall rand now db db', well_formed db ->
       ReissueRoute.POST stringify sha256_hex rand now (share_body st sh) db = (Issued c u, db') ->
       exists p, table_GET (Some c) db' = Found p /\
         currentShareCodeHash sh' = Some (contentHash p)) /\
    (forall fuel rand now store store', store_well_formed store ->
       FileRoute.POST stringify sha256_hex fuel rand now (share_body st sh) store
         = Some (Issued c u, store') ->
       exists p, file_GET (Some c) store' = Found p /\
         currentShareCodeHash sh' = Some (contentHash p)).
Proof.
  split; [apply computeContentHash_share_body|].
  intros post c u sh' H. apply executeGenerateCode_published in H as (_ & _ & ->).
  split; [|split].
  - intros rand now db db' Hwf H.
    apply sqlite_POST_issued in H as (Hw & _ & p & Hp & Hh & _); [|done].
    exists p. unfold table_GET.
    rewrite (code_param_written c c Hw (proj1 Hw)), Hp. simpl. by rewrite Hh.
  - intros rand now db db' Hwf H.
    apply reissue_POST_issued in H as (Hw & _ & p & Hp & Hh & _); [|done].
    exists p. unfold table_GET.
    rewrite (code_param_written c c Hw (proj1 Hw)), Hp. simpl. by rewrite Hh.
  - intros fuel rand now store store' Hwf H.
    apply file_POST_issued in H as (Hw & _ & p & Hp & Hh & _); [|done].
    exists p. unfold file_GET.
    rewrite (code_param_written c c Hw (proj1 Hw)), Hp. simpl. by rewrite Hh.
Qed.

(** X25. Sharing twice sends one request: after a successful share, a
    second share of the unchanged list ends with "no change" without
    calling the route, whatever the route would answer; and once the
    list's fingerprint differs, the next share does call the route, with
    the code received before in the request. *)
Theorem sharing_twice_sends_one_request post st sh c u sh' :
  executeGenerateCode stringify sha256_hex post st sh = (Published c u, sh') ->
  (forall post', executeGenerateCode stringify sha256_hex post' st sh' = (NoChange, sh')) /\
  (forall post' st2,
     computeContentHash stringify sha256_hex (st_targetVersion st2)
       (toLoaderId (st_loader st2)) (cartItems st2) (selectedMods st2)
     <> computeContentHash stringify sha256_hex (st_targetVersion st)
          (toLoaderId (st_loader st)) (cartItems st) (selectedMods st) ->
     code (share_body st2 sh') = Some c /\
     executeGenerateCode stringify sha256_hex post' st2 sh'
     = match post' (share_body st2 sh') with
       | Fulfilled (Issued c2 updated) =>
           if truthy c2
           then (Published c2 updated,
                 {| currentShareCode := Some c2;
                    currentShareCodeHash :=
                      Some (computeContentHash stringify sha256_hex (st_targetVersion st2)
                              (toLoaderId (st_loader st2)) (cartItems st2)
                              (selectedMods st2)) |})
           else (NotPublished, sh')
       | _ => (NotPublished, sh')
       end).
Proof.
  intros H. apply executeGenerateCode_published in H as (_ & Ht & ->).
  rewrite <- (computeContentHash_share_body st sh). split.
  - intros post'. unfold executeGenerateCode. simpl. rewrite Ht.
    by rewrite bool_decide_eq_true_2.
  - intros post' st2 Hne. split; [done|].
    unfold executeGenerateCode. simpl. rewrite Ht.
    rewrite bool_decide_eq_false_2; [|congruence]. simpl.
    by destruct (post' (share_body st2 _)) as [[c2 u2| | |]|].
Qed.

Lemma lower_ascii_idem (c : ascii) : lower_ascii (lower_ascii c) = lower_ascii c.
Proof.
  destruct c as [[] [] [] [] [] [] [] []]; reflexivity.
Qed.

Lemma toLowerCase_idem (s : string) : toLowerCase (toLowerCase s) = toLowerCase s.
Proof.
  unfold toLowerCase. induction s as [|c s IH]; simpl; [done|].
  by rewrite lower_ascii_idem, IH.
Qed.

Lemma toLoaderId_lower label : toLoaderId label = toLowerCase label.
Proof.
  unfold toLoaderId. destruct (String.eqb (toLowerCase label) "neoforge") eqn:E; [|done].
  by apply String.eqb_eq in E.
Qed.

Lemma inherited_name (x : string) :
  existsb (String.eqb x) inherited_names = true <-> x ∈ inherited_names.
Proof.
  rewrite existsb_exists. split.
  - intros (y & Hy & Heq). apply String.eqb_eq in Heq as ->. by apply list_elem_of_In.
  - intros Hx. exists x. split; [by apply list_elem_of_In|apply String.eqb_refl].
Qed.

Ltac not_inherited :=
  let H := fresh in
  intros H; exfalso;
  refine (bool_decide_unpack (_ ∉ inherited_names) _ H); vm_compute; exact I.

(** A loader id has a label unless it is an inherited name. *)
Lemma loader_label_None loaderId :
  loader_label loaderId = None <-> loaderId ∈ inherited_names.
Proof.
  unfold loader_label.
  destruct (String.eqb loaderId "fabric") eqn:E1;
    [apply String.eqb_eq in E1 as ->; split; [done|not_inherited]|].
  destruct (String.eqb loaderId "forge") eqn:E2;
    [apply String.eqb_eq in E2 as ->; split; [done|not_inherited]|].
  destruct (String.eqb loaderId "neoforge") eqn:E3;
    [apply String.eqb_eq in E3 as ->; split; [done|not_inherited]|].
  destruct (String.eqb loaderId "quilt") eqn:E4;
    [apply String.eqb_eq in E4 as ->; split; [done|not_inherited]|].
  destruct (String.eqb loaderId "rift") eqn:E5;
    [apply String.eqb_eq in E5 as ->; split; [done|not_inherited]|].
  destruct (String.eqb loaderId "asm") eqn:E6;
    [apply String.eqb_eq in E6 as ->; split; [done|not_inherited]|].
  destruct (existsb (String.eqb loaderId) inherited_names) eqn:E.
  - apply inherited_name in E. by split.
  - split; [done|]. intros H. apply inherited_name in H. congruence.
Qed.

(** The label the page shows for a loader id leads back to that id. *)
Lemma toLoaderId_loader_label label shown_label :
  loader_label (toLoaderId label) = Some shown_label ->
  toLoaderId shown_label = toLoaderId label.
Proof.
  rewrite !toLoaderId_lower. unfold loader_label.
  destruct (String.eqb (toLowerCase label) "fabric") eqn:E1;
    [apply String.eqb_eq in E1; rewrite E1; by intros [= <-]|].
  destruct (String.eqb (toLowerCase label) "forge") eqn:E2;
    [apply String.eqb_eq in E2; rewrite E2; by intros [= <-]|].
  destruct (String.eqb (toLowerCase label) "neoforge") eqn:E3;
    [apply String.eqb_eq in E3; rewrite E3; by intros [= <-]|].
  destruct (String.eqb (toLowerCase label) "quilt") eqn:E4;
    [apply String.eqb_eq in E4; rewrite E4; by intros [= <-]|].
  destruct (String.eqb (toLowerCase label) "rift") eqn:E5;
    [apply String.eqb_eq in E5; rewrite E5; by intros [= <-]|].
  destruct (String.eqb (toLowerCase label) "asm") eqn:E6;
    [apply String.eqb_eq in E6; rewrite E6; by intros [= <-]|].
  destruct (existsb _ inherited_names); [done|].
  intros [= <-]. apply toLowerCase_idem.
Qed.

(** What a successful lookup of a non-empty list sets. *)
Lemma handleLoadByCode_loaded data (loaded_items : list CartItem) st0 :
  shared_items data = Some loaded_items -> loaded_items <> [] ->
  handleLoadByCode (Fulfilled (Ok data)) st0 =
    match
      match shared_loader data with
      | Some l => if truthy l then loader_label l else Some (st_loader st0)
      | None => Some (st_loader st0)
      end
    with
    | Some label =>
        Some {| cartItems := normalize_shared <$> loaded_items;
                selectedMods :=
                  list_to_set (ids (List.filter (fun item => default false (isSelected item))
                                      (normalize_shared <$> loaded_items)));
                st_targetVersion :=
                  truthy_or (st_targetVersion st0) (shared_targetVersion data);
                st_loader := label |}
    | None => None
    end.
Proof.
  intros Hdata Hne. unfold handleLoadByCode. rewrite Hdata.
  by destruct loaded_items.
Qed.

Lemma load_share_state_loaded loaded data (loaded_items : list CartItem) st0 sh0 :
  shared_items data = Some loaded_items -> loaded_items <> [] ->
  load_share_state stringify sha256_hex loaded (Fulfilled (Ok data)) st0 sh0 =
    {| currentShareCode := Some (toUpperCase loaded);
       currentShareCodeHash :=
         Some (computeContentHash stringify sha256_hex
                 (truthy_or (st_targetVersion st0) (shared_targetVersion data))
                 match shared_loader data with
                 | Some l => if truthy l then l else toLoaderId (st_loader st0)
                 | None => toLoaderId (st_loader st0)
                 end
                 (normalize_shared <$> loaded_items)
                 (list_to_set
                    (ids (List.filter (fun item => default false (isSelected item))
                            (normalize_shared <$> loaded_items))))) |}.
Proof.
  intros Hdata Hne. unfold load_share_state. rewrite Hdata.
  by destruct loaded_items.
Qed.

(** X26. Loading a list that the page shared brings back what was shared:
    for a non-empty list whose entries say whether they are dependencies,
    shared with a non-empty target version and a non-empty loader id that
    is not a name the label table inherits from [Object.prototype]
    ("constructor", "__proto__", ...), loading the stored record sets the
    same ids, target version and loader id, selects exactly the selected
    ids that were in the list, and sets the code and the stored
    fingerprint; so a share right after the load ends with "no change"
    without calling the route. *)
Theorem loading_a_shared_list st sh now loaded st0 sh0 :
  cartItems st <> [] ->
  truthy (st_targetVersion st) = true -> truthy (toLoaderId (st_loader st)) = true ->
  toLoaderId (st_loader st) ∉ inherited_names ->
  Forall (fun item => is_Some (isDependency item)) (cartItems st) ->
  truthy (toUpperCase loaded) = true ->
  let body := share_body st sh in
  let payload := payload_of body (computeHash stringify sha256_hex body) now in
  let response := Fulfilled (Ok (shared_list payload)) in
  let sh' := load_share_state stringify sha256_hex loaded response st0 sh0 in
  exists st', handleLoadByCode response st0 = Some st' /\
  ids (cartItems st') = ids (cartItems st) /\
  st_targetVersion st' = st_targetVersion st /\
  toLoaderId (st_loader st') = toLoaderId (st_loader st) /\
  (forall x, x ∈ selectedMods st' <-> x ∈ selectedMods st /\ x ∈ ids (cartItems st)) /\
  currentShareCode sh' = Some (toUpperCase loaded) /\
  currentShareCodeHash sh' = Some (contentHash payload) /\
  forall post, executeGenerateCode stringify sha256_hex post st' sh' = (NoChange, sh').
Proof.
  intros Hitems Htarget Hloader Hown Hdeps Hloaded body payload response sh'.
  destruct (loader_label (toLoaderId (st_loader st))) as [label|] eqn:Hlabel;
    [|by apply loader_label_None in Hlabel].
  pose proof (toLoaderId_loader_label _ _ Hlabel) as Hback.
  set (sent := shared_item (selectedMods st) <$> cartItems st).
  assert (Hsent : sent <> []).
  { unfold sent. by destruct (cartItems st). }
  set (normalized := normalize_shared <$> sent).
  set (selectedIds :=
         ids (List.filter (fun item => default false (isSelected item)) normalized)).
  exists {| cartItems := normalized; selectedMods := list_to_set selectedIds;
            st_targetVersion := st_targetVersion st; st_loader := label |}.
  split.
  { unfold response.
    rewrite (handleLoadByCode_loaded (shared_list payload) sent st0 eq_refl Hsent).
    simpl. unfold truthy_or. by rewrite Htarget, Hloader, Hlabel. }
  assert (Hsel : forall x, x ∈ (list_to_set selectedIds : gset string) <->
                   x ∈ selectedMods st /\ x ∈ ids (cartItems st)).
  { intros x. rewrite elem_of_list_to_set. unfold selectedIds, ids, normalized, sent.
    rewrite list_elem_of_fmap. split.
    - intros (item & -> & Hin). apply list_elem_of_In, filter_In in Hin as [Hin Hs].
      apply list_elem_of_In in Hin.
      apply list_elem_of_fmap in Hin as (item1 & -> & Hin).
      apply list_elem_of_fmap in Hin as (item0 & -> & Hin).
      simpl in *. apply bool_decide_eq_true_1 in Hs. split; [done|].
      by apply list_elem_of_fmap_2.
    - intros (Hx & Hin). apply list_elem_of_fmap in Hin as (item0 & -> & Hin).
      exists (normalize_shared (shared_item (selectedMods st) item0)). split; [done|].
      apply list_elem_of_In, filter_In. split.
      + apply list_elem_of_In. by do 2 apply list_elem_of_fmap_2.
      + simpl. by apply bool_decide_eq_true_2. }
  assert (Hhash : computeContentHash stringify sha256_hex (st_targetVersion st)
                    (toLoaderId (st_loader st)) normalized (list_to_set selectedIds)
                  = computeHash stringify sha256_hex body).
  { unfold computeContentHash, computeHash, body, share_body. simpl. do 3 f_equal.
    fold sent. unfold normalized, sent. rewrite <- !list_fmap_compose.
    apply list_fmap_ext. intros i item Hi. simpl. unfold project. simpl.
    apply list_elem_of_lookup_2 in Hi.
    rewrite Forall_forall in Hdeps. destruct (Hdeps item Hi) as [b Hb]. rewrite Hb. simpl.
    f_equal. f_equal. apply bool_decide_ext. rewrite Hsel. split; [tauto|].
    intros Hx. split; [done|]. by apply list_elem_of_fmap_2. }
  assert (Hsh' : sh' = {| currentShareCode := Some (toUpperCase loaded);
                          currentShareCodeHash := Some (computeHash stringify sha256_hex body) |}).
  { unfold sh', response.
    rewrite (load_share_state_loaded loaded (shared_list payload) sent st0 sh0 eq_refl Hsent).
    simpl. unfold truthy_or. rewrite Htarget, Hloader.
    fold normalized. fold selectedIds. by rewrite Hhash. }
  rewrite Hsh'. simpl.
  split.
  { unfold normalized, sent, ids. rewrite <- !list_fmap_compose. by apply list_fmap_ext. }
  split; [done|]. split; [exact Hback|]. split; [exact Hsel|].
  split; [done|]. split; [done|].
  intros post. unfold executeGenerateCode. simpl.
  rewrite Hback, Hhash, Hloaded. by rewrite bool_decide_eq_true_2.
Qed.

End ClientMore.

Lemma sharing_twice_sends_one_request_witness :
  let post := fun body =>
    Fulfilled (Share.SqliteRoute.POST Sample.sample_stringify Sample.sample_digest
                 Sample.stuck_source Sample.later body []).1 in
  exists sh',
    ShareClient.executeGenerateCode Sample.sample_stringify Sample.sample_digest post
      More.shared_state More.not_shared = (ShareClient.Published "AAAAAAAA" false, sh') /\
    ShareClient.executeGenerateCode Sample.sample_stringify Sample.sample_digest
      (fun _ => Rejects) More.shared_state sh' = (ShareClient.NoChange, sh').
Proof.
  intros post. eexists. split; [vm_compute; reflexivity|].
  exact (proj1 (sharing_twice_sends_one_request Sample.sample_stringify Sample.sample_digest
                  post More.shared_state More.not_shared "AAAAAAAA" false _ eq_refl)
               (fun _ => Rejects)).
Defined.

Lemma loading_a_shared_list_witness :
  let body := ShareClient.share_body More.shared_state More.not_shared in
  let payload := Share.payload_of body (Sample.sample_hash body) Sample.later in
  let response := Fulfilled (Cart.Ok (ShareClient.shared_list payload)) in
  let st0 := Cart.initial "1.21.1" "Forge" in
  let sh' := ShareClient.load_share_state Sample.sample_stringify Sample.sample_digest
               "abcd1234" response st0 More.not_shared in
  exists st', Cart.handleLoadByCode response st0 = Some st' /\
  Cart.ids (Cart.cartItems st') = ["sodium"; "lithium"] /\
  Cart.st_loader st' = "Fabric" /\
  ShareClient.currentShareCode sh' = Some "ABCD1234" /\
  ShareClient.executeGenerateCode Sample.sample_stringify Sample.sample_digest
    (fun _ => Rejects) st' sh' = (ShareClient.NoChange, sh').
Proof.
  intros body payload response st0 sh'.
  destruct (loading_a_shared_list Sample.sample_stringify Sample.sample_digest
              More.shared_state More.not_shared Sample.later "abcd1234" st0 More.not_shared)
    as (st' & Hload & Hids & _ & _ & _ & Hcode & _ & Hshare).
  - discriminate.
  - reflexivity.
  - reflexivity.
  - intros H. refine (bool_decide_unpack (_ ∉ Cart.inherited_names) _ H). vm_compute. exact I.
  - repeat constructor; eexists; reflexivity.
  - reflexivity.
  - exists st'. split; [exact Hload|]. split; [exact Hids|]. split.
    + fold body payload response in Hload. vm_compute in Hload. by injection Hload as <-.
    + split; [exact Hcode|]. exact (Hshare (fun _ => Rejects)).
Defined.

(** ** The registry relay *)

Section RelayMore.
Import Relay.
Variable Data : Type.
Variable data_truthy : Data -> bool.

Local Abbreviation GET := (Relay.GET Data data_truthy).

(** The cache lookup of a request, whichever of the two functions it
    uses. *)
Lemma relay_lookup rq now (cache : Cache Data) :
  (if isLongCacheable rq then getCachedDataLong Data (cacheKey rq) now cache
   else getCachedData Data (cacheKey rq) now cache)
  = match cache !! cacheKey rq with
    | Some cached =>
        if (now - timestamp Data cached <? ttl rq)%Z then (Some (data Data cached), cache)
        else (None, delete (cacheKey rq) cache)
    | None => (None, cache)
    end.
Proof. unfold ttl, getCachedDataLong, getCachedData. by destruct (isLongCacheable rq). Qed.

(** X27. An answer of the registry with an OK status is stored, and when
    its body is truthy (any JSON value but [null], [false], [0] and the
    empty string) it is served from the cache for the next 5 minutes (one
    hour for the two tag lists): after a request that was relayed and
    answered OK, a request with the same parameters made less than that
    long after the answer was stored gets the same body with status 200 as
    a cache hit, without the registry being asked, and the cache is
    unchanged.  A stored body that is falsy is never served: [if
    (cachedData)] fails and the request is answered as if nothing were
    stored.  A request made after that time finds the entry expired,
    drops it, and is relayed again. *)
Theorem relay_serves_fresh_answers upstream now later rq cache status body cache1 :
  GET upstream now later rq cache = (Json Data status body false, cache1) ->
  Nat.leb 200 status && Nat.leb status 299 = true ->
  cache1 !! cacheKey rq = Some {| data := body; timestamp := later |} /\
  forall upstream' now2 later2,
    ((now2 - later < ttl rq)%Z -> data_truthy body = true ->
     GET upstream' now2 later2 rq cache1 = (Json Data 200 body true, cache1)) /\
    ((now2 - later < ttl rq)%Z -> data_truthy body = false ->
     (GET upstream' now2 later2 rq cache1).1
     = (GET upstream' now2 later2 rq (delete (cacheKey rq) cache1)).1 /\
     forall s d, (GET upstream' now2 later2 rq cache1).1 <> Json Data s d true) /\
    ((ttl rq <= now2 - later)%Z ->
     GET upstream' now2 later2 rq cache1
     = GET upstream' now2 later2 rq (delete (cacheKey rq) cache1) /\
     forall s d, (GET upstream' now2 later2 rq cache1).1 <> Json Data s d true).
Proof.
  intros Hget Hok.
  assert (Hentry : cache1 !! cacheKey rq = Some {| data := body; timestamp := later |}).
  { unfold Relay.GET in Hget. cbv zeta in Hget. rewrite relay_lookup in Hget.
    assert (Hrelay : forall c : Cache Data,
              match relayed rq with
              | inr error => (Failure Data 400 error, c)
              | inl url =>
                  match upstream url with
                  | Fulfilled answer =>
                      (Json Data (up_status Data answer) (up_body Data answer) false,
                       if ok Data answer
                       then setCachedData Data (cacheKey rq) (up_body Data answer) later c
                       else c)
                  | Rejects => (Failure Data 502 "Upstream request failed.", c)
                  end
              end = (Json Data status body false, cache1) ->
              cache1 !! cacheKey rq = Some {| data := body; timestamp := later |}).
    { intros c. destruct (relayed rq) as [url|e]; [|discriminate].
      destruct (upstream url) as [[s d]|]; [|discriminate].
      cbn [up_status up_body]. intros H.
      assert (s = status /\ d = body) as [-> ->] by (by injection H).
      assert (Hok' : ok Data {| up_status := status; up_body := body |} = true) by exact Hok.
      rewrite Hok' in H. injection H as <-.
      unfold setCachedData. exact (lookup_insert_eq (M := gmap string) c _ _). }
    destruct (cache !! cacheKey rq) as [cached|]; [|exact (Hrelay _ Hget)].
    destruct (_ <? _)%Z; [|exact (Hrelay _ Hget)].
    destruct (data_truthy (data Data cached)); [discriminate|exact (Hrelay _ Hget)]. }
  split; [done|]. intros upstream' now2 later2. split; [|split].
  - intros Hfresh Htruthy. unfold Relay.GET. cbv zeta. rewrite relay_lookup, Hentry. simpl.
    apply Z.ltb_lt in Hfresh. by rewrite Hfresh, Htruthy.
  - intros Hfresh Hfalsy. apply Z.ltb_lt in Hfresh.
    unfold Relay.GET. cbv zeta.
    rewrite !relay_lookup, Hentry, (lookup_delete_eq (M := gmap string) cache1). simpl.
    rewrite Hfresh, Hfalsy.
    destruct (relayed rq) as [url|e]; [|by split].
    by destruct (upstream' url) as [[s' d']|].
  - intros Hold. apply Z.ltb_ge in Hold.
    unfold Relay.GET. cbv zeta.
    rewrite !relay_lookup, Hentry, (lookup_delete_eq (M := gmap string) cache1). simpl.
    rewrite Hold. split; [done|]. intros s d.
    destruct (relayed rq) as [url|e]; [|done].
    by destruct (upstream' url) as [[s' d']|].
Qed.

(** X28. What the relay answers and what it stores: a cache hit comes
    only from an entry younger than its time to live, with status 200,
    and leaves the cache as it is; an error reply is the 400 of a request
    that names no address, or the 502 of a rejected or unreadable
    registry answer; any other reply is the registry's own status and
    body; and only an OK answer of the registry is stored: after any
    other request, every key holds what it held, except that an expired
    entry of the request's key is gone. *)
Theorem relay_stores_only_ok_answers upstream now later rq cache reply cache1 :
  GET upstream now later rq cache = (reply, cache1) ->
  (forall s d, reply = Json Data s d true ->
     s = 200 /\ cache1 = cache /\ data_truthy d = true /\
     exists cached, cache !! cacheKey rq = Some cached /\ data Data cached = d /\
       (now - timestamp Data cached < ttl rq)%Z) /\
  (forall s e, reply = Failure Data s e ->
     (s = 400 /\ relayed rq = inr e) \/
     (s = 502 /\ exists url, relayed rq = inl url /\ upstream url = Rejects)) /\
  (forall s d, reply = Json Data s d false ->
     exists url, relayed rq = inl url /\
       upstream url = Fulfilled {| up_status := s; up_body := d |}) /\
  ((forall s d, reply = Json Data s d false -> Nat.leb 200 s && Nat.leb s 299 = false) ->
   forall key,
     cache1 !! key = cache !! key \/
     (key = cacheKey rq /\ cache1 !! key = None /\
      exists cached, cache !! key = Some cached /\
        (ttl rq <= now - timestamp Data cached)%Z)).
Proof.
  unfold Relay.GET. cbv zeta. rewrite relay_lookup.
  set (relay := fun c : Cache Data =>
         match relayed rq with
         | inr error => (Failure Data 400 error, c)
         | inl url =>
             match upstream url with
             | Fulfilled answer =>
                 (Json Data (up_status Data answer) (up_body Data answer) false,
                  if ok Data answer
                  then setCachedData Data (cacheKey rq) (up_body Data answer) later c
                  else c)
             | Rejects => (Failure Data 502 "Upstream request failed.", c)
             end
         end).
  assert (Hrelay : forall c, relay c = (reply, cache1) ->
            (forall s d, reply <> Json Data s d true) /\
            (forall s e, reply = Failure Data s e ->
               (s = 400 /\ relayed rq = inr e) \/
               (s = 502 /\ exists url, relayed rq = inl url /\ upstream url = Rejects)) /\
            (forall s d, reply = Json Data s d false ->
               exists url, relayed rq = inl url /\
                 upstream url = Fulfilled {| up_status := s; up_body := d |}) /\
            ((forall s d, reply = Json Data s d false ->
                Nat.leb 200 s && Nat.leb s 299 = false) -> cache1 = c)).
  { intros c. unfold relay. destruct (relayed rq) as [url|e].
    - destruct (upstream url) as [[s d]|] eqn:Hu.
      + cbn [up_status up_body].
        destruct (ok Data {| up_status := s; up_body := d |}) eqn:Hok;
          intros [= <- <-]; (split; [done|]; split; [done|]; split).
        * intros s' d' [= <- <-]. by exists url.
        * intros Hno. specialize (Hno s d eq_refl). unfold ok in Hok.
          cbn [up_status] in Hok. congruence.
        * intros s' d' [= <- <-]. by exists url.
        * done.
      + intros [= <- <-]. split; [done|]. split; [|done].
        intros s e [= <- <-]. right. split; [done|]. by exists url.
    - intros [= <- <-]. split; [done|]. split; [|done].
      intros s e' [= <- <-]. by left. }
  fold (relay cache). fold (relay (delete (cacheKey rq) cache)).
  destruct (cache !! cacheKey rq) as [cached|] eqn:Hc.
  - destruct (now - timestamp Data cached <? ttl rq)%Z eqn:Hfresh.
    + destruct (data_truthy (data Data cached)) eqn:Ht.
      * intros [= <- <-]. split; [|split; [done|split; [done|]]].
        -- intros s d [= <- <-]. split; [done|]. split; [done|]. split; [done|].
           exists cached. split; [done|]. split; [done|]. by apply Z.ltb_lt.
        -- intros _ key. by left.
      * intros H. apply Hrelay in H as (H1 & H2 & H3 & H4).
        split; [intros s d Hr; by destruct (H1 s d)|]. split; [done|]. split; [done|].
        intros Hno key. left. by rewrite (H4 Hno).
    + intros H. apply Hrelay in H as (H1 & H2 & H3 & H4).
      split; [intros s d Hr; by destruct (H1 s d)|]. split; [done|]. split; [done|].
      intros Hno key. rewrite (H4 Hno).
      destruct (decide (key = cacheKey rq)) as [->|Hne].
      * right. split; [done|].
        split; [exact (lookup_delete_eq (M := gmap string) cache _)|].
        exists cached. split; [done|]. by apply Z.ltb_ge.
      * left. by apply (lookup_delete_ne (M := gmap string) cache).
  - intros H. apply Hrelay in H as (H1 & H2 & H3 & H4).
    split; [intros s d Hr; by destruct (H1 s d)|]. split; [done|]. split; [done|].
    intros Hno key. left. by rewrite (H4 Hno).
Qed.

End RelayMore.

Lemma relay_serves_fresh_answers_witness :
  let first := Relay.GET nat More.nonzero More.registry_up 1000 1005 More.versions_request ∅ in
  first.1 = Relay.Json nat 200 7 false /\
  Relay.GET nat More.nonzero More.registry_down 200000 200001 More.versions_request first.2
  = (Relay.Json nat 200 7 true, first.2).
Proof.
  intros first. split; [reflexivity|].
  assert (Hfirst : Relay.GET nat More.nonzero More.registry_up 1000 1005
                     More.versions_request ∅ = (Relay.Json nat 200 7 false, first.2)).
  { rewrite (surjective_pairing (Relay.GET _ _ _ _ _ _ _)). f_equal. }
  destruct (relay_serves_fresh_answers nat More.nonzero More.registry_up 1000 1005
              More.versions_request ∅ 200 7 first.2 Hfirst eq_refl) as [_ H].
  destruct (H More.registry_down 200000%Z 200001%Z) as [Hfresh _].
  apply Hfresh; reflexivity.
Defined.

Lemma relay_stores_only_ok_answers_witness :
  Relay.GET nat More.nonzero More.registry_down 1000 1005 More.versions_request ∅
  = (Relay.Failure nat 502 "Upstream request failed.", ∅) /\
  forall key : string,
    (∅ : Relay.Cache nat) !! key = (∅ : Relay.Cache nat) !! key \/
    (key = Relay.cacheKey More.versions_request /\ (∅ : Relay.Cache nat) !! key = None /\
     exists cached, (∅ : Relay.Cache nat) !! key = Some cached /\
       (Relay.ttl More.versions_request <= 1000 - Relay.timestamp nat cached)%Z).
Proof.
  assert (Hget : Relay.GET nat More.nonzero More.registry_down 1000 1005
                   More.versions_request ∅
                 = (Relay.Failure nat 502 "Upstream request failed.", ∅)) by reflexivity.
  split; [exact Hget|].
  destruct (relay_stores_only_ok_answers nat More.nonzero More.registry_down 1000 1005
              More.versions_request ∅ _ _ Hget) as (_ & _ & _ & H).
  apply H. intros s d Heq. discriminate.
Defined.
